(** * Reactive persistent storage (core/vendetta/storage.ts)

    A shallow embedding of the storage layer: the file-name sanitiser, the
    file and legacy key-value backends with their one-time migration, the
    deep reactive proxy with its change emitter, the storage session that
    persists every mutation, and the sync adapter with its pending queue. *)

From Stdlib Require Import ZArith Lia Ascii String.
From stdpp Require Import base option list strings countable gmap.

Set Warnings "-register-all".

Local Open Scope string_scope.
Local Open Scope list_scope.

(* ===================================================================== *)
(** * Part I: definitions                                                 *)
(* ===================================================================== *)

(** ** Name sanitisation: [ILLEGAL_CHARS_REGEX] and [getMMKVPath] *)

Module Sanitize.

(** The double quote and the backslash, by character code. *)
Definition dquote : ascii := "034"%char.
Definition backslash : ascii := "092"%char.
Definition hyphen : ascii := "-"%char.

(** The character class of [ILLEGAL_CHARS_REGEX]. *)
Definition illegal_chars : list ascii :=
  ["<"%char; ">"%char; ":"%char; dquote; "/"%char; backslash;
   "|"%char; "?"%char; "*"%char].

Definition illegal (c : ascii) : bool :=
  existsb (Ascii.eqb c) illegal_chars.

(** A regular expression object with the [g] flag is stateful: it carries
    [lastIndex].  [ILLEGAL_CHARS_REGEX] is a module-level constant, so its
    [lastIndex] survives from one call of [getMMKVPath] to the next. *)
Definition lastIndex := nat.

(** First index [i >= from] whose character is in the class; [pos] is the
    index of the head of [s]. *)
Fixpoint first_match (s : string) (from pos : nat) : option nat :=
  match s with
  | EmptyString => None
  | String c s' =>
      if (from <=? pos)%nat && illegal c then Some pos
      else first_match s' from (S pos)
  end.

(** [ILLEGAL_CHARS_REGEX.test(name)]: the search starts at [lastIndex]; a
    hit leaves [lastIndex] just after the matched character, a miss
    resets it to 0. *)
Definition regex_test (name : string) (li : lastIndex) : bool * lastIndex :=
  match first_match name li 0 with
  | Some i => (true, S i)
  | None => (false, 0)
  end.

Fixpoint replace_illegal (s : string) : string :=
  match s with
  | EmptyString => EmptyString
  | String c s' =>
      String (if illegal c then hyphen else c) (replace_illegal s')
  end.

(** [name.replace(ILLEGAL_CHARS_REGEX, "-")]: a global replace restarts
    from index 0 whatever [lastIndex] was, and its final failed match
    leaves [lastIndex] at 0. *)
Definition regex_replace (name : string) (li : lastIndex) : string * lastIndex :=
  (replace_illegal name, 0).

(** [s.replace(/-+/g, "-")]: every maximal run of hyphens becomes one
    hyphen.  The regular expression is a fresh literal, it has no state
    that outlives the call. *)
Fixpoint collapse_hyphens (s : string) : string :=
  match s with
  | EmptyString => EmptyString
  | String c s' =>
      if Ascii.eqb c hyphen then
        match s' with
        | String c' _ =>
            if Ascii.eqb c' hyphen then collapse_hyphens s'
            else String c (collapse_hyphens s')
        | EmptyString => String c EmptyString
        end
      else String c (collapse_hyphens s')
  end.

Definition prefix : string := "vd_mmkv/".

(** [getMMKVPath], with the state of [ILLEGAL_CHARS_REGEX] threaded. *)
Definition getMMKVPath (name : string) (li : lastIndex) : string * lastIndex :=
  let '(hit, li1) := regex_test name li in
  if hit then
    let '(name1, li2) := regex_replace name li1 in
    (prefix +:+ collapse_hyphens name1, li2)
  else (prefix +:+ name, li1).

(** Successive calls, one per name of the list, sharing the regular
    expression object. *)
Fixpoint successive_calls (names : list string) (li : lastIndex)
  : list string * lastIndex :=
  match names with
  | [] => ([], li)
  | name :: names' =>
      let '(p, li1) := getMMKVPath name li in
      let '(ps, li2) := successive_calls names' li1 in
      (p :: ps, li2)
  end.

(** The path for a store, as every caller in the module obtains it: the
    regular expression is at rest ([lastIndex = 0]) between calls. *)
Definition mmkvPath (store : string) : string := fst (getMMKVPath store 0).

(** Predicates used to state the result. *)
Fixpoint string_forall (P : ascii -> bool) (s : string) : bool :=
  match s with
  | EmptyString => true
  | String c s' => P c && string_forall P s'
  end.

Fixpoint string_filter (P : ascii -> bool) (s : string) : string :=
  match s with
  | EmptyString => EmptyString
  | String c s' =>
      if P c then String c (string_filter P s') else string_filter P s'
  end.

Fixpoint no_double_hyphen (s : string) : bool :=
  match s with
  | EmptyString => true
  | String c s' =>
      match s' with
      | String c' _ =>
          negb (Ascii.eqb c hyphen && Ascii.eqb c' hyphen) && no_double_hyphen s'
      | EmptyString => true
      end
  end.

Definition has_illegal (s : string) : bool :=
  negb (string_forall (fun c => negb (illegal c)) s).

(** A character that the sanitiser never touches. *)
Definition plain (c : ascii) : bool :=
  negb (illegal c) && negb (Ascii.eqb c hyphen).

(** Whether a string begins with a hyphen. *)
Definition starts_with_hyphen (s : string) : bool :=
  match s with
  | String c _ => Ascii.eqb c hyphen
  | EmptyString => false
  end.

(** The segment that [getMMKVPath] appends to the directory prefix. *)
Definition segment (name : string) : string :=
  if has_illegal name then collapse_hyphens (replace_illegal name) else name.

End Sanitize.

(** ** Backend adapters: [createFileBackend] and [createMMKVBackend] *)

Module Backend.
Import Sanitize.

(** A Document: the JSON-serialisable tree a backend loads and stores. *)
Inductive json :=
| JNull
| JBool (b : bool)
| JNum (n : Z)
| JStr (s : string)
| JArr (items : list json)
| JObj (fields : list (string * json)).

(** [JSON.parse] and [JSON.stringify] are builtins of the language, not
    code of this module: they are taken as an interface.  [JSON_parse]
    returns [None] where the builtin throws a [SyntaxError]. *)
Class JSON := {
  JSON_parse : string -> option json;
  JSON_stringify : json -> string
}.

(** The native modules ([RTNFileManager], [RTNMMKVManager], [Platform])
    are external as well.  What the code reads from them is collected
    here; [locate loc rel] is the absolute path at which
    [writeFile(loc, rel, ...)] lands and [writable] tells whether a write
    to an absolute path succeeds. *)
Inductive platform := Android | IOS.

Record native := {
  OS : platform;
  saveFileToGallery : bool;
  DocumentsDirPath : string;
  CacheDirPath : string;
  locate : string -> string -> string;
  writable : string -> bool
}.

Inductive call :=
| CFileExists (path : string)
| CReadFile (path : string)
| CWriteFile (loc rel content : string)
| CGetItem (key : string)
| CRemoveItem (key : string)
| CConsole (msg : string).

Record world := {
  files : gmap string string;
  mmkv : gmap string string;
  trace : list call
}.

Inductive error :=
| ENoSuchFile (path : string)
| EWriteFailed (path : string)
| ESyntaxError.

(** The outcome of an awaited promise. *)
Inductive result (A : Type) :=
| Fulfilled (a : A)
| Rejected (e : error).
Arguments Fulfilled {A} a.
Arguments Rejected {A} e.

(** Asynchronous code, run to completion on the single thread. *)
Definition async (A : Type) : Type := world -> result A * world.

Definition ret {A} (a : A) : async A := fun w => (Fulfilled a, w).
Definition throw {A} (e : error) : async A := fun w => (Rejected e, w).
Definition bind {A B} (m : async A) (k : A -> async B) : async B :=
  fun w =>
    match m w with
    | (Fulfilled a, w') => k a w'
    | (Rejected e, w') => (Rejected e, w')
    end.

Declare Scope async_scope.
Delimit Scope async_scope with async.
Notation "x <- m ;; k" := (bind m (fun x => k))
  (at level 100, m at next level, right associativity) : async_scope.
Notation "m ;;; k" := (bind m (fun _ => k))
  (at level 100, right associativity) : async_scope.
Local Open Scope async_scope.

Definition record (c : call) : async unit :=
  fun w => (Fulfilled tt,
            {| files := files w; mmkv := mmkv w; trace := trace w ++ [c] |}).

Definition fileExists (path : string) : async bool :=
  record (CFileExists path) ;;;
  fun w => (Fulfilled (bool_decide (is_Some (files w !! path))), w).

Definition readFile (path : string) : async string :=
  record (CReadFile path) ;;;
  fun w =>
    match files w !! path with
    | Some content => (Fulfilled content, w)
    | None => (Rejected (ENoSuchFile path), w)
    end.

Definition writeFile (N : native) (loc rel content : string) : async unit :=
  record (CWriteFile loc rel content) ;;;
  fun w =>
    let path := locate N loc rel in
    if writable N path then
      (Fulfilled tt,
       {| files := <[path := content]> (files w); mmkv := mmkv w;
          trace := trace w |})
    else (Rejected (EWriteFailed path), w).

Definition getItem (key : string) : async (option string) :=
  record (CGetItem key) ;;;
  fun w => (Fulfilled (mmkv w !! key), w).

Definition removeItem (key : string) : async unit :=
  record (CRemoveItem key) ;;;
  fun w => (Fulfilled tt,
            {| files := files w; mmkv := delete key (mmkv w);
               trace := trace w |}).

Definition console (msg : string) : async unit := record (CConsole msg).

(** [filePathFixer] *)
Definition filePathFixer (N : native) (file : string) : string :=
  match OS N with
  | IOS => if saveFileToGallery N then file else "Documents/" +:+ file
  | Android => file
  end.

Definition LARGE_VALUE : string := "!!LARGE_VALUE!!".

Section WithJSON.
Context `{J : JSON}.

(** The tail of [get]: write the default, read it back, parse it. *)
Definition write_default (N : native) (file : string) (defaultData : json)
  : async json :=
  let path := DocumentsDirPath N +:+ "/" +:+ file in
  writeFile N "documents" (filePathFixer N file)
            (JSON_stringify defaultData) ;;;
  content <- readFile path ;;
  match JSON_parse content with
  | Some d => ret d
  | None => throw ESyntaxError
  end.

(** A backend as [createFileBackend] builds it.  The migration promise
    was started by the creator; [migrated] is what awaiting it gives
    ([None] when no promise was passed). *)
Record backend := {
  file : string;
  defaultData : json;
  migrated : option (result unit)
}.

Definition await_migrate (b : backend) : async unit :=
  match migrated b with
  | None | Some (Fulfilled _) => ret tt
  | Some (Rejected e) => throw e
  end.

(** [createFileBackend(...).get] *)
Definition get (N : native) (b : backend) : async json :=
  await_migrate b ;;;
  let path := DocumentsDirPath N +:+ "/" +:+ file b in
  present <- fileExists path ;;
  if (present : bool) then
    content <- readFile path ;;
    match JSON_parse content with
    | Some d => ret d
    | None => write_default N (file b) (defaultData b)
    end
  else write_default N (file b) (defaultData b).

(** [createFileBackend(...).set] *)
Definition set (N : native) (b : backend) (data : json) : async unit :=
  await_migrate b ;;;
  writeFile N "documents" (filePathFixer N (file b)) (JSON_stringify data).

Definition createFileBackend (file : string) (defaultData : json)
    (migratePromise : option (result unit)) : backend :=
  {| file := file; defaultData := defaultData; migrated := migratePromise |}.

(** The body of the migration started by [createMMKVBackend]. *)
Definition migrate (N : native) (store : string) (defaultData : json)
  : async unit :=
  let mmkvPath := mmkvPath store in
  let defaultStr := JSON_stringify defaultData in
  let path := DocumentsDirPath N +:+ "/" +:+ mmkvPath in
  present <- fileExists path ;;
  if (present : bool) then ret tt
  else
    item <- getItem store ;;
    let oldData := default defaultStr item in
    oldData <-
      (if String.eqb oldData LARGE_VALUE then
         let cachePath := CacheDirPath N +:+ "/mmkv/" +:+ store in
         cached <- fileExists cachePath ;;
         if (cached : bool) then readFile cachePath
         else
           console (store +:+ ": Experienced data loss :(") ;;;
           ret defaultStr
       else ret oldData) ;;
    oldData <-
      (match JSON_parse oldData with
       | Some _ => ret oldData
       | None =>
           console (store +:+ " had an unparseable data while migrating") ;;;
           ret defaultStr
       end) ;;
    writeFile N "documents" (filePathFixer N mmkvPath) oldData ;;;
    item <- getItem store ;;
    match item with
    | Some _ =>
        removeItem store ;;;
        console ("Successfully migrated " +:+ store
                 +:+ " store from MMKV storage to fs")
    | None => ret tt
    end.

(** [createMMKVBackend]: the migration starts at once and the backend
    keeps its promise. *)
Definition createMMKVBackend (N : native) (store : string)
    (defaultData : json) (w : world) : backend * world :=
  let '(r, w') := migrate N store defaultData w in
  (createFileBackend (mmkvPath store) defaultData (Some r), w').

(** Opening a store: create the adapter, then load the document. *)
Definition open_mmkv (N : native) (store : string) (defaultData : json)
  : async json :=
  fun w =>
    let '(b, w') := createMMKVBackend N store defaultData w in
    get N b w'.

End WithJSON.

(** What a native call touches. *)
Definition touches_legacy (c : call) : bool :=
  match c with
  | CGetItem _ | CRemoveItem _ => true
  | _ => false
  end.

Definition is_write (c : call) : bool :=
  match c with CWriteFile _ _ _ => true | _ => false end.

Definition is_remove (c : call) : bool :=
  match c with CRemoveItem _ => true | _ => false end.

(** The write location and the read location of a store file are the
    same file: [writeFile("documents", filePathFixer(file))] lands on
    [DocumentsDirPath/file]. *)
Definition coherent (N : native) (file : string) : Prop :=
  locate N "documents" (filePathFixer N file)
  = DocumentsDirPath N +:+ "/" +:+ file.

(** The world after one more native call. *)
Definition logged (c : call) (w : world) : world :=
  {| files := files w; mmkv := mmkv w; trace := trace w ++ [c] |}.

Definition store_path (N : native) (b : backend) : string :=
  DocumentsDirPath N +:+ "/" +:+ file b.

(** The calls that [get] makes before it falls back to the default. *)
Definition probe_calls (N : native) (b : backend) (w : world) : list call :=
  match files w !! store_path N b with
  | Some _ => [CFileExists (store_path N b); CReadFile (store_path N b)]
  | None => [CFileExists (store_path N b)]
  end.

(** The migration promise, when there is one, was fulfilled. *)
Definition migration_done (b : backend) : Prop :=
  match migrated b with
  | Some (Rejected _) => False
  | _ => True
  end.

Definition legacy_path (N : native) (store : string) : string :=
  DocumentsDirPath N +:+ "/" +:+ mmkvPath store.

Definition migrated_message (store : string) : string :=
  "Successfully migrated " +:+ store +:+ " store from MMKV storage to fs".

(** The native calls of the first open of a store that still lives in the
    legacy store, of an open that finds the store file, and of an open
    whose write to the store file fails. *)
Definition first_open_calls (N : native) (store legacy : string) : list call :=
  [CFileExists (legacy_path N store);
   CGetItem store;
   CWriteFile "documents" (filePathFixer N (mmkvPath store)) legacy;
   CGetItem store;
   CRemoveItem store;
   CConsole (migrated_message store);
   CFileExists (legacy_path N store);
   CReadFile (legacy_path N store)].

Definition later_open_calls (N : native) (store : string) : list call :=
  [CFileExists (legacy_path N store);
   CFileExists (legacy_path N store);
   CReadFile (legacy_path N store)].

Definition failed_open_calls (N : native) (store legacy : string) : list call :=
  [CFileExists (legacy_path N store);
   CGetItem store;
   CWriteFile "documents" (filePathFixer N (mmkvPath store)) legacy].

(** The world after a successful migration of [store]. *)
Definition migrated_world (N : native) (store legacy : string) (w : world) : world :=
  {| files := <[legacy_path N store := legacy]> (files w);
     mmkv := delete store (mmkv w);
     trace := trace w ++ first_open_calls N store legacy |}.

End Backend.

(** ** The deep reactive proxy: [createProxy] *)

Module Proxy.

(** An object reference.  [Raw l] is an ordinary object at heap location
    [l]; [Prox id target path] is the object made by
    [new Proxy(target, handler)] inside the inner [createProxy(target, path)]:
    the handler closes over [path], and [id] is the identity of the proxy
    object (every [new Proxy] makes a fresh one). *)
Inductive ref :=
| Raw (l : nat)
| Prox (id : nat) (target : ref) (path : list string).

(** JavaScript values, as far as a Document and the proxy need them.  A
    number is only stored and handed on (and compared with the length of
    an array), so an integer stands for it.  [VFun name] is a function
    object, such as the built-in members of the prototypes: the code tests
    its type and hands it on. *)
Inductive value :=
| VUndef
| VNull
| VBool (b : bool)
| VNum (n : Z)
| VStr (s : string)
| VObj (r : ref)
| VFun (name : string).

#[global] Instance ref_eq_dec : EqDecision ref.
Proof. solve_decision. Defined.

#[global] Instance value_eq_dec : EqDecision value.
Proof. solve_decision. Defined.

(** References are countable: a reference is a location under a stack of
    wrappers. *)
Fixpoint ref_flat (r : ref) : nat * list (nat * list string) :=
  match r with
  | Raw l => (l, [])
  | Prox id t p => (fst (ref_flat t), (id, p) :: snd (ref_flat t))
  end.

Fixpoint ref_unflat (l : nat) (ws : list (nat * list string)) : ref :=
  match ws with
  | [] => Raw l
  | (id, p) :: ws' => Prox id (ref_unflat l ws') p
  end.

#[global] Instance ref_countable : Countable ref.
Proof.
  refine (inj_countable' (fun r => ref_flat r)
                         (fun x => ref_unflat (fst x) (snd x)) _).
  intros r. induction r as [l | id t IH p]; simpl; [done | by rewrite IH].
Defined.

(** The ordinary object under all the wrappers. *)
Fixpoint base (r : ref) : nat :=
  match r with
  | Raw l => l
  | Prox _ t _ => base t
  end.

Definition is_proxy (r : ref) : bool :=
  match r with Prox _ _ _ => true | Raw _ => false end.

(** [typeof v === "object"]: true of objects and of [null], false of a
    function. *)
Definition typeof_object (v : value) : bool :=
  match v with
  | VNull | VObj _ => true
  | _ => false
  end.

(** [v !== undefined && v !== null] *)
Definition present (v : value) : bool :=
  match v with
  | VUndef | VNull => false
  | _ => true
  end.

(** *** Ordinary objects

    A property of an ordinary object: a data property with its value and
    its [[Writable]] and [[Configurable]] attributes, or the accessor
    that [Object.prototype] has under [__proto__], whose getter returns
    and whose setter replaces the prototype of the receiver.
    ([[Enumerable]] plays no part in reading, writing and deleting a
    property.) *)
Inductive slot :=
| Data (v : value) (writable configurable : bool)
| ProtoAccessor (configurable : bool).

(** The kinds of object: an ordinary object, an array (whose [length] is
    an own property that cannot be deleted and that follows the indices),
    and an object whose prototype is fixed, as [Object.prototype] is. *)
Inductive shape :=
| Plain
| ArrayOf (len : N) (len_writable : bool)
| FixedProto.

(** An object of the heap: its own properties (those of an array without
    [length]), its prototype (the location of an ordinary object, [None]
    for [null]), and whether properties can be added. *)
Record object := {
  props : gmap string slot;
  proto : option nat;
  extensible : bool;
  shape_of : shape
}.

Definition with_props (f : gmap string slot -> gmap string slot) (o : object)
  : object :=
  {| props := f (props o); proto := proto o; extensible := extensible o;
     shape_of := shape_of o |}.

Definition with_proto (p : option nat) (o : object) : object :=
  {| props := props o; proto := p; extensible := extensible o;
     shape_of := shape_of o |}.

Definition with_length (n : N) (o : object) : object :=
  match shape_of o with
  | ArrayOf _ w =>
      {| props := props o; proto := proto o; extensible := extensible o;
         shape_of := ArrayOf n w |}
  | _ => o
  end.

Definition is_configurable (sl : slot) : bool :=
  match sl with
  | Data _ _ c => c
  | ProtoAccessor c => c
  end.

(** An array index: the canonical decimal numeral of an integer below
    2^32 - 1. *)
Definition digit_of (c : ascii) : option N :=
  let n := N_of_ascii c in
  if ((48 <=? n) && (n <=? 57))%N then Some (n - 48)%N else None.

Fixpoint decimal (acc : N) (s : string) : option N :=
  match s with
  | EmptyString => Some acc
  | String c s' =>
      match digit_of c with
      | Some d => decimal (10 * acc + d)%N s'
      | None => None
      end
  end.

Definition array_index (k : string) : option N :=
  match k with
  | EmptyString => None
  | String c rest =>
      if Ascii.eqb c "0"%char && negb (String.eqb rest "") then None
      else match decimal 0 k with
           | Some n => if (n <? 4294967295)%N then Some n else None
           | None => None
           end
  end.

(** [[GetOwnProperty]] of an ordinary object and of an array. *)
Definition own_property (o : object) (prop : string) : option slot :=
  match shape_of o with
  | ArrayOf len w =>
      if String.eqb prop "length" then Some (Data (VNum (Z.of_N len)) w false)
      else props o !! prop
  | _ => props o !! prop
  end.

(** The property that [o[prop]] resolves to, with the location of the
    object that holds it: the own property, or the first one found along
    the prototype chain.  A chain of ordinary objects has no cycle, so it
    is no longer than the heap has objects. *)
Fixpoint find_property (fuel : nat) (h : gmap nat object) (l : nat)
    (prop : string) : option (nat * slot) :=
  match h !! l with
  | None => None
  | Some o =>
      match own_property o prop with
      | Some sl => Some (l, sl)
      | None =>
          match proto o, fuel with
          | Some p, S fuel' => find_property fuel' h p prop
          | _, _ => None
          end
      end
  end.

Definition lookup_property (h : gmap nat object) (l : nat) (prop : string)
  : option (nat * slot) :=
  find_property (size h) h l prop.

(** [Object.getPrototypeOf(o)] as a value. *)
Definition prototype_of (h : gmap nat object) (l : nat) : value :=
  match h !! l ≫= proto with
  | Some p => VObj (Raw p)
  | None => VNull
  end.

(** [[Get]]: the value of [o[prop]] for the ordinary object at [l]. *)
Definition ordinary_get (h : gmap nat object) (l : nat) (prop : string)
  : value :=
  match lookup_property h l prop with
  | Some (_, Data v _ _) => v
  | Some (_, ProtoAccessor _) => prototype_of h l
  | None => VUndef
  end.

(** [p] is [l] or has [l] on its prototype chain. *)
Fixpoint reaches (fuel : nat) (h : gmap nat object) (p l : nat) : bool :=
  bool_decide (p = l)
  || match h !! p ≫= proto, fuel with
     | Some q, S fuel' => reaches fuel' h q l
     | _, _ => false
     end.

Inductive kind := GET | SET | DEL.

#[global] Instance kind_eq_dec : EqDecision kind.
Proof. solve_decision. Defined.

(** The payload handed to listeners, with the event kind. *)
Record event := {
  ev_kind : kind;
  ev_parent : ref;
  ev_path : list string;
  ev_value : value
}.

(** Listeners.  [Persist p] is the handler [() => backend.set(p)] of
    [createStorage]; [Observer n] stands for any other listener, whose
    calls are recorded. *)
Inductive listener :=
| Persist (proxy : ref)
| Observer (n : nat).

#[global] Instance listener_eq_dec : EqDecision listener.
Proof. solve_decision. Defined.

(** Modelled from the spec: the [Emitter] class (./Emitter is not among the
    sources).  It keeps the listeners of each event kind, in registration
    order. *)
Record emitter := {
  on_GET : list listener;
  on_SET : list listener;
  on_DEL : list listener
}.

(** Modelled from the spec: [new Emitter()], no listener registered. *)
Definition new_emitter : emitter :=
  {| on_GET := []; on_SET := []; on_DEL := [] |}.

(** Modelled from the spec: the listeners that [Emitter.emit] calls for an
    event kind. *)
Definition listeners_of (e : emitter) (k : kind) : list listener :=
  match k with
  | GET => on_GET e
  | SET => on_SET e
  | DEL => on_DEL e
  end.

Definition with_listeners (e : emitter) (k : kind) (ls : list listener) : emitter :=
  match k with
  | GET => {| on_GET := ls; on_SET := on_SET e; on_DEL := on_DEL e |}
  | SET => {| on_GET := on_GET e; on_SET := ls; on_DEL := on_DEL e |}
  | DEL => {| on_GET := on_GET e; on_SET := on_SET e; on_DEL := ls |}
  end.

(** Modelled from the spec: [Emitter.on(kind, listener)] of the missing
    ./Emitter; the listener is added after those already registered. *)
Definition emitter_on (k : kind) (l : listener) (e : emitter) : emitter :=
  with_listeners e k (listeners_of e k ++ [l]).

(** Modelled from the spec: [Emitter.off(kind, listener)] of the missing
    ./Emitter; the listener is no longer called for that kind. *)
Definition emitter_off (k : kind) (l : listener) (e : emitter) : emitter :=
  with_listeners e k (filter (fun l' => l' <> l) (listeners_of e k)).

(** The state one proxy session runs in: the heap of ordinary objects, the
    closure variables of the outer [createProxy] ([parentTarget],
    [childrens], [proxiedChildrenSet], [emitter]) and, for the statements,
    a record of what happened: the events emitted, the calls of
    [backend.set] and the calls of the other listeners. *)
Record session := {
  heap : gmap nat object;
  fresh : nat;
  parentTarget : ref;
  childrens : gmap ref ref;
  proxiedChildrenSet : gset ref;
  listeners : emitter;
  emitted : list event;
  backend_sets : list ref;
  notified : list (nat * event)
}.

Definition upd_heap (f : gmap nat object -> gmap nat object)
    (s : session) : session :=
  {| heap := f (heap s); fresh := fresh s; parentTarget := parentTarget s;
     childrens := childrens s; proxiedChildrenSet := proxiedChildrenSet s;
     listeners := listeners s; emitted := emitted s;
     backend_sets := backend_sets s; notified := notified s |}.

Definition upd_fresh (s : session) : session :=
  {| heap := heap s; fresh := S (fresh s); parentTarget := parentTarget s;
     childrens := childrens s; proxiedChildrenSet := proxiedChildrenSet s;
     listeners := listeners s; emitted := emitted s;
     backend_sets := backend_sets s; notified := notified s |}.

Definition upd_childrens (f : gmap ref ref -> gmap ref ref) (s : session) : session :=
  {| heap := heap s; fresh := fresh s; parentTarget := parentTarget s;
     childrens := f (childrens s); proxiedChildrenSet := proxiedChildrenSet s;
     listeners := listeners s; emitted := emitted s;
     backend_sets := backend_sets s; notified := notified s |}.

Definition upd_proxied (f : gset ref -> gset ref) (s : session) : session :=
  {| heap := heap s; fresh := fresh s; parentTarget := parentTarget s;
     childrens := childrens s; proxiedChildrenSet := f (proxiedChildrenSet s);
     listeners := listeners s; emitted := emitted s;
     backend_sets := backend_sets s; notified := notified s |}.

Definition upd_listeners (f : emitter -> emitter) (s : session) : session :=
  {| heap := heap s; fresh := fresh s; parentTarget := parentTarget s;
     childrens := childrens s; proxiedChildrenSet := proxiedChildrenSet s;
     listeners := f (listeners s); emitted := emitted s;
     backend_sets := backend_sets s; notified := notified s |}.

Definition log_event (ev : event) (s : session) : session :=
  {| heap := heap s; fresh := fresh s; parentTarget := parentTarget s;
     childrens := childrens s; proxiedChildrenSet := proxiedChildrenSet s;
     listeners := listeners s; emitted := emitted s ++ [ev];
     backend_sets := backend_sets s; notified := notified s |}.

(** Calling one listener with an event. *)
Definition call_listener (ev : event) (s : session) (l : listener) : session :=
  match l with
  | Persist p =>
      {| heap := heap s; fresh := fresh s; parentTarget := parentTarget s;
         childrens := childrens s; proxiedChildrenSet := proxiedChildrenSet s;
         listeners := listeners s; emitted := emitted s;
         backend_sets := backend_sets s ++ [p]; notified := notified s |}
  | Observer n =>
      {| heap := heap s; fresh := fresh s; parentTarget := parentTarget s;
         childrens := childrens s; proxiedChildrenSet := proxiedChildrenSet s;
         listeners := listeners s; emitted := emitted s;
         backend_sets := backend_sets s; notified := notified s ++ [(n, ev)] |}
  end.

(** Synchronous code that may throw.  [Outside] marks the places where
    the program goes on in a way that this embedding does not follow: a
    proxy or a function installed as the prototype of an object, and a
    string, an object or a function assigned to the [length] of an
    array. *)
Inductive exn := TypeError | RangeError.

Inductive outcome (A : Type) :=
| Normal (a : A)
| Throws (e : exn)
| Outside.
Arguments Normal {A} a.
Arguments Throws {A} e.
Arguments Outside {A}.

Definition js (A : Type) : Type := session -> outcome A * session.

Definition ret {A} (a : A) : js A := fun s => (Normal a, s).
Definition throw {A} (e : exn) : js A := fun s => (Throws e, s).
Definition bind {A B} (m : js A) (k : A -> js B) : js B :=
  fun s =>
    match m s with
    | (Normal a, s') => k a s'
    | (Throws e, s') => (Throws e, s')
    | (Outside, s') => (Outside, s')
    end.
Definition modify (f : session -> session) : js unit :=
  fun s => (Normal tt, f s).
Definition gets {A} (f : session -> A) : js A :=
  fun s => (Normal (f s), s).

Declare Scope js_scope.
Delimit Scope js_scope with js.
Notation "x <- m ;; k" := (bind m (fun x => k))
  (at level 100, m at next level, right associativity) : js_scope.
Notation "m ;;; k" := (bind m (fun _ => k))
  (at level 100, right associativity) : js_scope.
Local Open Scope js_scope.

(** Modelled from the spec: [Emitter.emit(kind, payload)] of the missing
    ./Emitter: the listeners of the kind are called synchronously, in
    registration order.  The event is also appended to [emitted]. *)
Definition emit (k : kind) (path : list string) (v : value) : js unit :=
  fun s =>
    let ev := {| ev_kind := k; ev_parent := parentTarget s;
                 ev_path := path; ev_value := v |} in
    (Normal tt,
     fold_left (call_listener ev) (listeners_of (listeners s) k) (log_event ev s)).

(** *** Assignment and deletion on an ordinary object

    The module is strict code: an assignment that [[Set]] refuses and a
    [delete] that [[Delete]] refuses throw a [TypeError]. *)
Inductive result :=
| Ok (h : gmap nat object)
| Err (e : exn) (h : gmap nat object)
| Out.

(** Defining the index [prop] of an array at or beyond its length moves
    the length; [None] when the length is read-only. *)
Definition grown (o : object) (prop : string) : option object :=
  match shape_of o, array_index prop with
  | ArrayOf len w, Some i =>
      if (len <=? i)%N then (if w then Some (with_length (i + 1) o) else None)
      else Some o
  | _, _ => Some o
  end.

(** [[DefineOwnProperty]] with a new value for an own data property, and
    [CreateDataProperty] for a key that the object does not have. *)
Definition store_data (h : gmap nat object) (l : nat) (o : object)
    (prop : string) (v : value) (w c : bool) : result :=
  match grown o prop with
  | Some o' => Ok (<[l := with_props (<[prop := Data v w c]>) o']> h)
  | None => Err TypeError h
  end.

Definition create_data (h : gmap nat object) (l : nat) (o : object)
    (prop : string) (v : value) : result :=
  if extensible o then store_data h l o prop v true true
  else Err TypeError h.

(** [ToUint32(v)] where it equals [ToNumber(v)], for the length of an
    array. *)
Inductive length_value :=
| LenOk (n : N)
| LenRange
| LenOut.

Definition to_length (v : value) : length_value :=
  match v with
  | VNum z =>
      if ((0 <=? z) && (z <? 4294967296))%Z then LenOk (Z.to_N z) else LenRange
  | VUndef => LenRange
  | VNull => LenOk 0
  | VBool b => LenOk (if b then 1 else 0)
  | VStr _ | VObj _ | VFun _ => LenOut
  end.

Definition index_from (n : N) (k : string) : bool :=
  match array_index k with
  | Some i => (n <=? i)%N
  | None => false
  end.

(** The highest index at or above [n] whose property cannot be deleted. *)
Definition blocker (n : N) (ps : gmap string slot) : option N :=
  map_fold (fun k sl acc =>
              match array_index k with
              | Some i =>
                  if (n <=? i)%N && negb (is_configurable sl)
                  then Some (match acc with Some j => N.max i j | None => i end)
                  else acc
              | None => acc
              end) None ps.

(** [ArraySetLength] to a shorter length: the elements are deleted from
    the end, down to the new length or to the first that cannot be
    deleted. *)
Definition truncate (n : N) (o : object) : object * bool :=
  match blocker n (props o) with
  | None =>
      (with_length n
         (with_props (filter (fun kv => index_from n (fst kv) = false)) o),
       true)
  | Some b =>
      (with_length (b + 1)
         (with_props (filter (fun kv => index_from (b + 1) (fst kv) = false)) o),
       false)
  end.

Definition set_length (h : gmap nat object) (l : nat) (o : object) (v : value)
  : result :=
  match to_length v, shape_of o with
  | LenOut, _ => Out
  | LenRange, _ => Err RangeError h
  | LenOk n, ArrayOf len _ =>
      if (len <=? n)%N then Ok (<[l := with_length n o]> h)
      else let '(o', done) := truncate n o in
           if (done : bool) then Ok (<[l := o']> h)
           else Err TypeError (<[l := o']> h)
  | LenOk _, _ => Ok h
  end.

(** The setter of [__proto__]: a primitive is ignored; [null] and an
    ordinary object become the prototype unless that is refused (the
    object is not extensible or has a fixed prototype, or the chain would
    close on itself). *)
Definition can_change_proto (o : object) : bool :=
  extensible o && match shape_of o with FixedProto => false | _ => true end.

Definition set_prototype (h : gmap nat object) (l : nat) (o : object)
    (v : value) : result :=
  match v with
  | VUndef | VBool _ | VNum _ | VStr _ => Ok h
  | VNull =>
      if decide (proto o = None) then Ok h
      else if can_change_proto o then Ok (<[l := with_proto None o]> h)
      else Err TypeError h
  | VObj (Raw p) =>
      if decide (proto o = Some p) then Ok h
      else if negb (can_change_proto o) then Err TypeError h
      else if reaches (size h) h p l then Err TypeError h
      else Ok (<[l := with_proto (Some p) o]> h)
  | VObj (Prox _ _ _) | VFun _ =>
      if can_change_proto o then Out else Err TypeError h
  end.

(** [[Set]] with the object itself as receiver: [o[prop] = v].  A
    location missing from the heap stands for an empty object without
    prototype that cannot be extended. *)
Definition ordinary_set (h : gmap nat object) (l : nat) (prop : string)
    (v : value) : result :=
  match h !! l with
  | None => Err TypeError h
  | Some o =>
      match lookup_property h l prop with
      | Some (_, ProtoAccessor _) => set_prototype h l o v
      | Some (_, Data _ false _) => Err TypeError h
      | Some (holder, Data _ true c) =>
          match own_property o prop with
          | Some _ =>
              match shape_of o with
              | ArrayOf _ _ =>
                  if String.eqb prop "length" then set_length h l o v
                  else store_data h l o prop v true c
              | _ => store_data h l o prop v true c
              end
          | None => create_data h l o prop v
          end
      | None => create_data h l o prop v
      end
  end.

(** [[Delete]]: [delete o[prop]]. *)
Definition ordinary_delete (h : gmap nat object) (l : nat) (prop : string)
  : result :=
  match h !! l ≫= fun o => own_property o prop with
  | None => Ok h
  | Some sl =>
      if is_configurable sl then Ok (alter (with_props (delete prop)) l h)
      else Err TypeError h
  end.

(** The value of an own data property. *)
Definition own_lookup (s : session) (l : nat) (prop : string) : option value :=
  match heap s !! l ≫= fun o => own_property o prop with
  | Some (Data v _ _) => Some v
  | _ => None
  end.

Definition run_result (r : result) : js bool :=
  fun s =>
    match r with
    | Ok h => (Normal true, upd_heap (fun _ => h) s)
    | Err e h => (Throws e, upd_heap (fun _ => h) s)
    | Out => (Outside, s)
    end.

Definition own_get (l : nat) (prop : string) : js value :=
  gets (fun s => ordinary_get (heap s) l prop).

Definition own_set (l : nat) (prop : string) (v : value) : js bool :=
  fun s => run_result (ordinary_set (heap s) l prop v) s.

Definition own_delete (l : nat) (prop : string) : js bool :=
  fun s => run_result (ordinary_delete (heap s) l prop) s.

(** [WeakMap] and [WeakSet] operations: only objects are keys. *)
Definition childrens_has (v : value) : js bool :=
  gets (fun s =>
          match v with
          | VObj r => bool_decide (is_Some (childrens s !! r))
          | _ => false
          end).

Definition childrens_get (v : value) : js value :=
  gets (fun s =>
          match v with
          | VObj r => from_option VObj VUndef (childrens s !! r)
          | _ => VUndef
          end).

Definition childrens_set (v : value) (p : ref) : js unit :=
  match v with
  | VObj r => modify (upd_childrens (<[r := p]>))
  | _ => throw TypeError
  end.

Definition proxied_has (v : value) : js bool :=
  gets (fun s =>
          match v with
          | VObj r => bool_decide (r ∈ proxiedChildrenSet s)
          | _ => false
          end).

Definition proxied_add (v : value) : js unit :=
  match v with
  | VObj r => modify (upd_proxied (fun X => {[r]} ∪ X))
  | _ => throw TypeError
  end.

(** The inner [createProxy(target, path)]: [new Proxy] throws on a target
    that is not an object, and makes an object of fresh identity
    otherwise. *)
Definition new_proxy (target : value) (path : list string) : js ref :=
  match target with
  | VObj r => fun s => (Normal (Prox (fresh s) r path), upd_fresh s)
  | _ => throw TypeError
  end.

(** The three traps.  [tget], [tset] and [tdelete] are [target[prop]],
    [target[prop] = v] and [delete target[prop]] on the trap's target;
    [prop] is a string key (the reserved symbol key, answered with the
    emitter before any of this runs, is not a string). *)
Definition get_trap (tget : js value) (path : list string) (prop : string)
  : js value :=
  let newPath := path ++ [prop] in
  v <- tget ;;
  if present v then
    emit GET newPath v ;;;
    if typeof_object v then
      known <- proxied_has v ;;
      if (known : bool) then ret v
      else
        cached <- childrens_has v ;;
        if (cached : bool) then childrens_get v
        else
          childrenProxy <- new_proxy v newPath ;;
          childrens_set v childrenProxy ;;;
          ret (VObj childrenProxy)
    else ret v
  else ret v.

Definition set_trap (tget : js value) (tset : value -> js bool)
    (path : list string) (prop : string) (v : value) : js bool :=
  (if typeof_object v then
     cached <- childrens_has v ;;
     if (cached : bool) then
       p <- childrens_get v ;;
       tset p
     else
       childrenProxy <- new_proxy v (path ++ [prop]) ;;
       childrens_set v childrenProxy ;;;
       proxied_add v ;;;
       tset (VObj childrenProxy)
   else tset v) ;;;
  stored <- tget ;;
  emit SET (path ++ [prop]) stored ;;;
  ret true.

Definition delete_trap (tget : js value) (tdelete : js bool)
    (path : list string) (prop : string) : js bool :=
  probe <- tget ;;
  v <- (if typeof_object probe then
          raw <- tget ;;
          childrens_get raw
        else tget) ;;
  success <- tdelete ;;
  (if (success : bool) then emit DEL (path ++ [prop]) v else ret tt) ;;;
  ret success.

(** The invariant that [[Get]] of a proxy enforces on what its trap
    returned: for an own property of the target that is neither writable
    nor configurable it must be the value of that property, or the read
    throws.  (The target of a proxy of this module is an ordinary object
    or another such proxy, which passes [[GetOwnProperty]] on.)  The
    checks of [[Set]] and [[Delete]] never fail here: the [set] trap
    returns after its assignment on the target went through, which
    leaves no read-only property under the key, and the [deleteProperty]
    trap reports success only when the property is gone. *)
Definition frozen_value (h : gmap nat object) (l : nat) (prop : string)
  : option value :=
  match h !! l ≫= fun o => own_property o prop with
  | Some (Data v false false) => Some v
  | _ => None
  end.

Definition check_get (l : nat) (prop : string) (res : value) : js value :=
  fun s =>
    match frozen_value (heap s) l prop with
    | Some v => if decide (res = v) then (Normal res, s)
                else (Throws TypeError, s)
    | None => (Normal res, s)
    end.

(** [r[prop]], [r[prop] = v] and [delete r[prop]] for any object [r]: an
    ordinary object is accessed directly, a proxy runs its trap on its
    target. *)
Fixpoint obj_get (r : ref) (prop : string) : js value :=
  match r with
  | Raw l => own_get l prop
  | Prox _ t path =>
      res <- get_trap (obj_get t prop) path prop ;;
      check_get (base t) prop res
  end.

Fixpoint obj_set (r : ref) (prop : string) (v : value) : js bool :=
  match r with
  | Raw l => own_set l prop v
  | Prox _ t path => set_trap (obj_get t prop) (obj_set t prop) path prop v
  end.

Fixpoint obj_delete (r : ref) (prop : string) : js bool :=
  match r with
  | Raw l => own_delete l prop
  | Prox _ t path => delete_trap (obj_get t prop) (obj_delete t prop) path prop
  end.

(** The outer [createProxy(target)] over a heap: a new emitter, empty
    [childrens] and [proxiedChildrenSet], and the root proxy at path []. *)
Definition createProxy (h : gmap nat object) (target : ref)
  : ref * session :=
  (Prox 0 target [],
   {| heap := h; fresh := 1; parentTarget := target;
      childrens := ∅; proxiedChildrenSet := ∅;
      listeners := new_emitter; emitted := [];
      backend_sets := []; notified := [] |}).

(** [createStorage], from the document [data] that [backend.get] gave. *)
Definition createStorage (h : gmap nat object) (data : ref)
  : ref * session :=
  let '(proxy, s) := createProxy h data in
  let handler := Persist proxy in
  (proxy,
   upd_listeners (emitter_on DEL handler)
     (upd_listeners (emitter_on SET handler) s)).

(** What a client of the session can do, as a sequence of operations. *)
Inductive op :=
| Read (r : ref) (prop : string)
| Write (r : ref) (prop : string) (v : value)
| Remove (r : ref) (prop : string)
| Subscribe (k : kind) (n : nat)
| Unsubscribe (k : kind) (n : nat).

Definition step (s : session) (o : op) : session :=
  match o with
  | Read r prop => snd (obj_get r prop s)
  | Write r prop v => snd (obj_set r prop v s)
  | Remove r prop => snd (obj_delete r prop s)
  | Subscribe k n => upd_listeners (emitter_on k (Observer n)) s
  | Unsubscribe k n => upd_listeners (emitter_off k (Observer n)) s
  end.

Definition run (ops : list op) (s : session) : session :=
  fold_left step ops s.

(** *** Notions used in the statements *)

Definition is_mutation (ev : event) : bool :=
  match ev_kind ev with
  | SET | DEL => true
  | GET => false
  end.

Definition mutations (s : session) : nat :=
  length (filter (fun ev => is_mutation ev = true) (emitted s)).

(** The proxies that the [Persist] listeners of a list write back, and the
    observers of a list. *)
Definition persist_args (ls : list listener) : list ref :=
  omap (fun l => match l with Persist p => Some p | Observer _ => None end) ls.

Definition observers (ls : list listener) : list nat :=
  omap (fun l => match l with Observer n => Some n | Persist _ => None end) ls.

Definition mk_event (s : session) (k : kind) (path : list string) (v : value)
  : event :=
  {| ev_kind := k; ev_parent := parentTarget s; ev_path := path; ev_value := v |}.

(** The session after [emit]. *)
Definition after_emit (k : kind) (path : list string) (v : value) (s : session)
  : session :=
  {| heap := heap s; fresh := fresh s; parentTarget := parentTarget s;
     childrens := childrens s; proxiedChildrenSet := proxiedChildrenSet s;
     listeners := listeners s;
     emitted := emitted s ++ [mk_event s k path v];
     backend_sets := backend_sets s
                     ++ persist_args (listeners_of (listeners s) k);
     notified := notified s
                 ++ map (fun n => (n, mk_event s k path v))
                        (observers (listeners_of (listeners s) k)) |}.

(** The session after a new child proxy was made for [r] and recorded in
    [childrens]. *)
Definition with_child (r : ref) (path : list string) (s : session) : session :=
  upd_childrens (<[r := Prox (fresh s) r path]>) (upd_fresh s).

(** An operation keeps a property of the session. *)
Definition preserves {A} (P : session -> Prop) (m : js A) : Prop :=
  forall s, P s -> P (snd (m s)).

(** [P] is kept when a child proxy is made and recorded and when
    [proxiedChildrenSet] changes; [P] does not look at the heap; [P] is
    kept by the events of a kind. *)
Definition kept_by_bookkeeping (P : session -> Prop) : Prop :=
  forall s, P s ->
    (forall r path, P (with_child r path s))
    /\ (forall f, P (upd_proxied f s)).

Definition ignores_heap (P : session -> Prop) : Prop :=
  forall s f, P s -> P (upd_heap f s).

Definition kept_by_emit (k : kind) (P : session -> Prop) : Prop :=
  forall path v, preserves P (emit k path v).

(** The invariant of a session made by [createStorage]: its handler is the
    only [Persist] listener, on [SET] and on [DEL] and not on [GET], and
    [backend.set] has been called with the root proxy once per mutating
    event. *)
Definition storage_inv (p : ref) (s : session) : Prop :=
  persist_args (on_GET (listeners s)) = []
  /\ persist_args (on_SET (listeners s)) = [p]
  /\ persist_args (on_DEL (listeners s)) = [p]
  /\ backend_sets s = repeat p (mutations s).

(** What the [get] trap returns for the value [v] of [target[prop]], in
    the session [s] that follows the [GET] event. *)
Definition exposed (v : value) (path : list string) (s : session)
  : outcome value * session :=
  match v with
  | VObj r =>
      if bool_decide (r ∈ proxiedChildrenSet s) then (Normal v, s)
      else match childrens s !! r with
           | Some p => (Normal (VObj p), s)
           | None => (Normal (VObj (Prox (fresh s) r path)), with_child r path s)
           end
  | _ => (Normal v, s)
  end.

(** What [[Get]] of a proxy makes of the result [res] of its [get] trap,
    for the key [prop] of the ordinary object [l] under the proxy. *)
Definition checked (s : session) (l : nat) (prop : string) (res : value)
  : outcome value :=
  match frozen_value (heap s) l prop with
  | Some v => if decide (res = v) then Normal res else Throws TypeError
  | None => Normal res
  end.

(** [o[prop]] for the ordinary object at [l] of the session. *)
Definition target_value (s : session) (l : nat) (prop : string) : value :=
  ordinary_get (heap s) l prop.

(** The own property of the object at [l] under [prop], if any. *)
Definition own_slot (s : session) (l : nat) (prop : string) : option slot :=
  heap s !! l ≫= fun o => own_property o prop.

(** An assignment to [prop] on the object at [l] stores an own data
    property: [prop] is an own data property that can be written, or it
    is not an own property, the object can be extended and the prototype
    chain has neither a read-only property nor an accessor under [prop];
    for an array [prop] is not [length], and when it is an index at or
    beyond the length, the length can be written. *)
Definition takes_data (h : gmap nat object) (l : nat) (prop : string) : bool :=
  match h !! l with
  | None => false
  | Some o =>
      match shape_of o with
      | ArrayOf _ _ => negb (String.eqb prop "length")
      | _ => true
      end
      && bool_decide (is_Some (grown o prop))
      && match lookup_property h l prop with
         | Some (_, ProtoAccessor _) => false
         | Some (_, Data _ w _) =>
             w && (bool_decide (is_Some (own_property o prop)) || extensible o)
         | None => extensible o
         end
  end.

(** The session after [delete o[prop]] went through on the object at
    [l]. *)
Definition after_delete (l : nat) (prop : string) (s : session) : session :=
  upd_heap (fun _ => alter (with_props (delete prop)) l (heap s)) s.

(** [s'] has the heap and the [proxiedChildrenSet] of [s], and every entry
    of its [childrens]. *)
Definition extends (s s' : session) : Prop :=
  heap s' = heap s
  /\ proxiedChildrenSet s' = proxiedChildrenSet s
  /\ childrens s ⊆ childrens s'.

(** The value a [DEL] event carries for a key that held [v]: the cached
    proxy of an object ([undefined] when there is none, and for [null]),
    the value itself otherwise. *)
Definition carried (s : session) (v : value) : value :=
  match v with
  | VObj o => from_option VObj VUndef (childrens s !! o)
  | VNull => VUndef
  | _ => v
  end.

(** [v] is a primitive other than [null], or an object for which the
    session already holds a proxy. *)
Definition resolvable (s : session) (v : value) : Prop :=
  match v with
  | VObj o => is_Some (childrens s !! o)
  | VNull => False
  | _ => True
  end.


(** The number of proxies around the ordinary object. *)
Fixpoint depth (r : ref) : nat :=
  match r with
  | Raw _ => 0
  | Prox _ t _ => S (depth t)
  end.

(** [h] is [o] under at least one proxy. *)
Fixpoint wraps (o h : ref) : bool :=
  match h with
  | Raw _ => false
  | Prox _ t _ => bool_decide (t = o) || wraps o t
  end.

(** Every entry of [childrens] maps an object to a proxy made for it. *)
Definition childrens_wf (s : session) : Prop :=
  forall r p, childrens s !! r = Some p -> exists n path, p = Prox n r path.

(** The values whose write and read back are described: every value but
    [null]; for an object, the handle is a proxy and the session keeps
    [childrens] as its operations fill it. *)
Definition storable (s : session) (r : ref) (v : value) : Prop :=
  match v with
  | VNull => False
  | VObj _ => childrens_wf s /\ is_proxy r = true
  | _ => True
  end.

(** What the read returns for a value [v] that was written: [v] itself
    when it is a primitive, a proxy over [v] when it is an object. *)
Definition read_back (v res : value) : Prop :=
  match v with
  | VObj o => exists h, res = VObj h /\ wraps o h = true /\ h <> o
  | _ => res = v
  end.

End Proxy.

(** ** The sync adapter: [wrapSync] *)

Module SyncAdapter.
Import Proxy.

(** Truthiness of a value, as the conditional in [awaitInit] tests it. *)
Definition truthy (v : value) : bool :=
  match v with
  | VUndef | VNull => false
  | VBool b => b
  | VNum n => negb (n =? 0)%Z
  | VStr s => negb (String.eqb s "")
  | VObj _ | VFun _ => true
  end.

(** The closure variables of [wrapSync]: [awaited] and [awaitQueue].  A
    callback is known by a number, and [called] records the calls in the
    order they happen.  [settled] is the state of the promise [store]: the
    function passed to [then] runs when the promise is fulfilled, and a
    promise is fulfilled at most once. *)
Record sync := {
  awaited : value;
  awaitQueue : list nat;
  called : list nat;
  settled : bool
}.

(** [wrapSync(store)], before [store] is fulfilled. *)
Definition wrapSync : sync :=
  {| awaited := VUndef; awaitQueue := []; called := []; settled := false |}.

Definition call (s : sync) (cb : nat) : sync :=
  {| awaited := awaited s; awaitQueue := awaitQueue s;
     called := called s ++ [cb]; settled := settled s |}.

(** [awaitInit], the function behind the reserved accessor key. *)
Definition awaitInit (cb : nat) (s : sync) : sync :=
  if truthy (awaited s) then call s cb
  else {| awaited := awaited s; awaitQueue := awaitQueue s ++ [cb];
          called := called s; settled := settled s |}.

(** The function passed to [store.then]: [awaitQueue.forEach] visits the
    elements of the queue in index order. *)
Definition on_fulfilled (v : value) (s : sync) : sync :=
  let s1 := {| awaited := v; awaitQueue := awaitQueue s;
               called := called s; settled := settled s |} in
  fold_left call (awaitQueue s1) s1.

(** What can happen to a wrapped store: a client registers a callback, or
    the promise is fulfilled (a second fulfilment has no effect). *)
Inductive action :=
| Register (cb : nat)
| Fulfil (v : value).

Definition act (s : sync) (a : action) : sync :=
  match a with
  | Register cb => awaitInit cb s
  | Fulfil v =>
      if settled s then s
      else on_fulfilled v {| awaited := awaited s; awaitQueue := awaitQueue s;
                             called := called s; settled := true |}
  end.

Definition play (acts : list action) (s : sync) : sync := fold_left act acts s.

Definition registered (acts : list action) : list nat :=
  omap (fun a => match a with Register cb => Some cb | Fulfil _ => None end) acts.

End SyncAdapter.

(** ** A small JSON codec

    An instance of the [JSON] interface for a fragment of the format (no
    white space, no escapes, natural numbers), used to run the backends on
    concrete files. *)

Module MiniJSON.
Import Sanitize Backend.

Definition quote (s : string) : string :=
  String dquote (s +:+ String dquote EmptyString).

Fixpoint digits (fuel n : nat) (acc : string) : string :=
  match fuel with
  | O => acc
  | S fuel' =>
      let acc' := String (ascii_of_nat (48 + n mod 10)) acc in
      if (n <? 10)%nat then acc' else digits fuel' (n / 10) acc'
  end.

Fixpoint stringify (d : json) : string :=
  match d with
  | JNull => "null"
  | JBool true => "true"
  | JBool false => "false"
  | JNum n => digits (S (Z.to_nat n)) (Z.to_nat n) ""
  | JStr s => quote s
  | JArr items => "[" +:+ String.concat "," (map stringify items) +:+ "]"
  | JObj fields =>
      "{" +:+ String.concat ","
                (map (fun kv => quote (fst kv) +:+ ":" +:+ stringify (snd kv))
                     fields)
          +:+ "}"
  end.

Definition is_digit (c : ascii) : bool :=
  (48 <=? nat_of_ascii c)%nat && (nat_of_ascii c <=? 57)%nat.

Fixpoint take_digits (s : string) (acc : nat) : nat * string :=
  match s with
  | String c s' =>
      if is_digit c then take_digits s' (10 * acc + (nat_of_ascii c - 48))
      else (acc, s)
  | EmptyString => (acc, s)
  end.

Fixpoint take_string (s : string) : option (string * string) :=
  match s with
  | String c s' =>
      if Ascii.eqb c dquote then Some (EmptyString, s')
      else if Ascii.eqb c backslash then None
      else '(body, rest) ← take_string s'; Some (String c body, rest)
  | EmptyString => None
  end.

Definition strip (p s : string) : option string :=
  if String.prefix p s then Some (String.substring (String.length p)
                                    (String.length s - String.length p) s)
  else None.

Fixpoint parse_value (fuel : nat) (s : string) : option (json * string) :=
  match fuel with
  | O => None
  | S fuel' =>
      let parse_items :=
        fix items (n : nat) (s : string) : option (list json * string) :=
          match n with
          | O => None
          | S n' =>
              '(d, rest) ← parse_value fuel' s;
              match rest with
              | String "," rest' =>
                  '(ds, rest'') ← items n' rest'; Some (d :: ds, rest'')
              | String "]" rest' => Some ([d], rest')
              | _ => None
              end
          end in
      let parse_fields :=
        fix fields (n : nat) (s : string)
          : option (list (string * json) * string) :=
          match n with
          | O => None
          | S n' =>
              match s with
              | String c s1 =>
                  if Ascii.eqb c dquote then
                    '(k, s2) ← take_string s1;
                    s3 ← strip ":" s2;
                    '(d, rest) ← parse_value fuel' s3;
                    match rest with
                    | String "," rest' =>
                        '(fs, rest'') ← fields n' rest';
                        Some ((k, d) :: fs, rest'')
                    | String "}" rest' => Some ([(k, d)], rest')
                    | _ => None
                    end
                  else None
              | EmptyString => None
              end
          end in
      match s with
      | String "n" _ => rest ← strip "null" s; Some (JNull, rest)
      | String "t" _ => rest ← strip "true" s; Some (JBool true, rest)
      | String "f" _ => rest ← strip "false" s; Some (JBool false, rest)
      | String "[" (String "]" rest) => Some (JArr [], rest)
      | String "[" rest =>
          '(ds, rest') ← parse_items fuel' rest; Some (JArr ds, rest')
      | String "{" (String "}" rest) => Some (JObj [], rest)
      | String "{" rest =>
          '(fs, rest') ← parse_fields fuel' rest; Some (JObj fs, rest')
      | String c rest =>
          if Ascii.eqb c dquote then
            '(body, rest') ← take_string rest; Some (JStr body, rest')
          else if is_digit c then
            let '(n, rest') := take_digits s 0 in Some (JNum (Z.of_nat n), rest')
          else None
      | EmptyString => None
      end
  end.

Definition parse (s : string) : option json :=
  match parse_value (S (String.length s)) s with
  | Some (d, EmptyString) => Some d
  | _ => None
  end.

Definition codec : JSON :=
  {| JSON_parse := parse; JSON_stringify := stringify |}.

(** The document [{"a":1}] and its text. *)
Definition doc_a1 : json := JObj [("a", JNum 1)].
Definition text_a1 : string := stringify doc_a1.

(** A device: Android, the documents directory under /data. *)
Definition device : native :=
  {| OS := Android; saveFileToGallery := false;
     DocumentsDirPath := "/data/files"; CacheDirPath := "/data/cache";
     locate := fun loc rel => "/data/files/" +:+ rel;
     writable := fun _ => true |}.

End MiniJSON.

(** ** Sample inputs *)

Module Examples.
Import Sanitize Backend Proxy MiniJSON.

(** A file backend for the store file of "settings", default [{}]. *)
Definition settings : backend :=
  createFileBackend (mmkvPath "settings") (JObj []) None.

(** The first five characters of the text of [doc_a1]: a truncated file. *)
Definition truncated : string := String.substring 0 5 text_a1.

Definition corrupt_world : world :=
  {| files := {[ "/data/files/vd_mmkv/settings" := truncated ]};
     mmkv := ∅; trace := [] |}.

Definition empty_world : world :=
  {| files := ∅; mmkv := ∅; trace := [] |}.

(** The store "settings" still lives in the legacy store. *)
Definition legacy_world : world :=
  {| files := ∅; mmkv := {[ "settings" := text_a1 ]}; trace := [] |}.

(** A device on which no write succeeds. *)
Definition readonly_device : native :=
  {| OS := Android; saveFileToGallery := false;
     DocumentsDirPath := "/data/files"; CacheDirPath := "/data/cache";
     locate := fun loc rel => "/data/files/" +:+ rel;
     writable := fun _ => false |}.

(** The built-in prototypes, at the locations 100 and 101 of the sample
    heaps: [Object.prototype] with two of its methods and its accessor
    [__proto__], and [Array.prototype] with one method, itself an array
    of length 0. *)
Definition method (name : string) : slot := Data (VFun name) true true.

Definition object_prototype : object :=
  {| props := {[ "constructor" := method "Object";
                 "toString" := method "toString";
                 "__proto__" := ProtoAccessor true ]};
     proto := None; extensible := true; shape_of := FixedProto |}.

Definition array_prototype : object :=
  {| props := {[ "push" := method "push" ]};
     proto := Some 100; extensible := true; shape_of := ArrayOf 0 true |}.

Definition realm : gmap nat object :=
  {[ 100 := object_prototype; 101 := array_prototype ]}.

(** What an object literal or [JSON.parse] builds from the properties
    [ps]: they can be written and deleted, the object can be extended
    and inherits from [Object.prototype]. *)
Definition plain (ps : gmap string value) : object :=
  {| props := (fun v => Data v true true) <$> ps;
     proto := Some 100; extensible := true; shape_of := Plain |}.

(** The array of the elements [ps], given by their indices, of length
    [len]. *)
Definition array (len : N) (ps : gmap string value) : object :=
  {| props := (fun v => Data v true true) <$> ps;
     proto := Some 101; extensible := true; shape_of := ArrayOf len true |}.

(** [Object.freeze] of an object. *)
Definition frozen (o : object) : object :=
  {| props := (fun sl => match sl with
                         | Data v _ _ => Data v false false
                         | ProtoAccessor _ => ProtoAccessor false
                         end) <$> props o;
     proto := proto o; extensible := false;
     shape_of := match shape_of o with
                 | ArrayOf len _ => ArrayOf len false
                 | sh => sh
                 end |}.

(** An iOS device without [saveFileToGallery]: the location "documents"
    of the native calls is the directory above the documents directory,
    so that a store file written at [Documents/file] is the one read at
    [DocumentsDirPath/file]. *)
Definition ios_device : native :=
  {| OS := IOS; saveFileToGallery := false;
     DocumentsDirPath := "/app/Documents"; CacheDirPath := "/app/Caches";
     locate := fun loc rel => "/app/" +:+ rel;
     writable := fun _ => true |}.

(** Heaps: the empty document at location 0, and a document with a nested
    object. *)
Definition empty_doc : gmap nat object := <[ 0 := plain ∅ ]> realm.

(** The empty document, and another empty object at location 1. *)
Definition two_objects : gmap nat object :=
  <[ 0 := plain ∅ ]> (<[ 1 := plain ∅ ]> realm).

(** A document whose keys [a] and [c] hold the same object. *)
Definition aliased_doc : gmap nat object :=
  <[ 0 := plain {[ "a" := VObj (Raw 1); "c" := VObj (Raw 1) ]} ]>
    (<[ 1 := plain ∅ ]> realm).

Definition nested_doc : gmap nat object :=
  <[ 0 := plain {[ "a" := VObj (Raw 1) ]} ]>
    (<[ 1 := plain {[ "x" := VNum 1 ]} ]> realm).


(** A document whose key [list] holds the array [[1, 2]]. *)
Definition list_doc : gmap nat object :=
  <[ 0 := plain {[ "list" := VObj (Raw 1) ]} ]>
    (<[ 1 := array 2 {[ "0" := VNum 1; "1" := VNum 2 ]} ]> realm).

(** A frozen document whose key [a] holds an object. *)
Definition frozen_doc : gmap nat object :=
  <[ 0 := frozen (plain {[ "a" := VObj (Raw 1); "n" := VNum 1 ]}) ]>
    (<[ 1 := plain ∅ ]> realm).

End Examples.

(** ** The rest of the storage module *)

(** *** [purgeStorage] *)

Module Purge.
Import Sanitize Backend.
Local Open Scope async_scope.

(** [RTNFileManager.removeFile(loc, rel)] as the native side is taken to
    provide it: the file at [locate loc rel] is gone afterwards. *)
Definition removeFile (N : native) (loc rel : string) : async unit :=
  fun w => (Fulfilled tt,
            {| files := delete (locate N loc rel) (files w); mmkv := mmkv w;
               trace := trace w |}).

(** The truthiness of what [getItem] gave: [null] and the empty string are
    falsy. *)
Definition truthy_item (item : option string) : bool :=
  match item with
  | Some s => negb (String.eqb s "")
  | None => false
  end.

(** [purgeStorage].  [removeFile] is optional in the native module
    ([removeFile?.]): [rm] is [None] where it is missing. *)
Definition purgeStorage (N : native)
    (rm : option (string -> string -> async unit)) (store : string)
  : async unit :=
  item <- getItem store ;;
  (if truthy_item item then removeItem store else ret tt) ;;;
  let mmkvPath := mmkvPath store in
  present <- fileExists (DocumentsDirPath N +:+ "/" +:+ mmkvPath) ;;
  if (present : bool) then
    match rm with
    | Some removeFile => removeFile "documents" mmkvPath
    | None => ret tt
    end
  else ret tt.

(** [removeFile("documents", mmkvPath)] lands on the store file. *)
Definition removal_coherent (N : native) (store : string) : Prop :=
  locate N "documents" (mmkvPath store) = legacy_path N store.

End Purge.

(** *** Notions for further statements about the backends *)

Module BackendNotions.
Import Sanitize Backend.

Definition cache_path (N : native) (store : string) : string :=
  CacheDirPath N +:+ "/mmkv/" +:+ store.

Definition data_loss_message (store : string) : string :=
  store +:+ ": Experienced data loss :(".

Definition unparseable_message (store : string) : string :=
  store +:+ " had an unparseable data while migrating".

Section WithJSON.
Context `{J : JSON}.

(** The text the migration recovers for a store, before it is checked:
    the legacy entry, the overflow file when the entry is the sentinel,
    the text of the default where there is none. *)
Definition recovered_text (N : native) (store : string) (dflt : json)
    (w : world) : string :=
  let old := default (JSON_stringify dflt) (mmkv w !! store) in
  if String.eqb old LARGE_VALUE
  then default (JSON_stringify dflt) (files w !! cache_path N store)
  else old.

(** The text the migration writes to the store file: the recovered text
    when it parses, the text of the default otherwise. *)
Definition migration_text (N : native) (store : string) (dflt : json)
    (w : world) : string :=
  match JSON_parse (recovered_text N store dflt w) with
  | Some _ => recovered_text N store dflt w
  | None => JSON_stringify dflt
  end.

(** The native calls of a migration that finds no store file, up to its
    write. *)
Definition recovery_calls (N : native) (store : string) (dflt : json)
    (w : world) : list call :=
  [CFileExists (legacy_path N store); CGetItem store]
  ++ (if String.eqb (default (JSON_stringify dflt) (mmkv w !! store)) LARGE_VALUE
      then CFileExists (cache_path N store)
           :: match files w !! cache_path N store with
              | Some _ => [CReadFile (cache_path N store)]
              | None => [CConsole (data_loss_message store)]
              end
      else [])
  ++ (match JSON_parse (recovered_text N store dflt w) with
      | Some _ => []
      | None => [CConsole (unparseable_message store)]
      end)
  ++ [CWriteFile "documents" (filePathFixer N (mmkvPath store))
                 (migration_text N store dflt w)].

(** The calls that follow a successful write. *)
Definition removal_calls (store : string) (w : world) : list call :=
  CGetItem store
  :: match mmkv w !! store with
     | Some _ => [CRemoveItem store; CConsole (migrated_message store)]
     | None => []
     end.

End WithJSON.

End BackendNotions.

(** *** Notions for further statements about the proxy *)

Module ProxyNotions.
Import Proxy.

(** Every object other than the one at [l] is in [s'] as it is in [s]. *)
Definition others_kept (l : nat) (s s' : session) : Prop :=
  forall l', l' <> l -> heap s' !! l' = heap s !! l'.

(** Every own property of every object other than [prop] of the object at
    [l] is in [s'] as it is in [s]. *)
Definition same_but (l : nat) (prop : string) (s s' : session) : Prop :=
  forall l' prop', l' <> l \/ prop' <> prop ->
    own_slot s' l' prop' = own_slot s l' prop'.

Definition is_array (s : session) (l : nat) : bool :=
  match shape_of <$> heap s !! l with
  | Some (ArrayOf _ _) => true
  | _ => false
  end.

(** The same, the [length] of the object at [l] apart where it is an
    array; and the object at [l] keeps its prototype and stays as
    extensible as it was. *)
Definition same_elsewhere (l : nat) (prop : string) (s s' : session) : Prop :=
  (forall l' prop',
      l' <> l \/ (prop' <> prop /\ (is_array s l = true -> prop' <> "length")) ->
      own_slot s' l' prop' = own_slot s l' prop')
  /\ proto <$> heap s' !! l = proto <$> heap s !! l
  /\ extensible <$> heap s' !! l = extensible <$> heap s !! l.

(** The prototypes of [h] rank below their heirs, so that no prototype
    chain closes on itself; the chains of a heap of ordinary objects are
    such, as [[SetPrototypeOf]] refuses to close one. *)
Definition ranked (rank : nat -> nat) (h : gmap nat object) : Prop :=
  forall l o p, h !! l = Some o -> proto o = Some p -> rank p < rank l.

(** The heap that an assignment or a deletion leaves. *)
Definition result_heap (h : gmap nat object) (r : result) : gmap nat object :=
  match r with
  | Ok h' | Err _ h' => h'
  | Out => h
  end.

(** What [set] stores for [v] at [path] in session [s]: the value itself
    when it is a primitive, the cached child proxy of an object, and a new
    child proxy when there is none yet. *)
Definition stored_for (s : session) (path : list string) (v : value) : value :=
  match v with
  | VObj o =>
      match childrens s !! o with
      | Some p => VObj p
      | None => VObj (Prox (fresh s) o path)
      end
  | _ => v
  end.

(** The events emitted since the session had [n] of them. *)
Definition events_since (n : nat) (s : session) : list event :=
  drop n (emitted s).

Definition is_get (ev : event) : bool :=
  match ev_kind ev with GET => true | _ => false end.

End ProxyNotions.

(** *** [useProxy] *)

Module Hook.
Import Proxy.

(** [storage?.[emitterSymbol]]: the [get] trap of every proxy of the
    session answers the reserved key with the emitter; an ordinary object,
    a primitive, [null] and [undefined] give [undefined]. *)
Definition has_emitter (storage : value) : bool :=
  match storage with
  | VObj (Prox _ _ _) => true
  | _ => false
  end.

(** The reducer of [useReducer]: bitwise not. *)
Definition reducer (n : Z) : Z := Z.lnot n.

(** The listener body: whether [forceUpdate] is called for an event. *)
Definition forces_update (storage : value) (ev : event) : bool :=
  negb (bool_decide (ev_kind ev = DEL) && bool_decide (ev_value ev = storage)).

(** The effect of [useEffect] and its cleanup, for the listener [n]. *)
Definition mount (n : nat) (s : session) : session :=
  upd_listeners (emitter_on DEL (Observer n))
    (upd_listeners (emitter_on SET (Observer n)) s).

Definition unmount (n : nat) (s : session) : session :=
  upd_listeners (emitter_off DEL (Observer n))
    (upd_listeners (emitter_off SET (Observer n)) s).

(** The events the listener [n] was called with, in order. *)
Definition calls_of (n : nat) (s : session) : list event :=
  omap (fun c => if decide (fst c = n) then Some (snd c) else None) (notified s).

(** The reducer state of the component after the calls of its listener. *)
Definition render_state (storage : value) (n : nat) (s : session) : Z :=
  fold_left (fun st ev => if forces_update storage ev then reducer st else st)
            (calls_of n s) 0%Z.

Definition render_count (storage : value) (n : nat) (s : session) : nat :=
  length (filter (fun ev => forces_update storage ev = true) (calls_of n s)).

(** How many times the listener [n] is registered for a kind, which is
    how many times [emit] calls it for one event of that kind. *)
Definition calls_per_event (n : nat) (k : kind) (s : session) : nat :=
  length (filter (fun m => m = n) (observers (listeners_of (listeners s) k))).

(** The listener [n] is registered [c k] times for every kind [k], and
    since the session had [k0] events and the listener the calls [c0], it
    was called [c k] times for each event of kind [k], in order. *)
Definition hook_inv (n : nat) (c : kind -> nat) (c0 : list event) (k0 : nat)
    (s : session) : Prop :=
  (forall k, calls_per_event n k s = c k)
  /\ k0 <= length (emitted s)
  /\ calls_of n s
     = c0 ++ flat_map (fun ev => replicate (c (ev_kind ev)) ev)
                      (drop k0 (emitted s)).

(** The registrations of a mounted component, and of none. *)
Definition mounted_counts (k : kind) : nat :=
  match k with GET => 0 | SET | DEL => 1 end.

Definition no_counts (k : kind) : nat := 0.

(** An operation of a client other than the (un)subscription of [n]. *)
Definition leaves_listener (n : nat) (o : op) : bool :=
  match o with
  | Subscribe _ m | Unsubscribe _ m => negb (Nat.eqb m n)
  | _ => true
  end.

(** The listener [n] is registered for no kind. *)
Definition unregistered (n : nat) (s : session) : Prop :=
  (n ∉ observers (on_GET (listeners s)))
  /\ (n ∉ observers (on_SET (listeners s)))
  /\ (n ∉ observers (on_DEL (listeners s))).

End Hook.

(** *** The forwarding handlers of [wrapSync], and [awaitStorage] *)

Module SyncForward.
Import Proxy SyncAdapter.

(** [awaited ?? t]: the object an operation on the wrapper is forwarded
    to.  [t] is the placeholder object of the wrapper; a store is a
    proxy of [createProxy]; [Reflect] throws a [TypeError] on a value that
    is not an object.  Where the promise gave another kind of object (an
    ordinary object, a function) the wrapper answers through its other
    handlers and their checks against the placeholder, which this
    embedding does not follow.  For a store the checks of the wrapper
    against the placeholder, its target, let every result pass as long
    as the placeholder has no property that is neither writable nor
    configurable; [wrapSync] creates it empty. *)
Definition forward_to (placeholder : ref) (awaited : value) : js ref :=
  match awaited with
  | VUndef | VNull => ret placeholder
  | VObj (Prox id t path) => ret (Prox id t path)
  | VObj (Raw _) | VFun _ => fun s => (Outside, s)
  | VBool _ | VNum _ | VStr _ => throw TypeError
  end.

(** [wrapper[prop]], [wrapper[prop] = v] and [delete wrapper[prop]], for a
    string key. *)
Definition wrapped_get (placeholder : ref) (awaited : value) (prop : string)
  : js value :=
  bind (forward_to placeholder awaited) (fun r => obj_get r prop).

Definition wrapped_set (placeholder : ref) (awaited : value) (prop : string)
    (v : value) : js bool :=
  bind (forward_to placeholder awaited) (fun r => obj_set r prop v).

Definition wrapped_delete (placeholder : ref) (awaited : value) (prop : string)
  : js bool :=
  bind (forward_to placeholder awaited) (fun r => obj_delete r prop).

(** [awaitStorage(...stores)]: each store is handed a resolver through
    its accessor; [res] is the number under which a store records the
    call of the resolver it was handed. *)
Definition awaitStorage (res : nat) (stores : list sync) : list sync :=
  map (awaitInit res) stores.

(** [Promise.all]: fulfilled when every resolver has been called. *)
Definition joined (res : nat) (stores : list sync) : bool :=
  forallb (fun s => bool_decide (res ∈ called s)) stores.

(** Something happens to the store at index [i]. *)
Inductive store_action := At (i : nat) (a : action).

Definition act_at (stores : list sync) (x : store_action) : list sync :=
  match x with
  | At i a => alter (fun s => act s a) i stores
  end.

Definition play_all (xs : list store_action) (stores : list sync) : list sync :=
  fold_left act_at xs stores.

(** What may happen to a store after [awaitStorage]: it is fulfilled with
    a storage proxy, or another callback is registered. *)
Definition later_action (res : nat) (x : store_action) : bool :=
  match x with
  | At _ (Fulfil (VObj _)) => true
  | At _ (Fulfil _) => false
  | At _ (Register cb) => negb (Nat.eqb cb res)
  end.

(** A store before [awaitStorage]: pending, or fulfilled with a truthy
    value; the resolver number is not in use. *)
Definition ready_for_await (res : nat) (s : sync) : Prop :=
  settled s = truthy (awaited s)
  /\ (res ∉ called s) /\ (res ∉ awaitQueue s).

(** How many times a callback occurs in a list of calls or in the queue. *)
Definition times (cb : nat) (l : list nat) : nat :=
  length (filter (fun x => x = cb) l).

(** A store after [awaitStorage]: fulfilled with a truthy value and its
    resolver called once, or pending with its resolver queued once and
    not called. *)
Definition awaiting (res : nat) (s : sync) : Prop :=
  settled s = truthy (awaited s)
  /\ if settled s then times res (called s) = 1
     else times res (called s) = 0 /\ times res (awaitQueue s) = 1.

End SyncForward.

(* ===================================================================== *)
(** * Part II: properties                                                 *)
(* ===================================================================== *)

(** ** The sanitiser *)

Module SanitizeFacts.
Import Sanitize.

Lemma first_match_from_0 (s : string) (pos : nat) :
  first_match s 0 pos = None <-> has_illegal s = false.
Proof.
  unfold has_illegal. revert pos.
  induction s as [| c s IH]; intros pos; simpl; [done |].
  destruct (illegal c); simpl; [split; discriminate | apply IH].
Qed.

Lemma regex_test_at_rest (s : string) :
  fst (regex_test s 0) = has_illegal s.
Proof.
  unfold regex_test.
  destruct (first_match s 0 0) eqn:E; simpl.
  - destruct (has_illegal s) eqn:H; [done |].
    apply first_match_from_0 with (pos := 0) in H. congruence.
  - symmetry. by apply (first_match_from_0 s 0).
Qed.

Lemma hyphen_legal : illegal hyphen = false.
Proof. reflexivity. Qed.

Lemma replace_illegal_legal (s : string) :
  string_forall (fun c => negb (illegal c)) (replace_illegal s) = true.
Proof.
  induction s as [| c s IH]; simpl; [done |].
  rewrite IH, andb_true_r.
  destruct (illegal c) eqn:E; [by rewrite hyphen_legal | by rewrite E].
Qed.

Lemma collapse_cons (c : ascii) (s : string) :
  collapse_hyphens (String c s)
  = if Ascii.eqb c hyphen && starts_with_hyphen s then collapse_hyphens s
    else String c (collapse_hyphens s).
Proof.
  destruct s as [| c' s']; simpl; by destruct (Ascii.eqb c hyphen).
Qed.

Lemma collapse_forall (P : ascii -> bool) (s : string) :
  string_forall P s = true -> string_forall P (collapse_hyphens s) = true.
Proof.
  induction s as [| c s IH]; [done |].
  intros [Hc Hs]%andb_true_iff. specialize (IH Hs).
  rewrite collapse_cons.
  destruct (Ascii.eqb c hyphen && starts_with_hyphen s); [exact IH |].
  cbn [string_forall]. by rewrite Hc, IH.
Qed.

Lemma collapse_starts (s : string) :
  starts_with_hyphen (collapse_hyphens s) = starts_with_hyphen s.
Proof.
  induction s as [| c s IH]; [done |].
  rewrite collapse_cons.
  destruct (Ascii.eqb c hyphen) eqn:Ec; simpl; [| by rewrite Ec].
  destruct (starts_with_hyphen s) eqn:Es; simpl; [by rewrite IH | by rewrite Ec].
Qed.

Lemma no_double_cons (c : ascii) (s : string) :
  no_double_hyphen (String c s)
  = negb (Ascii.eqb c hyphen && starts_with_hyphen s) && no_double_hyphen s.
Proof.
  destruct s as [| c' s']; simpl; [| done].
  by rewrite andb_false_r.
Qed.

Lemma collapse_no_double (s : string) :
  no_double_hyphen (collapse_hyphens s) = true.
Proof.
  induction s as [| c s IH]; [done |].
  rewrite collapse_cons.
  destruct (Ascii.eqb c hyphen && starts_with_hyphen s) eqn:E; [exact IH |].
  by rewrite no_double_cons, collapse_starts, E, IH.
Qed.

Lemma plain_hyphen : plain hyphen = false.
Proof. reflexivity. Qed.

Lemma filter_plain_replace (s : string) :
  string_filter plain (replace_illegal s) = string_filter plain s.
Proof.
  induction s as [| c s IH]; simpl; [done |].
  rewrite IH. destruct (illegal c) eqn:E; [| done].
  rewrite plain_hyphen. unfold plain. by rewrite E.
Qed.

Lemma filter_plain_collapse (s : string) :
  string_filter plain (collapse_hyphens s) = string_filter plain s.
Proof.
  induction s as [| c s IH]; [done |].
  rewrite collapse_cons.
  destruct (Ascii.eqb c hyphen) eqn:Ec; simpl.
  - apply Ascii.eqb_eq in Ec. subst c. rewrite plain_hyphen.
    destruct (starts_with_hyphen s); [exact IH |].
    cbn [string_filter]. by rewrite plain_hyphen.
  - by rewrite IH.
Qed.

Lemma getMMKVPath_at_rest (name : string) :
  getMMKVPath name 0 = (prefix +:+ segment name, 0).
Proof.
  unfold getMMKVPath, segment.
  pose proof (regex_test_at_rest name) as H.
  destruct (regex_test name 0) as [hit li] eqn:E. simpl in H. subst hit.
  destruct (has_illegal name) eqn:Hi; [done |].
  unfold regex_test in E.
  apply (first_match_from_0 name 0) in Hi. rewrite Hi in E.
  by injection E as <-.
Qed.

Lemma successive_calls_at_rest (names : list string) :
  successive_calls names 0
  = (map (fun name => prefix +:+ segment name) names, 0).
Proof.
  induction names as [| name names IH]; simpl; [done |].
  by rewrite getMMKVPath_at_rest, IH.
Qed.

(** C8. [getMMKVPath] is a function of the name alone.  With the regular
    expression at rest it returns the directory prefix followed by a
    segment and leaves the regular expression at rest; so in any sequence
    of calls, for the same name or for other names, every call returns the
    path of its name, and [n] calls for the same name return the same path
    [n] times.  In the segment no illegal character is left (each one
    became a hyphen), a name that had an illegal character has no two
    hyphens in a row, and the characters that are neither illegal nor
    hyphens are those of the name, in the same order. *)
Theorem getMMKVPath_sanitizes (name : string) :
  getMMKVPath name 0 = (prefix +:+ segment name, 0)
  /\ string_forall (fun c => negb (illegal c)) (segment name) = true
  /\ implb (has_illegal name) (no_double_hyphen (segment name)) = true
  /\ string_filter plain (segment name) = string_filter plain name
  /\ (forall names,
        successive_calls names 0
        = (map (fun name' => prefix +:+ segment name') names, 0))
  /\ forall n,
       successive_calls (repeat name n) 0
       = (repeat (prefix +:+ segment name) n, 0).
Proof.
  split; [apply getMMKVPath_at_rest |].
  assert (Hrep : forall n,
             successive_calls (repeat name n) 0
             = (repeat (prefix +:+ segment name) n, 0)).
  { intros n. rewrite successive_calls_at_rest. f_equal.
    induction n as [| n IH]; simpl; [done | by rewrite IH]. }
  unfold segment at 1 2 3.
  destruct (has_illegal name) eqn:Hi; simpl.
  - split; [apply collapse_forall, replace_illegal_legal |].
    split; [apply collapse_no_double |].
    split; [by rewrite filter_plain_collapse, filter_plain_replace |].
    split; [apply successive_calls_at_rest | exact Hrep].
  - split.
    { unfold has_illegal in Hi. by apply negb_false_iff in Hi. }
    split; [done |]. split; [done |].
    split; [apply successive_calls_at_rest | exact Hrep].
Qed.

(** Sanitising at work: illegal characters become hyphens and runs of
    hyphens shrink to one; a name without illegal characters is kept as it
    is, runs of hyphens included. *)
Example getMMKVPath_examples :
  getMMKVPath ("a:" +:+ "/b--c?") 0 = ("vd_mmkv/a-b-c-", 0)
  /\ getMMKVPath "a--b" 0 = ("vd_mmkv/a--b", 0)
  /\ successive_calls ["x*y"; "plain"; "x*y"] 0
     = (["vd_mmkv/x-y"; "vd_mmkv/plain"; "vd_mmkv/x-y"], 0).
Proof. done. Qed.

End SanitizeFacts.

(** ** The backends *)

Module BackendFacts.
Import Sanitize Backend.

Section WithJSON.
Context `{J : JSON} (N : native).

Local Abbreviation store_path := (Backend.store_path N).
Local Abbreviation probe_calls := (Backend.probe_calls N).
Local Abbreviation legacy_path := (Backend.legacy_path N).
Local Abbreviation first_open_calls := (Backend.first_open_calls N).
Local Abbreviation later_open_calls := (Backend.later_open_calls N).
Local Abbreviation failed_open_calls := (Backend.failed_open_calls N).
Local Abbreviation migrated_world := (Backend.migrated_world N).

Lemma fileExists_run (path : string) (w : world) :
  fileExists path w
  = (Fulfilled (bool_decide (is_Some (files w !! path))),
     logged (CFileExists path) w).
Proof. reflexivity. Qed.

Lemma readFile_run (path content : string) (w : world) :
  files w !! path = Some content ->
  readFile path w = (Fulfilled content, logged (CReadFile path) w).
Proof. intros H. unfold readFile, bind, record. simpl. by rewrite H. Qed.

Lemma writeFile_ok (loc rel content : string) (w : world) :
  writable N (locate N loc rel) = true ->
  writeFile N loc rel content w
  = (Fulfilled tt,
     {| files := <[locate N loc rel := content]> (files w); mmkv := mmkv w;
        trace := trace w ++ [CWriteFile loc rel content] |}).
Proof. intros H. unfold writeFile, bind, record. simpl. by rewrite H. Qed.

Lemma writeFile_fails (loc rel content : string) (w : world) :
  writable N (locate N loc rel) = false ->
  writeFile N loc rel content w
  = (Rejected (EWriteFailed (locate N loc rel)),
     logged (CWriteFile loc rel content) w).
Proof. intros H. unfold writeFile, bind, record. simpl. by rewrite H. Qed.

Lemma getItem_run (key : string) (w : world) :
  getItem key w = (Fulfilled (mmkv w !! key), logged (CGetItem key) w).
Proof. reflexivity. Qed.

(** Writing the default and reading it back gives the default. *)
Lemma write_default_run (file : string) (dflt : json) (w : world) :
  coherent N file ->
  writable N (DocumentsDirPath N +:+ "/" +:+ file) = true ->
  JSON_parse (JSON_stringify dflt) = Some dflt ->
  write_default N file dflt w
  = (Fulfilled dflt,
     {| files := <[DocumentsDirPath N +:+ "/" +:+ file := JSON_stringify dflt]>
                   (files w);
        mmkv := mmkv w;
        trace := trace w
                 ++ [CWriteFile "documents" (filePathFixer N file)
                                (JSON_stringify dflt);
                     CReadFile (DocumentsDirPath N +:+ "/" +:+ file)] |}).
Proof.
  intros Hco Hw Hrt. unfold write_default.
  unfold bind at 1. rewrite writeFile_ok by (by rewrite Hco).
  unfold bind. rewrite Hco.
  erewrite readFile_run by (simpl; apply lookup_insert_eq).
  rewrite Hrt. unfold ret, logged. simpl. by rewrite <- app_assoc.
Qed.

Lemma await_migrate_done (b : backend) (w : world) :
  migration_done b -> await_migrate b w = (Fulfilled tt, w).
Proof.
  unfold migration_done, await_migrate.
  by destruct (migrated b) as [[[] | e] |].
Qed.

(** C4. A file backend whose migration (if any) has completed, on a device
    where the store file can be written: when the file exists and its
    content does not parse, or when the file does not exist, [get] is
    fulfilled with the default (nothing is thrown); the default was written
    to the store file first and then read back. *)
Theorem get_falls_back_to_default (b : backend) (w : world) :
  coherent N (file b) ->
  writable N (store_path b) = true ->
  migration_done b ->
  JSON_parse (JSON_stringify (defaultData b)) = Some (defaultData b) ->
  (files w !! store_path b) ≫= JSON_parse = None ->
  get N b w
  = (Fulfilled (defaultData b),
     {| files := <[store_path b := JSON_stringify (defaultData b)]> (files w);
        mmkv := mmkv w;
        trace := trace w ++ probe_calls b w
                 ++ [CWriteFile "documents" (filePathFixer N (file b))
                                (JSON_stringify (defaultData b));
                     CReadFile (store_path b)] |}).
Proof.
  intros Hco Hw Hmig Hrt Hbad. unfold get, probe_calls.
  unfold bind at 1. rewrite await_migrate_done by done.
  unfold bind at 1. rewrite fileExists_run. fold (store_path b).
  destruct (files w !! store_path b) as [content |] eqn:Hf; simpl in Hbad.
  - rewrite bool_decide_eq_true_2 by eauto.
    unfold bind at 1. erewrite readFile_run by exact Hf.
    rewrite Hbad, write_default_run by done.
    unfold logged. simpl. by rewrite <- !app_assoc.
  - rewrite bool_decide_eq_false_2 by (by intros [? ?]).
    rewrite write_default_run by done.
    unfold logged. simpl. by rewrite <- !app_assoc.
Qed.

(** The ordinary path of [get]: the store file exists and parses. *)
Lemma get_existing (b : backend) (w : world) (content : string) (d : json) :
  migration_done b ->
  files w !! store_path b = Some content ->
  JSON_parse content = Some d ->
  get N b w
  = (Fulfilled d,
     {| files := files w; mmkv := mmkv w;
        trace := trace w ++ [CFileExists (store_path b);
                             CReadFile (store_path b)] |}).
Proof.
  intros Hmig Hf Hparse. unfold get.
  unfold bind at 1. rewrite await_migrate_done by done.
  unfold bind at 1. rewrite fileExists_run. fold (store_path b).
  rewrite bool_decide_eq_true_2 by eauto.
  unfold bind at 1. erewrite readFile_run by exact Hf.
  rewrite Hparse. unfold ret, logged. simpl. by rewrite <- !app_assoc.
Qed.

Lemma bind_ret {A B} (a : A) (k : A -> async B) (w : world) :
  bind (ret a) k w = k a w.
Proof. reflexivity. Qed.

Lemma removeItem_run (key : string) (w : world) :
  removeItem key w
  = (Fulfilled tt,
     {| files := files w; mmkv := delete key (mmkv w);
        trace := trace w ++ [CRemoveItem key] |}).
Proof. reflexivity. Qed.

(** C5. A store whose text is in the legacy store (it parses to [d], for
    instance the text of the document with a = 1) and that has no store
    file yet.  On a device where the store file can be written, opening the
    store gives [d], the text is now in the store file and the legacy entry
    is gone; the removal comes after the write in the sequence of native
    calls.  A second open gives [d] again from the store file, with no call
    to the legacy store.  On a device where the write fails, the open is
    rejected and the legacy entry is still there: it was not removed. *)
Theorem migration_moves_legacy_store (store legacy : string) (d dflt : json)
    (w : world) :
  coherent N (mmkvPath store) ->
  files w !! legacy_path store = None ->
  mmkv w !! store = Some legacy ->
  legacy <> LARGE_VALUE ->
  JSON_parse legacy = Some d ->
  if writable N (legacy_path store) then
    let w1 := migrated_world store legacy w in
    open_mmkv N store dflt w = (Fulfilled d, w1)
    /\ mmkv w1 !! store = None
    /\ files w1 !! legacy_path store = Some legacy
    /\ open_mmkv N store dflt w1
       = (Fulfilled d,
          {| files := files w1; mmkv := mmkv w1;
             trace := trace w1 ++ later_open_calls store |})
    /\ filter (fun c => touches_legacy c = true) (later_open_calls store) = []
  else
    open_mmkv N store dflt w
    = (Rejected (EWriteFailed (legacy_path store)),
       {| files := files w; mmkv := mmkv w;
          trace := trace w ++ failed_open_calls store legacy |})
    /\ filter (fun c => is_remove c = true) (failed_open_calls store legacy) = [].
Proof.
  intros Hco Hfile Hitem Hlarge Hparse.
  assert (Hmig : forall w0 : world,
             files w0 !! legacy_path store = None ->
             mmkv w0 !! store = Some legacy ->
             migrate N store dflt w0
             = if writable N (legacy_path store) then
                 (Fulfilled tt,
                  {| files := <[legacy_path store := legacy]> (files w0);
                     mmkv := delete store (mmkv w0);
                     trace := trace w0
                              ++ firstn 6 (first_open_calls store legacy) |})
               else
                 (Rejected (EWriteFailed (legacy_path store)),
                  {| files := files w0; mmkv := mmkv w0;
                     trace := trace w0 ++ failed_open_calls store legacy |})).
  { intros w0 Hf Hi. unfold migrate. fold (legacy_path store).
    unfold bind at 1. rewrite fileExists_run.
    rewrite bool_decide_eq_false_2 by (rewrite Hf; by intros [? ?]).
    unfold bind at 1. rewrite getItem_run. simpl mmkv. rewrite Hi. simpl default.
    apply String.eqb_neq in Hlarge. rewrite Hlarge.
    rewrite bind_ret, Hparse, bind_ret. unfold bind at 1.
    destruct (writable N (legacy_path store)) eqn:Hw.
    - rewrite writeFile_ok by (by rewrite Hco). rewrite Hco.
      unfold bind at 1. rewrite getItem_run.
      unfold logged. cbn [mmkv files trace]. rewrite Hi.
      unfold bind at 1. rewrite removeItem_run.
      unfold console, record, logged. simpl. by rewrite <- !app_assoc.
    - rewrite writeFile_fails by (by rewrite Hco). rewrite Hco.
      unfold logged. simpl. by rewrite <- !app_assoc. }
  unfold open_mmkv, createMMKVBackend.
  rewrite Hmig by done.
  destruct (writable N (legacy_path store)) eqn:Hw.
  - assert (Hget : forall w0 : world,
               files w0 !! legacy_path store = Some legacy ->
               get N (createFileBackend (mmkvPath store) dflt (Some (Fulfilled tt))) w0
               = (Fulfilled d,
                  {| files := files w0; mmkv := mmkv w0;
                     trace := trace w0 ++ [CFileExists (legacy_path store);
                                           CReadFile (legacy_path store)] |})).
    { intros w0 Hf.
      exact (get_existing
               (createFileBackend (mmkvPath store) dflt (Some (Fulfilled tt)))
               w0 legacy d I Hf Hparse). }
    cbv zeta. split.
    { rewrite Hget by (simpl; apply lookup_insert_eq).
      unfold migrated_world. simpl. by rewrite <- !app_assoc. }
    split; [simpl; apply lookup_delete_eq |].
    split; [simpl; apply lookup_insert_eq |].
    split; [| done].
    unfold migrate. fold (legacy_path store).
    unfold bind at 1. rewrite fileExists_run.
    rewrite bool_decide_eq_true_2
      by (simpl; rewrite lookup_insert_eq; eauto).
    unfold ret at 1. rewrite Hget by (simpl; apply lookup_insert_eq).
    unfold logged. simpl. by rewrite <- !app_assoc.
  - split; [| done].
    unfold get, await_migrate. simpl migrated. unfold bind, throw. done.
Qed.

End WithJSON.

Import MiniJSON Examples.

(** C4 on a device: the store file holds a truncated text, the default is
    the empty object. *)
Lemma get_falls_back_to_default_witness :
  coherent device (file settings)
  /\ writable device (store_path device settings) = true
  /\ migration_done settings
  /\ parse (stringify (defaultData settings)) = Some (defaultData settings)
  /\ (files corrupt_world !! store_path device settings) ≫= parse = None
  /\ fst (get (J := codec) device settings corrupt_world) = Fulfilled (JObj [])
  /\ files (snd (get (J := codec) device settings corrupt_world))
       !! store_path device settings = Some (stringify (JObj [])).
Proof.
  assert (H1 : coherent device (file settings)) by reflexivity.
  assert (H2 : writable device (store_path device settings) = true)
    by reflexivity.
  assert (H3 : migration_done settings) by exact I.
  assert (H4 : parse (stringify (defaultData settings))
               = Some (defaultData settings)) by reflexivity.
  assert (H5 : (files corrupt_world !! store_path device settings) ≫= parse
               = None) by (vm_compute; reflexivity).
  repeat (split; [assumption |]).
  rewrite (get_falls_back_to_default (J := codec) device settings corrupt_world
             H1 H2 H3 H4 H5).
  split; [reflexivity | apply lookup_insert_eq].
Defined.

(** C4 when the store file does not exist. *)
Example get_writes_default_when_absent :
  get (J := codec) device settings empty_world
  = (Fulfilled (JObj []),
     {| files := {[ "/data/files/vd_mmkv/settings" := "{}" ]};
        mmkv := ∅;
        trace := [CFileExists "/data/files/vd_mmkv/settings";
                  CWriteFile "documents" "vd_mmkv/settings" "{}";
                  CReadFile "/data/files/vd_mmkv/settings"] |}).
Proof. vm_compute. reflexivity. Qed.

(** C5 on a device: the legacy store holds the text of [doc_a1]. *)
Lemma migration_moves_legacy_store_witness :
  coherent device (mmkvPath "settings")
  /\ files legacy_world !! legacy_path device "settings" = None
  /\ mmkv legacy_world !! "settings" = Some text_a1
  /\ text_a1 <> LARGE_VALUE
  /\ parse text_a1 = Some doc_a1
  /\ let w1 := migrated_world device "settings" text_a1 legacy_world in
     open_mmkv (J := codec) device "settings" (JObj []) legacy_world
     = (Fulfilled doc_a1, w1)
     /\ mmkv w1 !! "settings" = None
     /\ files w1 !! legacy_path device "settings" = Some text_a1
     /\ open_mmkv (J := codec) device "settings" (JObj []) w1
        = (Fulfilled doc_a1,
           {| files := files w1; mmkv := mmkv w1;
              trace := trace w1 ++ later_open_calls device "settings" |})
     /\ filter (fun c => touches_legacy c = true)
               (later_open_calls device "settings") = [].
Proof.
  assert (H1 : coherent device (mmkvPath "settings")) by reflexivity.
  assert (H2 : files legacy_world !! legacy_path device "settings" = None)
    by (vm_compute; reflexivity).
  assert (H3 : mmkv legacy_world !! "settings" = Some text_a1)
    by (vm_compute; reflexivity).
  assert (H4 : text_a1 <> LARGE_VALUE) by (vm_compute; discriminate).
  assert (H5 : parse text_a1 = Some doc_a1) by (vm_compute; reflexivity).
  repeat (split; [assumption |]).
  exact (migration_moves_legacy_store (J := codec) device "settings" text_a1
           doc_a1 (JObj []) legacy_world H1 H2 H3 H4 H5).
Defined.

(** C5 where the write fails: the open is rejected and the legacy entry is
    still there. *)
Example failed_migration_keeps_legacy_entry :
  exists w1,
    open_mmkv (J := codec) readonly_device "settings" (JObj []) legacy_world
    = (Rejected (EWriteFailed "/data/files/vd_mmkv/settings"), w1)
    /\ mmkv w1 !! "settings" = Some text_a1
    /\ filter (fun c => is_remove c = true) (trace w1) = [].
Proof. eexists. split; [vm_compute; reflexivity |]. by vm_compute. Qed.

End BackendFacts.

(** ** The proxy and the storage session *)

Module ProxyFacts.
Import Proxy.
Local Open Scope js_scope.

(** *** What [emit] does to the session *)

Lemma notify_all (ev : event) (ls : list listener) (s : session) :
  fold_left (call_listener ev) ls s
  = {| heap := heap s; fresh := fresh s; parentTarget := parentTarget s;
       childrens := childrens s; proxiedChildrenSet := proxiedChildrenSet s;
       listeners := listeners s; emitted := emitted s;
       backend_sets := backend_sets s ++ persist_args ls;
       notified := notified s ++ map (fun n => (n, ev)) (observers ls) |}.
Proof.
  revert s. induction ls as [| l ls IH]; intros s; simpl.
  - destruct s; simpl. by rewrite !app_nil_r.
  - rewrite IH. destruct l; simpl; by rewrite <- !app_assoc.
Qed.

Lemma emit_run (k : kind) (path : list string) (v : value) (s : session) :
  emit k path v s = (Normal tt, after_emit k path v s).
Proof. unfold emit. by rewrite notify_all. Qed.

(** *** Invariants that every operation keeps *)

Lemma preserves_ret {A} (P : session -> Prop) (a : A) : preserves P (ret a).
Proof. by intros s. Qed.

Lemma preserves_throw {A} (P : session -> Prop) (e : exn) :
  preserves P (throw (A := A) e).
Proof. by intros s. Qed.

Lemma preserves_gets {A} (P : session -> Prop) (f : session -> A) :
  preserves P (gets f).
Proof. by intros s. Qed.

Lemma preserves_bind {A B} (P : session -> Prop) (m : js A) (k : A -> js B) :
  preserves P m -> (forall a, preserves P (k a)) -> preserves P (bind m k).
Proof.
  intros Hm Hk s Hs. unfold bind.
  specialize (Hm s Hs). destruct (m s) as [[a | e |] s']; simpl in *; try done.
  by apply Hk.
Qed.

Lemma preserves_if {A} (P : session -> Prop) (b : bool) (m1 m2 : js A) :
  preserves P m1 -> preserves P m2 -> preserves P (if b then m1 else m2).
Proof. by destruct b. Qed.

Lemma preserves_make_child {A} (P : session -> Prop) (v : value)
    (path : list string) (k : ref -> js A) :
  kept_by_bookkeeping P -> (forall cp, preserves P (k cp)) ->
  preserves P (bind (new_proxy v path)
                    (fun cp => bind (childrens_set v cp) (fun _ => k cp))).
Proof.
  intros HP Hk s Hs. destruct v as [| | b | n | str | r | f]; try done.
  unfold bind. simpl. apply Hk. by apply (HP s Hs).
Qed.

Lemma preserves_proxied_add (P : session -> Prop) (v : value) :
  kept_by_bookkeeping P -> preserves P (proxied_add v).
Proof.
  intros HP s Hs. destruct v; simpl; try done. by apply HP.
Qed.

Lemma preserves_check_get (P : session -> Prop) (l : nat) (prop : string)
    (res : value) :
  preserves P (check_get l prop res).
Proof.
  intros s Hs. unfold check_get.
  destruct (frozen_value (heap s) l prop); [| done]. by case_decide.
Qed.

Lemma preserves_run_result (P : session -> Prop) (f : session -> result) :
  ignores_heap P -> preserves P (fun s => run_result (f s) s).
Proof.
  intros Hh s Hs. destruct (f s); simpl; [by apply Hh | by apply Hh | done].
Qed.

Create HintDb preserves.
#[local] Hint Resolve preserves_ret preserves_throw preserves_gets
  preserves_proxied_add preserves_check_get : preserves.

Ltac preserve :=
  repeat first
    [ apply preserves_make_child; [assumption | intros ?]
    | apply preserves_bind; [| intros ?]
    | apply preserves_if
    | solve [eauto with preserves] ].

Lemma get_trap_preserves (P : session -> Prop) (tget : js value)
    (path : list string) (prop : string) :
  kept_by_bookkeeping P -> kept_by_emit GET P ->
  preserves P tget -> preserves P (get_trap tget path prop).
Proof.
  intros Hb He Ht. unfold get_trap, childrens_has, childrens_get, proxied_has.
  preserve.
Qed.

Lemma set_trap_preserves (P : session -> Prop) (tget : js value)
    (tset : value -> js bool) (path : list string) (prop : string) (v : value) :
  kept_by_bookkeeping P -> kept_by_emit SET P ->
  preserves P tget -> (forall x, preserves P (tset x)) ->
  preserves P (set_trap tget tset path prop v).
Proof.
  intros Hb He Ht Hs. unfold set_trap, childrens_has, childrens_get.
  preserve.
Qed.

Lemma delete_trap_preserves (P : session -> Prop) (tget : js value)
    (tdelete : js bool) (path : list string) (prop : string) :
  kept_by_bookkeeping P -> kept_by_emit DEL P ->
  preserves P tget -> preserves P tdelete ->
  preserves P (delete_trap tget tdelete path prop).
Proof.
  intros Hb He Ht Hd. unfold delete_trap, childrens_get.
  preserve.
Qed.

Lemma obj_get_preserves (P : session -> Prop) (r : ref) (prop : string) :
  kept_by_bookkeeping P -> kept_by_emit GET P -> preserves P (obj_get r prop).
Proof.
  intros Hb He. induction r as [l | id t IH path]; simpl.
  - apply preserves_gets.
  - apply preserves_bind; [by apply get_trap_preserves |].
    intros res. apply preserves_check_get.
Qed.

Lemma obj_set_preserves (P : session -> Prop) (r : ref) (prop : string) (v : value) :
  kept_by_bookkeeping P -> ignores_heap P ->
  kept_by_emit GET P -> kept_by_emit SET P ->
  preserves P (obj_set r prop v).
Proof.
  intros Hb Hh Hg Hs. revert v.
  induction r as [l | id t IH path]; intros v; simpl.
  - by apply (preserves_run_result P (fun s => ordinary_set (heap s) l prop v)).
  - apply set_trap_preserves; auto using obj_get_preserves.
Qed.

Lemma obj_delete_preserves (P : session -> Prop) (r : ref) (prop : string) :
  kept_by_bookkeeping P -> ignores_heap P ->
  kept_by_emit GET P -> kept_by_emit DEL P ->
  preserves P (obj_delete r prop).
Proof.
  intros Hb Hh Hg Hd.
  induction r as [l | id t IH path]; simpl.
  - by apply (preserves_run_result P (fun s => ordinary_delete (heap s) l prop)).
  - apply delete_trap_preserves; auto using obj_get_preserves.
Qed.

(** *** The storage session: one [backend.set] per mutating event *)

Lemma mutations_emit (k : kind) (path : list string) (v : value) (s : session) :
  mutations (snd (emit k path v s))
  = match k with GET => mutations s | _ => S (mutations s) end.
Proof.
  rewrite emit_run. unfold mutations. simpl.
  rewrite filter_app, length_app.
  destruct k; simpl; lia.
Qed.

Lemma storage_inv_emit (p : ref) (k : kind) : kept_by_emit k (storage_inv p).
Proof.
  intros path v s (Hg & Hs & Hd & Hb).
  unfold storage_inv. rewrite mutations_emit.
  rewrite emit_run. simpl. rewrite Hb.
  repeat split; try done.
  destruct k; simpl; rewrite ?Hg, ?Hs, ?Hd, ?app_nil_r; try done;
    by rewrite <- repeat_cons.
Qed.

Lemma storage_inv_bookkeeping (p : ref) : kept_by_bookkeeping (storage_inv p).
Proof. by intros s Hs. Qed.

Lemma storage_inv_heap (p : ref) : ignores_heap (storage_inv p).
Proof. by intros s f Hs. Qed.

Lemma persist_args_app (ls1 ls2 : list listener) :
  persist_args (ls1 ++ ls2) = persist_args ls1 ++ persist_args ls2.
Proof. apply omap_app. Qed.

Lemma persist_args_off (n : nat) (ls : list listener) :
  persist_args (filter (fun l' => l' <> Observer n) ls) = persist_args ls.
Proof.
  induction ls as [| l ls IH]; [done |].
  rewrite filter_cons. destruct (decide (l <> Observer n)) as [Hne | Heq].
  - destruct l; simpl; by rewrite IH.
  - apply dec_stable in Heq. subst l. simpl. exact IH.
Qed.

Lemma storage_inv_step (p : ref) (o : op) (s : session) :
  storage_inv p s -> storage_inv p (step s o).
Proof.
  intros Hs. destruct o as [r k | r k v | r k | k n | k n]; simpl.
  - apply obj_get_preserves;
      auto using storage_inv_bookkeeping, storage_inv_emit.
  - apply obj_set_preserves;
      auto using storage_inv_bookkeeping, storage_inv_heap, storage_inv_emit.
  - apply obj_delete_preserves;
      auto using storage_inv_bookkeeping, storage_inv_heap, storage_inv_emit.
  - destruct Hs as (Hg & Hset & Hd & Hb).
    unfold storage_inv, emitter_on.
    destruct k; simpl; rewrite ?persist_args_app, ?app_nil_r; done.
  - destruct Hs as (Hg & Hset & Hd & Hb).
    unfold storage_inv, emitter_off.
    destruct k; simpl; rewrite ?persist_args_off; done.
Qed.

Lemma storage_inv_run (p : ref) (ops : list op) (s : session) :
  storage_inv p s -> storage_inv p (run ops s).
Proof.
  revert s. induction ops as [| o ops IH]; intros s Hs; [done |].
  simpl. apply IH. by apply storage_inv_step.
Qed.

(** A read changes no [backend.set] record where [GET] has no [Persist]
    listener. *)
Lemma read_never_persists (r : ref) (prop : string) (s : session) :
  persist_args (on_GET (listeners s)) = [] ->
  backend_sets (snd (obj_get r prop s)) = backend_sets s.
Proof.
  intros Hg.
  pose (P := fun s' : session =>
               persist_args (on_GET (listeners s')) = []
               /\ backend_sets s' = backend_sets s).
  assert (HP : P (snd (obj_get r prop s))); [| by destruct HP].
  apply obj_get_preserves; [by intros s' Hs' | | done].
  intros path v s' [Hg' Hb']. rewrite emit_run. unfold P. simpl.
  by rewrite Hg', app_nil_r.
Qed.

(** C2. In a session made by [createStorage], after any sequence of reads,
    writes, deletions and (un)subscriptions of other listeners,
    [backend.set] has been called exactly once per [SET] or [DEL] event
    emitted, each time with the root proxy; no [Persist] listener is
    registered for [GET], and one more read makes no call of
    [backend.set]. *)
Theorem one_backend_set_per_mutation (h : gmap nat object)
    (data : ref) (ops : list op) :
  let s := run ops (snd (createStorage h data)) in
  length (backend_sets s) = mutations s
  /\ backend_sets s = repeat (fst (createStorage h data)) (mutations s)
  /\ persist_args (on_GET (listeners s)) = []
  /\ forall r prop, backend_sets (step s (Read r prop)) = backend_sets s.
Proof.
  intros s.
  assert (Hinv : storage_inv (fst (createStorage h data)) s).
  { apply storage_inv_run. by repeat split. }
  destruct Hinv as (Hg & Hs & Hd & Hb).
  split; [by rewrite Hb, repeat_length |].
  split; [done |]. split; [done |].
  intros r prop. by apply read_never_persists.
Qed.

(** *** Ordinary objects *)

Lemma own_found (h : gmap nat object) (l : nat) (o : object) (prop : string)
    (sl : slot) :
  h !! l = Some o -> own_property o prop = Some sl ->
  lookup_property h l prop = Some (l, sl).
Proof.
  intros Hl Ho. unfold lookup_property.
  destruct (size h); simpl; by rewrite Hl, Ho.
Qed.

Lemma own_data_read (h : gmap nat object) (l : nat) (o : object)
    (prop : string) (v : value) (w c : bool) :
  h !! l = Some o -> own_property o prop = Some (Data v w c) ->
  ordinary_get h l prop = v.
Proof.
  intros Hl Ho. unfold ordinary_get. by rewrite (own_found _ _ _ _ _ Hl Ho).
Qed.

Lemma frozen_is_read (h : gmap nat object) (l : nat) (prop : string) (v : value) :
  frozen_value h l prop = Some v -> ordinary_get h l prop = v.
Proof.
  unfold frozen_value. intros H.
  destruct (h !! l) as [o |] eqn:Hl; simpl in H; [| done].
  destruct (own_property o prop) as [[x [] [] | c] |] eqn:Ho; try done.
  injection H as <-. by eapply own_data_read.
Qed.

Lemma checked_same (s : session) (l : nat) (prop : string) :
  checked s l prop (target_value s l prop) = Normal (target_value s l prop).
Proof.
  unfold checked, target_value.
  destruct (frozen_value (heap s) l prop) as [v |] eqn:Hf; [| done].
  apply frozen_is_read in Hf. by rewrite decide_True.
Qed.

Lemma check_get_run (l : nat) (prop : string) (res : value) (s : session) :
  check_get l prop res s = (checked s l prop res, s).
Proof.
  unfold check_get, checked.
  destruct (frozen_value (heap s) l prop); [| done]. by case_decide.
Qed.

(** *** Reads *)

Lemma get_trap_run (tget : js value) (path : list string) (prop : string)
    (s s1 : session) (v : value) :
  tget s = (Normal v, s1) ->
  get_trap tget path prop s
  = if present v then exposed v (path ++ [prop]) (after_emit GET (path ++ [prop]) v s1)
    else (Normal v, s1).
Proof.
  intros Ht. unfold get_trap, bind. rewrite Ht.
  destruct (present v) eqn:Hp; [| done].
  rewrite emit_run.
  generalize (after_emit GET (path ++ [prop]) v s1). intros s2.
  destruct v as [| | b | n | str | r | f]; try done.
  unfold exposed, proxied_has, childrens_has, childrens_get, gets. simpl.
  destruct (bool_decide (r ∈ proxiedChildrenSet s2)); [done |].
  destruct (childrens s2 !! r) as [p |] eqn:Hc; simpl; [by rewrite Hc | done].
Qed.

Lemma get_trap_throws (tget : js value) (path : list string) (prop : string)
    (s s1 : session) (e : exn) :
  tget s = (Throws e, s1) -> get_trap tget path prop s = (Throws e, s1).
Proof. intros Ht. unfold get_trap, bind. by rewrite Ht. Qed.

Lemma exposed_normal (v : value) (path : list string) (s : session) :
  exists res s', exposed v path s = (Normal res, s').
Proof.
  unfold exposed. destruct v; try by eexists _, _.
  repeat case_match; by eexists _, _.
Qed.

(** The read through a proxy, from the read on its target. *)
Lemma obj_get_run (id : nat) (t : ref) (path : list string) (prop : string)
    (s s1 : session) (v : value) :
  obj_get t prop s = (Normal v, s1) ->
  obj_get (Prox id t path) prop s
  = let '(o, s2) :=
        if present v
        then exposed v (path ++ [prop]) (after_emit GET (path ++ [prop]) v s1)
        else (Normal v, s1) in
    match o with
    | Normal res => (checked s2 (base t) prop res, s2)
    | Throws e => (Throws e, s2)
    | Outside => (Outside, s2)
    end.
Proof.
  intros Ht. cbn [obj_get]. unfold bind at 1.
  rewrite (get_trap_run _ _ _ _ _ _ Ht).
  destruct (present v).
  - destruct (exposed_normal v (path ++ [prop])
                (after_emit GET (path ++ [prop]) v s1)) as (res & s2 & ->).
    apply check_get_run.
  - apply check_get_run.
Qed.

Lemma obj_get_throws (id : nat) (t : ref) (path : list string) (prop : string)
    (s s1 : session) (e : exn) :
  obj_get t prop s = (Throws e, s1) ->
  obj_get (Prox id t path) prop s = (Throws e, s1).
Proof.
  intros Ht. cbn [obj_get]. unfold bind at 1.
  by rewrite (get_trap_throws _ _ _ _ _ _ Ht).
Qed.

Lemma checked_cases (s : session) (l : nat) (prop : string) (res : value) :
  checked s l prop res = Normal res \/ checked s l prop res = Throws TypeError.
Proof.
  unfold checked. destruct (frozen_value (heap s) l prop); [| by left].
  case_decide; [by left | by right].
Qed.

(** A read returns a value or throws a [TypeError]. *)
Lemma obj_get_cases (r : ref) (prop : string) (s : session) :
  exists s',
    (exists v, obj_get r prop s = (Normal v, s'))
    \/ obj_get r prop s = (Throws TypeError, s').
Proof.
  revert s. induction r as [l | id t IH path]; intros s.
  - exists s. left. by eexists.
  - destruct (IH s) as (s1 & [[v Ht] | Ht]).
    + rewrite (obj_get_run _ _ _ _ _ _ _ Ht).
      destruct (present v).
      * destruct (exposed_normal v (path ++ [prop])
                    (after_emit GET (path ++ [prop]) v s1)) as (res & s2 & ->).
        exists s2. destruct (checked_cases s2 (base t) prop res) as [-> | ->];
          [left; by eexists | by right].
      * exists s1. destruct (checked_cases s1 (base t) prop v) as [-> | ->];
          [left; by eexists | by right].
    + exists s1. right. by apply obj_get_throws.
Qed.


Lemma checked_normal (s : session) (l : nat) (prop : string) (res v : value) :
  checked s l prop res = Normal v -> v = res.
Proof.
  unfold checked. destruct (frozen_value (heap s) l prop); [| congruence].
  case_decide; congruence.
Qed.


(** *** What a read keeps of the session *)

Lemma extends_refl (s : session) : extends s s.
Proof. by repeat split. Qed.

Lemma extends_trans (s1 s2 s3 : session) :
  extends s1 s2 -> extends s2 s3 -> extends s1 s3.
Proof.
  intros (Hh1 & Hp1 & Hc1) (Hh2 & Hp2 & Hc2).
  repeat split; [congruence | congruence | by etrans].
Qed.

Lemma extends_emit (k : kind) (path : list string) (v : value) (s : session) :
  extends s (after_emit k path v s).
Proof. by repeat split. Qed.

Lemma exposed_extends (v : value) (path : list string) (s s' : session)
    (res : value) :
  exposed v path s = (Normal res, s') -> extends s s'.
Proof.
  unfold exposed. intros H.
  destruct v as [| | b | n | str | r | f];
    try (injection H as _ <-; apply extends_refl).
  destruct (bool_decide (r ∈ proxiedChildrenSet s));
    [injection H as _ <-; apply extends_refl |].
  destruct (childrens s !! r) eqn:Hc; injection H as _ <-;
    [apply extends_refl |].
  repeat split; try done. simpl. by apply insert_subseteq.
Qed.

(** Whatever a read returns, it leaves the heap and [proxiedChildrenSet]
    as they were and [childrens] with the entries it had. *)
Lemma obj_get_extends (r : ref) (prop : string) (s : session) :
  extends s (snd (obj_get r prop s)).
Proof.
  revert s. induction r as [l | id t IH path]; intros s.
  - apply extends_refl.
  - specialize (IH s).
    destruct (obj_get_cases t prop s) as (s1 & [[v Ht] | Ht]).
    + rewrite Ht in IH. rewrite (obj_get_run _ _ _ _ _ _ _ Ht).
      destruct (present v).
      * destruct (exposed_normal v (path ++ [prop])
                    (after_emit GET (path ++ [prop]) v s1)) as (res & s2 & He).
        rewrite He. simpl. apply exposed_extends in He.
        eapply extends_trans; [exact IH |].
        eapply extends_trans; [apply extends_emit | exact He].
      * done.
    + rewrite Ht in IH. by rewrite (obj_get_throws _ _ _ _ _ _ _ Ht).
Qed.

Lemma obj_get_heap (r : ref) (prop : string) (s : session) :
  heap (snd (obj_get r prop s)) = heap s.
Proof. by destruct (obj_get_extends r prop s) as (? & _). Qed.

Lemma checked_heap (s s' : session) (l : nat) (prop : string) (res : value) :
  heap s' = heap s -> checked s' l prop res = checked s l prop res.
Proof. unfold checked. by intros ->. Qed.



(** *** Assignments that store a data property *)

Lemma grown_props (o o' : object) (prop : string) :
  grown o prop = Some o' ->
  props o' = props o /\ proto o' = proto o /\ extensible o' = extensible o
  /\ match shape_of o with
     | ArrayOf _ w => exists n, shape_of o' = ArrayOf n w
     | sh => shape_of o' = sh
     end.
Proof.
  unfold grown, with_length.
  destruct (shape_of o) as [| len w |] eqn:Hs;
    try (intros H; injection H as H; subst o'; by rewrite Hs).
  destruct (array_index prop) as [i |];
    [| intros H; injection H as H; subst o'; rewrite Hs; eauto].
  destruct (len <=? i)%N;
    [| intros H; injection H as H; subst o'; rewrite Hs; eauto].
  destruct w; [| done]. intros H; injection H as H; subst o'. simpl. eauto.
Qed.

(** Where [takes_data] holds the assignment stores the value as an own
    data property that can be written. *)
Lemma ordinary_set_takes (h : gmap nat object) (l : nat) (prop : string)
    (v : value) :
  takes_data h l prop = true ->
  exists o o' c,
    h !! l = Some o
    /\ grown o prop = Some o'
    /\ ordinary_set h l prop v
       = Ok (<[l := with_props (<[prop := Data v true c]>) o']> h)
    /\ own_property (with_props (<[prop := Data v true c]>) o') prop
       = Some (Data v true c).
Proof.
  unfold takes_data, ordinary_set.
  destruct (h !! l) as [o |] eqn:Hl; [| done].
  intros [[Hlen Hg]%andb_true_iff Hk]%andb_true_iff.
  apply bool_decide_eq_true_1 in Hg. destruct Hg as [o' Hg].
  assert (Hown : forall c,
             own_property (with_props (<[prop := Data v true c]>) o') prop
             = Some (Data v true c)).
  { intros c. destruct (grown_props _ _ _ Hg) as (Hp & _ & _ & Hs).
    unfold own_property. simpl.
    destruct (shape_of o) as [| len w |]; try (rewrite Hs; apply lookup_insert_eq).
    destruct Hs as [n ->]. apply negb_true_iff in Hlen. rewrite Hlen.
    apply lookup_insert_eq. }
  assert (Hstore : forall c,
             store_data h l o prop v true c
             = Ok (<[l := with_props (<[prop := Data v true c]>) o']> h)).
  { intros c. unfold store_data. by rewrite Hg. }
  destruct (lookup_property h l prop) as [[holder [x w c | c]] |] eqn:Hf;
    [| done |].
  - apply andb_true_iff in Hk as [-> Hk]. exists o, o', (match own_property o prop with Some _ => c | None => true end).
    split; [done |]. split; [done |].
    destruct (own_property o prop) as [sl |] eqn:Ho.
    + split; [| apply Hown].
      destruct (shape_of o) as [| len lw |]; try apply Hstore.
      apply negb_true_iff in Hlen. rewrite Hlen. apply Hstore.
    + simpl in Hk. unfold create_data. rewrite Hk. split; [apply Hstore | apply Hown].
  - exists o, o', true. unfold create_data. rewrite Hk.
    split; [done |]. split; [done |]. split; [apply Hstore | apply Hown].
Qed.

Lemma stored_is_read (h : gmap nat object) (l : nat) (o : object)
    (prop : string) (v : value) (c : bool) :
  own_property o prop = Some (Data v true c) ->
  ordinary_get (<[l := o]> h) l prop = v
  /\ frozen_value (<[l := o]> h) l prop = None.
Proof.
  intros Ho. split.
  - eapply own_data_read; [apply lookup_insert_eq | exact Ho].
  - unfold frozen_value. rewrite lookup_insert_eq. simpl. by rewrite Ho.
Qed.

(** *** Writing a primitive and reading it back *)

Lemma exposed_primitive (v : value) (path : list string) (s : session) :
  typeof_object v = false -> exposed v path s = (Normal v, s).
Proof. by destruct v. Qed.

(** A key whose value is a primitive or a function reads as that value
    through every handle. *)
Lemma obj_get_primitive (r : ref) (prop : string) (s : session) (v : value) :
  target_value s (base r) prop = v ->
  typeof_object v = false ->
  exists s', obj_get r prop s = (Normal v, s') /\ heap s' = heap s.
Proof.
  intros Hv Hprim. induction r as [l | id t IH path].
  - exists s. simpl in *. unfold own_get, gets. by rewrite <- Hv.
  - destruct (IH Hv) as (s1 & Ht & Hh).
    rewrite (obj_get_run _ _ _ _ _ _ _ Ht).
    assert (Hck : forall s2, heap s2 = heap s ->
                    checked s2 (base t) prop v = Normal v).
    { intros s2 H2. rewrite (checked_heap s s2) by done.
      rewrite <- Hv. apply checked_same. }
    destruct (present v).
    + rewrite exposed_primitive by done. eexists. split; [by rewrite Hck |].
      done.
    + exists s1. by rewrite Hck.
Qed.

Lemma own_set_run (l : nat) (prop : string) (v : value) (s : session)
    (h : gmap nat object) :
  ordinary_set (heap s) l prop v = Ok h ->
  own_set l prop v s = (Normal true, upd_heap (fun _ => h) s).
Proof. intros H. unfold own_set. by rewrite H. Qed.

Lemma obj_set_primitive (r : ref) (prop : string) (v : value) (s : session) :
  takes_data (heap s) (base r) prop = true ->
  typeof_object v = false ->
  exists s',
    obj_set r prop v s = (Normal true, s')
    /\ ordinary_set (heap s) (base r) prop v = Ok (heap s')
    /\ target_value s' (base r) prop = v.
Proof.
  intros Htk Hprim.
  destruct (ordinary_set_takes _ _ _ v Htk) as (o & o' & c & Hl & Hg & Hset & Hown).
  destruct (stored_is_read (heap s) (base r) _ _ _ _ Hown) as [Hread _].
  revert s Htk Hl Hset Hread. induction r as [l | id t IH path];
    intros s Htk Hl Hset Hread.
  - simpl in *. rewrite (own_set_run _ _ _ _ _ Hset). eexists.
    split; [done |]. split; [done |]. exact Hread.
  - destruct (IH s Htk Hl Hset Hread) as (s1 & Hs1 & Hh1 & Hv1).
    destruct (obj_get_primitive t prop s1 v Hv1 Hprim) as (s2 & Hget & Hh2).
    simpl. unfold set_trap. rewrite Hprim.
    unfold bind at 1. unfold bind at 1. rewrite Hs1.
    unfold bind at 1. rewrite Hget. unfold bind. rewrite emit_run.
    eexists. split; [done |]. simpl.
    split; [by rewrite Hh2 |].
    unfold target_value in *. simpl. by rewrite Hh2.
Qed.

(** A primitive that was written to a key that takes it is read back,
    through any handle and in any session. *)
Lemma primitive_round_trip (r : ref) (prop : string) (v : value) (s : session) :
  takes_data (heap s) (base r) prop = true ->
  typeof_object v = false ->
  exists s1 s2,
    obj_set r prop v s = (Normal true, s1)
    /\ obj_get r prop s1 = (Normal v, s2).
Proof.
  intros Htk Hprim.
  destruct (obj_set_primitive r prop v s Htk Hprim) as (s1 & Hset & _ & Hv).
  destruct (obj_get_primitive r prop s1 v Hv Hprim) as (s2 & Hget & _).
  by exists s1, s2.
Qed.

(** *** Writing an object and reading it back *)

Lemma childrens_wf_bookkeeping : kept_by_bookkeeping childrens_wf.
Proof.
  intros s Hs. split; [| done].
  intros r path r' p. simpl. rewrite lookup_insert.
  case_decide as Hr; [| apply Hs].
  intros [= <-]. subst r'. by eexists _, _.
Qed.

Lemma childrens_wf_heap : ignores_heap childrens_wf.
Proof. by intros s f Hs. Qed.

Lemma childrens_wf_emit (k : kind) : kept_by_emit k childrens_wf.
Proof. intros path v s Hs. by rewrite emit_run. Qed.

Lemma childrens_wf_createProxy (h : gmap nat object) (target : ref) :
  childrens_wf (snd (createProxy h target)).
Proof. intros r p. simpl. by rewrite lookup_empty. Qed.

(** Every session that operations reach from a well-kept one is well kept. *)
Lemma childrens_wf_run (ops : list op) (s : session) :
  childrens_wf s -> childrens_wf (run ops s).
Proof.
  revert s. induction ops as [| o ops IH]; intros s Hs; [done |].
  simpl. apply IH.
  destruct o as [r k | r k v | r k | k n | k n]; simpl; try done.
  - apply obj_get_preserves;
      auto using childrens_wf_bookkeeping, childrens_wf_emit.
  - apply obj_set_preserves;
      auto using childrens_wf_bookkeeping, childrens_wf_heap, childrens_wf_emit.
  - apply obj_delete_preserves;
      auto using childrens_wf_bookkeeping, childrens_wf_heap, childrens_wf_emit.
Qed.

Lemma wraps_direct (n : nat) (o : ref) (path : list string) :
  wraps o (Prox n o path) = true.
Proof. simpl. by rewrite bool_decide_eq_true_2. Qed.

Lemma wraps_outer (n : nat) (x h : ref) (path : list string) :
  h = x \/ wraps x h = true -> wraps x (Prox n h path) = true.
Proof.
  intros [-> | H]; simpl; [by rewrite bool_decide_eq_true_2 |].
  by rewrite H, orb_true_r.
Qed.

Lemma wraps_trans (o p x : ref) :
  wraps o p = true -> x = p \/ wraps p x = true -> wraps o x = true.
Proof.
  intros Hop [-> | Hpx]; [done |].
  induction x as [l | id t IH path]; simpl in *; [done |].
  apply orb_true_iff in Hpx as [Ht | Ht].
  - apply bool_decide_eq_true_1 in Ht. subst t. by rewrite Hop, orb_true_r.
  - by rewrite IH, orb_true_r.
Qed.

Lemma wraps_deeper (o h : ref) : wraps o h = true -> depth o < depth h.
Proof.
  induction h as [l | id t IH path]; simpl; [done |].
  intros [Ht | Ht]%orb_true_iff.
  - apply bool_decide_eq_true_1 in Ht. subst t. lia.
  - specialize (IH Ht). lia.
Qed.

Lemma wraps_differs (o h : ref) : wraps o h = true -> h <> o.
Proof. intros H%wraps_deeper ->. lia. Qed.

Lemma own_lookup_heap (s s' : session) (l : nat) (prop : string) :
  heap s' = heap s -> own_lookup s' l prop = own_lookup s l prop.
Proof. unfold own_lookup. by intros ->. Qed.

Lemma own_slot_heap (s s' : session) (l : nat) (prop : string) :
  heap s' = heap s -> own_slot s' l prop = own_slot s l prop.
Proof. unfold own_slot. by intros ->. Qed.

Lemma own_slot_read (s : session) (l : nat) (prop : string) (v : value)
    (w c : bool) :
  own_slot s l prop = Some (Data v w c) -> target_value s l prop = v.
Proof.
  unfold own_slot, target_value. intros H.
  destruct (heap s !! l) as [o |] eqn:Hl; [| done].
  by eapply own_data_read.
Qed.

Lemma own_slot_unfrozen (s : session) (l : nat) (prop : string) (v : value)
    (c : bool) :
  own_slot s l prop = Some (Data v true c) ->
  frozen_value (heap s) l prop = None.
Proof. unfold own_slot, frozen_value. by intros ->. Qed.

(** Reading a key that holds the object [x] and can be written: the read
    returns [x] or a proxy over [x]. *)
Lemma get_wraps (r : ref) (prop : string) (s : session) (x : ref) (c : bool) :
  childrens_wf s ->
  own_slot s (base r) prop = Some (Data (VObj x) true c) ->
  exists h s',
    obj_get r prop s = (Normal (VObj h), s')
    /\ (h = x \/ wraps x h = true)
    /\ heap s' = heap s
    /\ childrens_wf s'.
Proof.
  intros Hwf Hx.
  induction r as [l | id t IH path].
  - exists x, s. simpl in *. unfold own_get, gets.
    apply own_slot_read in Hx. unfold target_value in Hx. rewrite Hx. auto.
  - simpl base in Hx.
    destruct (IH Hx) as (y & s1 & Hget & Hy & Hh & Hwf1).
    assert (Hwf' : childrens_wf (snd (obj_get (Prox id t path) prop s))).
    { apply obj_get_preserves;
        auto using childrens_wf_bookkeeping, childrens_wf_emit. }
    assert (Hck : forall s2 res, heap s2 = heap s ->
                    checked s2 (base t) prop res = Normal res).
    { intros s2 res H2. unfold checked.
      by rewrite H2, (own_slot_unfrozen _ _ _ _ _ Hx). }
    rewrite (obj_get_run _ _ _ _ _ _ _ Hget) in Hwf' |- *.
    simpl present in *. cbv iota in *. unfold exposed in *.
    simpl proxiedChildrenSet in *. simpl childrens in *.
    destruct (bool_decide (y ∈ proxiedChildrenSet s1)).
    { rewrite Hck in Hwf' |- * by done.
      eexists _, _. split; [done |]. auto. }
    destruct (childrens s1 !! y) as [p |] eqn:Hc.
    + destruct (Hwf1 _ _ Hc) as (n & pth & ->).
      rewrite Hck in Hwf' |- * by done.
      eexists _, _. split; [done |]. split; [| auto].
      right. by apply wraps_outer.
    + rewrite Hck in Hwf' |- * by done.
      eexists _, _. split; [done |]. split; [| auto].
      right. by apply wraps_outer.
Qed.

(** The [set] trap on an object: the value handed to the target is the
    cached proxy of the object, or a new one that is then recorded. *)
Lemma set_trap_object (tget : js value) (tset : value -> js bool)
    (path : list string) (prop : string) (o : ref) (s : session) :
  set_trap tget tset path prop (VObj o) s
  = let rest := fun _ : bool =>
        bind tget (fun stored =>
        bind (emit SET (path ++ [prop]) stored) (fun _ => ret true)) in
    match childrens s !! o with
    | Some p => bind (tset (VObj p)) rest s
    | None =>
        bind (tset (VObj (Prox (fresh s) o (path ++ [prop])))) rest
             (upd_proxied (fun X => {[ o ]} ∪ X)
                          (with_child o (path ++ [prop]) s))
    end.
Proof.
  unfold set_trap. simpl typeof_object. cbv iota.
  unfold bind at 1. unfold bind at 1. unfold childrens_has, gets.
  destruct (childrens s !! o) as [p |] eqn:Hc; simpl.
  - unfold bind at 1. unfold childrens_get, gets. by rewrite Hc.
  - reflexivity.
Qed.

(** Writing the object [o] to a key that takes it: the key then holds [o]
    (through an ordinary object) or a proxy over [o] (through a proxy). *)
Lemma set_wraps (r : ref) (prop : string) (o : ref) (s : session) :
  childrens_wf s ->
  takes_data (heap s) (base r) prop = true ->
  exists s' x c,
    obj_set r prop (VObj o) s = (Normal true, s')
    /\ own_slot s' (base r) prop = Some (Data (VObj x) true c)
    /\ (if is_proxy r then wraps o x = true else x = o)
    /\ childrens_wf s'.
Proof.
  revert o s. induction r as [l | id t IH path]; intros o s Hwf Htk.
  - destruct (ordinary_set_takes _ _ _ (VObj o) Htk)
      as (ob & ob' & c & Hl & Hg & Hset & Hown).
    simpl in *. rewrite (own_set_run _ _ _ _ _ Hset).
    eexists _, o, c. split; [done |]. split; [| done].
    unfold own_slot. simpl. by rewrite lookup_insert_eq.
  - simpl. rewrite set_trap_object. cbv zeta.
    assert (Hgo : forall p sa,
               childrens_wf sa -> heap sa = heap s -> wraps o p = true ->
               exists s' x c,
                 bind (obj_set t prop (VObj p))
                      (fun _ => bind (obj_get t prop) (fun stored =>
                         bind (emit SET (path ++ [prop]) stored)
                              (fun _ => ret true))) sa
                 = (Normal true, s')
                 /\ own_slot s' (base t) prop = Some (Data (VObj x) true c)
                 /\ wraps o x = true
                 /\ childrens_wf s').
    { intros p sa Hsa Hha Hop.
      destruct (IH p sa Hsa) as (s1 & x & c & Hset & Hx & Hpx & Hwf1);
        [by rewrite Hha |].
      destruct (get_wraps t prop s1 x c Hwf1 Hx)
        as (h & s2 & Hget & _ & Hh & Hwf2).
      unfold bind at 1. rewrite Hset. unfold bind at 1. rewrite Hget.
      unfold bind. rewrite emit_run.
      eexists _, x, c. split; [done |].
      split; [by rewrite <- Hx; apply own_slot_heap |].
      split; [| done].
      apply (wraps_trans o p x Hop).
      destruct (is_proxy t); auto. }
    destruct (childrens s !! o) as [p |] eqn:Hc.
    + destruct (Hwf _ _ Hc) as (n & pth & ->).
      apply Hgo; [done | done | apply wraps_direct].
    + apply Hgo; [| done | apply wraps_direct].
      apply childrens_wf_bookkeeping.
      by apply (childrens_wf_bookkeeping s Hwf).
Qed.

(** C1, as the code has it.  The key is one that takes a data property:
    an own data property of the object under the handle that can be
    written, or a key that the object does not have, where it can be
    extended and inherits neither a read-only property nor an accessor
    under the key (so not [__proto__] where it is inherited from
    [Object.prototype]); for an array, not [length], and an index beyond
    the length only where the length can be written.  A value that is not
    an object ([undefined], a boolean, a number, a string, a function) is
    written at such a key through any handle of the session, at any
    depth, and a read of the key through the same handle, with nothing in
    between, returns that value.  An object is written through a proxy of
    a session in which [childrens] is as the operations of the session
    fill it; the read of the key then returns a proxy over the object,
    not the object. *)
Theorem write_then_read_back (r : ref) (prop : string) (v : value)
    (s : session) :
  storable s r v ->
  takes_data (heap s) (base r) prop = true ->
  exists s1 s2 res,
    obj_set r prop v s = (Normal true, s1)
    /\ obj_get r prop s1 = (Normal res, s2)
    /\ read_back v res.
Proof.
  intros Hv Htk.
  destruct v as [| | b | n | str | o | f]; try done;
    try (edestruct primitive_round_trip as (s1 & s2 & Hset & Hget);
         [exact Htk | | exists s1, s2; eexists; split; [exact Hset |];
            split; [exact Hget | done]]; done).
  destruct Hv as [Hwf Hr].
  destruct (set_wraps r prop o s Hwf Htk) as (s1 & x & c & Hset & Hx & Hox & Hwf1).
  destruct (get_wraps r prop s1 x c Hwf1 Hx) as (h & s2 & Hget & Hh & _).
  rewrite Hr in Hox.
  exists s1, s2, (VObj h). split; [done |]. split; [done |].
  assert (Hoh : wraps o h = true).
  { apply (wraps_trans o x h Hox). destruct Hh; auto. }
  exists h. split; [done |]. split; [done | by apply wraps_differs].
Qed.

(** The claim as the spec words it fails on objects: after an object is
    written at a key, the read of that key does not return the object that
    was written. *)
Lemma object_write_then_read_differs :
  let '(root, s) := createProxy Examples.two_objects (Raw 0) in
  ~ exists b s1 s2,
      obj_set root "b" (VObj (Raw 1)) s = (Normal b, s1)
      /\ obj_get root "b" s1 = (Normal (VObj (Raw 1)), s2).
Proof.
  simpl. intros (b & s1 & s2 & Hset & Hget).
  apply (f_equal snd) in Hset. simpl in Hset. subst s1.
  apply (f_equal fst) in Hget. vm_compute in Hget. discriminate.
Qed.

(** It fails as well on keys that do not take a data property.  A number
    written at [__proto__] of an object literal goes to the setter that
    the object inherits, which ignores it: the write reports success and
    the read returns a proxy of [Object.prototype].  A boolean written at
    the [length] of an array is read back as a number.  A write to a
    frozen object throws. *)
Example write_to_other_keys_is_not_read_back :
  let '(root, s) := createProxy Examples.empty_doc (Raw 0) in
  let '(_, sl) := createProxy Examples.list_doc (Raw 0) in
  let '(_, sf) := createProxy Examples.frozen_doc (Raw 0) in
  let list := Prox 1 (Raw 1) ["list"] in
  takes_data (heap s) 0 "__proto__" = false
  /\ fst (obj_set root "__proto__" (VNum 5) s) = Normal true
  /\ fst (obj_get root "__proto__" (snd (obj_set root "__proto__" (VNum 5) s)))
     = Normal (VObj (Prox 1 (Raw 100) ["__proto__"]))
  /\ takes_data (heap sl) 1 "length" = false
  /\ fst (obj_set list "length" (VBool true) sl) = Normal true
  /\ fst (obj_get list "length" (snd (obj_set list "length" (VBool true) sl)))
     = Normal (VNum 1)
  /\ takes_data (heap sf) 0 "n" = false
  /\ fst (obj_set root "n" (VNum 2) sf) = Throws TypeError.
Proof. vm_compute. repeat split; reflexivity. Qed.

(** *** Identity of the proxies that reads return *)

(** Once a read has returned [v], the same read returns [v] in every later
    session that kept the heap, the set and the entries of [childrens];
    it makes no new proxy there. *)
Lemma obj_get_stable (r : ref) (prop : string) (s s1 : session) (v : value) :
  obj_get r prop s = (Normal v, s1) ->
  forall s', extends s1 s' ->
  exists s'', obj_get r prop s' = (Normal v, s'')
              /\ extends s' s'' /\ childrens s'' = childrens s'
              /\ fresh s'' = fresh s'.
Proof.
  revert s s1 v. induction r as [l | id t IH path]; intros s s1 v H s' Hext.
  - simpl in *. injection H as <- <-. exists s'. split; [| by repeat split].
    unfold own_get, gets. destruct Hext as (-> & _). done.
  - destruct (obj_get_cases t prop s) as (sa & [[w Ht] | Ht]);
      [| by rewrite (obj_get_throws _ _ _ _ _ _ _ Ht) in H].
    rewrite (obj_get_run _ _ _ _ _ _ _ Ht) in H.
    destruct (present w) eqn:Hw.
    + destruct (exposed w (path ++ [prop])
                  (after_emit GET (path ++ [prop]) w sa))
        as [[res | e |] sx] eqn:He; try done.
      injection H as Hck <-.
      pose proof (checked_normal _ _ _ _ _ Hck) as ->.
      pose proof (exposed_extends _ _ _ _ _ He) as Hexp.
      assert (Hsa : extends sa s').
      { eapply extends_trans; [apply (extends_emit GET (path ++ [prop]) w) |].
        eapply extends_trans; [exact Hexp | exact Hext]. }
      destruct (IH _ _ _ Ht s' Hsa) as (sb & Hget & Hsb & Hcb & Hfb).
      rewrite (obj_get_run _ _ _ _ _ _ _ Hget), Hw.
      set (s2 := after_emit GET (path ++ [prop]) w sa) in *.
      set (s2' := after_emit GET (path ++ [prop]) w sb).
      assert (Hs2' : extends s' s2'
                     /\ childrens s2' = childrens s' /\ fresh s2' = fresh s').
      { split; [| done].
        eapply extends_trans; [exact Hsb | apply extends_emit]. }
      assert (Hck' : checked s2' (base t) prop res = Normal res).
      { rewrite <- Hck. apply checked_heap.
        destruct Hs2' as ((-> & _) & _). by destruct Hext as (-> & _). }
      destruct w as [| | b | n | str | o | f]; try done;
        try (simpl in He; injection He as <- <-; simpl; rewrite Hck';
             by exists s2').
      unfold exposed in He |- *.
      assert (Hset : proxiedChildrenSet s2' = proxiedChildrenSet s2).
      { destruct Hs2' as ((_ & -> & _) & _). destruct Hext as (_ & -> & _).
        by destruct Hexp as (_ & -> & _). }
      rewrite Hset.
      destruct (bool_decide (o ∈ proxiedChildrenSet s2));
        [injection He as <- <-; rewrite Hck'; by exists s2' |].
      assert (Hsub : childrens sx ⊆ childrens s2').
      { destruct Hs2' as (_ & -> & _). by destruct Hext as (_ & _ & ?). }
      destruct (childrens s2 !! o) as [p |] eqn:Hc; injection He as <- <-.
      * rewrite (lookup_weaken _ _ _ _ Hc Hsub). rewrite Hck'. by exists s2'.
      * erewrite (lookup_weaken _ (childrens s2')); [| | exact Hsub].
        -- rewrite Hck'. by exists s2'.
        -- simpl. apply lookup_insert_eq.
    + injection H as Hck <-.
      pose proof (checked_normal _ _ _ _ _ Hck) as ->.
      destruct (IH _ _ _ Ht s' Hext) as (sb & Hget & Hsb).
      rewrite (obj_get_run _ _ _ _ _ _ _ Hget), Hw.
      exists sb. split; [| done]. f_equal. rewrite <- Hck.
      apply checked_heap. destruct Hsb as ((-> & _) & _).
      by destruct Hext as (-> & _).
Qed.

(** Identity stability: two reads of the same key through the same handle,
    with nothing in between, return the same value (the same proxy, when
    the value is an object). *)
Lemma read_twice_same (r : ref) (prop : string) (s s1 : session) (v : value) :
  obj_get r prop s = (Normal v, s1) ->
  exists s2, obj_get r prop s1 = (Normal v, s2).
Proof.
  intros H.
  destruct (obj_get_stable _ _ _ _ _ H s1 (extends_refl s1)) as (s2 & Hget & _).
  by exists s2.
Qed.

(** C3, where the code departs from it.  After [root.b = o] the key holds
    the proxy that [set] made for [o]; [set] put [o], not that proxy, into
    [proxiedChildrenSet], so the read of [root.b] does not recognise the
    stored value as a proxy and wraps it in a second one. *)
Theorem written_object_is_wrapped_twice :
  let '(root, s) := createProxy Examples.two_objects (Raw 0) in
  let o := Raw 1 in
  exists s1 s2,
    obj_set root "b" (VObj o) s = (Normal true, s1)
    /\ own_lookup s1 0 "b" = Some (VObj (Prox 1 o ["b"]))
    /\ proxiedChildrenSet s1 = {[ o ]}
    /\ obj_get root "b" s1
       = (Normal (VObj (Prox 2 (Prox 1 o ["b"]) ["b"])), s2).
Proof.
  simpl.
  set (s := snd (createProxy Examples.two_objects (Raw 0))).
  set (root := Prox 0 (Raw 0) []).
  pose (s1 := snd (obj_set root "b" (VObj (Raw 1)) s)).
  pose (s2 := snd (obj_get root "b" s1)).
  exists s1, s2.
  split; [apply injective_projections; [vm_compute |]; reflexivity |].
  split; [vm_compute; reflexivity |].
  split; [vm_compute; reflexivity |].
  apply injective_projections; [vm_compute |]; reflexivity.
Qed.

(** Another face of the same slip: an object that was written through the
    proxy is in [proxiedChildrenSet] itself, so where the document holds it
    directly the read returns it bare, without any proxy. *)
Example written_object_read_bare :
  let '(root, s) := createProxy Examples.aliased_doc (Raw 0) in
  let s1 := snd (obj_set root "b" (VObj (Raw 1)) s) in
  fst (obj_get root "a" s1) = Normal (VObj (Raw 1)).
Proof. vm_compute. reflexivity. Qed.

(** *** Deletions *)

Lemma upd_heap_same (s : session) : upd_heap (fun _ => heap s) s = s.
Proof. by destruct s. Qed.

Lemma own_delete_run (l : nat) (prop : string) (s : session) (sl : slot) :
  own_slot s l prop = Some sl -> is_configurable sl = true ->
  own_delete l prop s = (Normal true, after_delete l prop s).
Proof.
  unfold own_slot, own_delete, ordinary_delete. intros -> Hc. by rewrite Hc.
Qed.

Lemma own_delete_absent (l : nat) (prop : string) (s : session) :
  own_slot s l prop = None -> own_delete l prop s = (Normal true, s).
Proof.
  unfold own_slot, own_delete, ordinary_delete. intros ->. simpl.
  by rewrite upd_heap_same.
Qed.

Lemma own_delete_refused (l : nat) (prop : string) (s : session) (sl : slot) :
  own_slot s l prop = Some sl -> is_configurable sl = false ->
  own_delete l prop s = (Throws TypeError, s).
Proof.
  unfold own_slot, own_delete, ordinary_delete. intros -> Hc. rewrite Hc.
  simpl. by rewrite upd_heap_same.
Qed.

Lemma raw_get (l : nat) (prop : string) (s : session) :
  obj_get (Raw l) prop s = (Normal (target_value s l prop), s).
Proof. done. Qed.

(** After the deletion the object has no own property under the key. *)
Lemma own_slot_deleted (l : nat) (prop : string) (s : session) (sl : slot) :
  own_slot s l prop = Some sl -> is_configurable sl = true ->
  own_slot (after_delete l prop s) l prop = None.
Proof.
  unfold own_slot, after_delete. simpl. intros H Hc.
  rewrite lookup_alter, decide_True by done.
  destruct (heap s !! l) as [o |]; [| done]. simpl in *.
  unfold own_property in *. simpl.
  destruct (shape_of o) as [| len w |]; try apply lookup_delete_eq.
  destruct (String.eqb prop "length"); [| apply lookup_delete_eq].
  injection H as <-. done.
Qed.

(** The [deleteProperty] trap over a target whose read has no effect: it
    reports what the delete on the target reported, and emits [DEL]
    exactly when that was a success. *)
Lemma delete_trap_run (tget : js value) (tdelete : js bool)
    (path : list string) (prop : string) (s s1 : session) (v : value) (b : bool) :
  tget s = (Normal v, s) ->
  tdelete s = (Normal b, s1) ->
  delete_trap tget tdelete path prop s
  = (Normal b,
     if b then after_emit DEL (path ++ [prop]) (carried s v) s1 else s1).
Proof.
  intros Hget Hdel. unfold delete_trap.
  unfold bind at 1. rewrite Hget.
  unfold bind at 1.
  assert (Hv : (if typeof_object v
                then bind tget (fun raw => childrens_get raw)
                else tget) s = (Normal (carried s v), s)).
  { destruct v; simpl; unfold bind; rewrite Hget; done. }
  rewrite Hv. unfold bind at 1. rewrite Hdel.
  destruct b; unfold bind; [by rewrite emit_run | done].
Qed.

(** When the delete on the target throws, the trap emits nothing. *)
Lemma delete_trap_throws (tget : js value) (tdelete : js bool)
    (path : list string) (prop : string) (s s1 : session) (v : value) (e : exn) :
  tget s = (Normal v, s) ->
  tdelete s = (Throws e, s1) ->
  delete_trap tget tdelete path prop s = (Throws e, s1).
Proof.
  intros Hget Hdel. unfold delete_trap.
  unfold bind at 1. rewrite Hget.
  unfold bind at 1.
  assert (Hv : (if typeof_object v
                then bind tget (fun raw => childrens_get raw)
                else tget) s = (Normal (carried s v), s)).
  { destruct v; simpl; unfold bind; rewrite Hget; done. }
  rewrite Hv. unfold bind at 1. by rewrite Hdel.
Qed.

(** A read through any handle returns normally where the key is not an
    own property that is neither writable nor configurable. *)
Lemma obj_get_unfrozen (r : ref) (prop : string) (s : session) :
  frozen_value (heap s) (base r) prop = None ->
  exists v s', obj_get r prop s = (Normal v, s') /\ heap s' = heap s.
Proof.
  intros Hf. induction r as [l | id t IH path].
  - by eexists _, _.
  - simpl base in Hf.
    destruct (IH Hf) as (v & s1 & Ht & Hh).
    pose proof (obj_get_heap (Prox id t path) prop s) as Hh2.
    rewrite (obj_get_run _ _ _ _ _ _ _ Ht) in Hh2 |- *.
    destruct (if present v
              then exposed v (path ++ [prop])
                     (after_emit GET (path ++ [prop]) v s1)
              else (Normal v, s1)) as [[res | e |] s2] eqn:He.
    + assert (H2 : heap s2 = heap s).
      { destruct (present v); [| by injection He as _ <-].
        apply exposed_extends in He. by destruct He as (-> & _). }
      unfold checked. rewrite H2, Hf. by eexists _, _.
    + destruct (present v); [| done].
      by destruct (exposed_normal v (path ++ [prop])
                     (after_emit GET (path ++ [prop]) v s1)) as (? & ? & ?);
        congruence.
    + destruct (present v); [| done].
      by destruct (exposed_normal v (path ++ [prop])
                     (after_emit GET (path ++ [prop]) v s1)) as (? & ? & ?);
        congruence.
Qed.

Lemma own_absent_unfrozen (s : session) (l : nat) (prop : string) :
  own_slot s l prop = None -> frozen_value (heap s) l prop = None.
Proof. unfold own_slot, frozen_value. by intros ->. Qed.

(** What a read emits is [GET] events only: it adds no mutation. *)
Lemma obj_get_mutations (r : ref) (prop : string) (s : session) :
  mutations (snd (obj_get r prop s)) = mutations s.
Proof.
  pose (P := fun t : session => mutations t = mutations s).
  assert (HP : P (snd (obj_get r prop s))); [| exact HP].
  apply obj_get_preserves; [by intros t Ht | | done].
  intros path v t Ht. unfold P. by rewrite mutations_emit.
Qed.

(** A deletion that the object under the handle refuses throws through
    every proxy around it; the heap is as before and no [SET] or [DEL]
    event is emitted. *)
Lemma obj_delete_refused (r : ref) (prop : string) (s : session) (sl : slot) :
  own_slot s (base r) prop = Some sl -> is_configurable sl = false ->
  exists s',
    obj_delete r prop s = (Throws TypeError, s')
    /\ heap s' = heap s
    /\ mutations s' = mutations s.
Proof.
  intros Ho Hc. revert s Ho. induction r as [l | id t IH path]; intros s Ho.
  - exists s. simpl in *. by rewrite (own_delete_refused _ _ _ _ Ho Hc).
  - simpl base in Ho. cbn [obj_delete]. unfold delete_trap.
    pose proof (obj_get_heap t prop s) as Hh1.
    pose proof (obj_get_mutations t prop s) as Hm1.
    unfold bind at 1.
    destruct (obj_get_cases t prop s) as (s1 & [[v Ht] | Ht]); rewrite Ht in *;
      simpl in Hh1, Hm1; [| by exists s1].
    unfold bind at 1.
    assert (Hv : exists o s2,
               (if typeof_object v
                then bind (obj_get t prop) (fun raw => childrens_get raw)
                else obj_get t prop) s1 = (o, s2)
               /\ heap s2 = heap s /\ mutations s2 = mutations s
               /\ (o = Throws TypeError \/ exists x, o = Normal x)).
    { pose proof (obj_get_heap t prop s1) as Hh2.
      pose proof (obj_get_mutations t prop s1) as Hm2.
      destruct (obj_get_cases t prop s1) as (s2 & [[x Hx] | Hx]);
        rewrite Hx in *; simpl in Hh2, Hm2.
      - destruct (typeof_object v).
        + unfold bind. rewrite Hx. eexists _, _. split; [done |].
          split; [congruence |]. split; [congruence |]. right. by eexists.
        + rewrite Hx. eexists _, _. split; [done |].
          split; [congruence |]. split; [congruence |]. right. by eexists.
      - destruct (typeof_object v).
        + unfold bind. rewrite Hx. eexists _, _. split; [done |].
          split; [congruence |]. split; [congruence |]. by left.
        + rewrite Hx. eexists _, _. split; [done |].
          split; [congruence |]. split; [congruence |]. by left. }
    destruct Hv as (o & s2 & -> & Hh2 & Hm2 & [-> | [x ->]]); [by exists s2 |].
    unfold bind at 1.
    destruct (IH s2) as (s3 & Hdel & Hh3 & Hm3);
      [by rewrite (own_slot_heap s s2) |].
    rewrite Hdel. exists s3. split; [done |]. split; congruence.
Qed.

(** C6, as the code has it.  A proxy that wraps an ordinary object
    directly, a key that is an own data property of it holding [v] and
    that can be deleted, where [v] is a primitive other than [null], a
    function, or an object that the session has already given a proxy.
    The deletion reports success and emits exactly one [DEL] event, with
    the path of the proxy extended by the key; the event carries [v]
    itself when [v] is not an object, and the cached proxy of [v] when it
    is.  Afterwards the object has no own property under the key, and
    where it inherits nothing under it a read returns [undefined] and
    emits nothing.  A key that cannot be deleted (as the [length] of an
    array, or a key of a sealed or frozen object): through whatever
    handle, the deletion throws, the heap is as before and no [DEL] is
    emitted. *)
Theorem delete_emits_previous_value (id l : nat) (path : list string)
    (prop : string) (v : value) (w : bool) (s : session) :
  own_slot s l prop = Some (Data v w true) ->
  resolvable s v ->
  let s' := after_emit DEL (path ++ [prop]) (carried s v)
                       (after_delete l prop s) in
  obj_delete (Prox id (Raw l) path) prop s = (Normal true, s')
  /\ emitted s' = emitted s ++ [mk_event s DEL (path ++ [prop]) (carried s v)]
  /\ match v with
     | VObj o => exists p, childrens s !! o = Some p /\ carried s v = VObj p
     | _ => carried s v = v
     end
  /\ own_slot s' l prop = None
  /\ (target_value s' l prop = VUndef ->
      obj_get (Prox id (Raw l) path) prop s' = (Normal VUndef, s'))
  /\ forall (r : ref) (s0 : session) (sl : slot),
       own_slot s0 (base r) prop = Some sl ->
       is_configurable sl = false ->
       exists s1,
         obj_delete r prop s0 = (Throws TypeError, s1)
         /\ heap s1 = heap s0
         /\ mutations s1 = mutations s0.
Proof.
  intros Hv Hres s'.
  assert (Hlook : own_slot s' l prop = None).
  { unfold s'. rewrite (own_slot_heap (after_delete l prop s)) by done.
    by eapply own_slot_deleted. }
  split.
  { cbn [obj_delete].
    rewrite (delete_trap_run _ _ _ _ s (after_delete l prop s) v true).
    - done.
    - by rewrite raw_get, (own_slot_read _ _ _ _ _ _ Hv).
    - by eapply own_delete_run. }
  split; [done |].
  split.
  { destruct v as [| | b | n | str | o | f]; try done.
    destruct Hres as [p Hp]. exists p. simpl. by rewrite Hp. }
  split; [done |].
  split.
  { intros Hu.
    rewrite (obj_get_run _ _ _ _ s' s' VUndef) by (by rewrite raw_get, Hu).
    simpl. unfold checked. by rewrite (own_absent_unfrozen _ _ _ Hlook). }
  intros r s0 sl Ho Hc. by eapply obj_delete_refused.
Qed.

(** The claim as the spec words it fails for a key that holds an object.
    When no read has exposed the object yet, the [DEL] event carries
    [undefined]; after a read has exposed it, the event carries the child
    proxy that the read returned.  In neither case does it carry the value
    that the key held. *)
Lemma delete_of_object_carries_proxy_or_undefined :
  let '(root, s) := createProxy Examples.nested_doc (Raw 0) in
  let held := VObj (Raw 1) in
  let s_read := snd (obj_get root "a" s) in
  own_lookup s 0 "a" = Some held
  /\ own_lookup s_read 0 "a" = Some held
  /\ map ev_value (emitted (snd (obj_delete root "a" s))) = [VUndef]
  /\ map ev_value (emitted (snd (obj_delete root "a" s_read)))
     = [held; VObj (Prox 1 (Raw 1) ["a"])]
  /\ ~ (exists s', obj_delete root "a" s = (Normal true, s')
                   /\ emitted s' = emitted s ++ [mk_event s DEL ["a"] held])
  /\ ~ (exists s', obj_delete root "a" s_read = (Normal true, s')
                   /\ emitted s' = emitted s_read
                                   ++ [mk_event s_read DEL ["a"] held]).
Proof.
  simpl. split; [vm_compute; reflexivity |].
  split; [vm_compute; reflexivity |].
  split; [vm_compute; reflexivity |].
  split; [vm_compute; reflexivity |].
  split; intros (s' & Hdel & Hev);
    apply (f_equal snd) in Hdel; simpl in Hdel; subst s';
    apply (f_equal (map ev_value)) in Hev; vm_compute in Hev; discriminate.
Qed.

(** After the deletion of an own key under which the object inherits a
    member, the read returns the inherited member and emits a [GET]. *)
Example deleted_key_reads_inherited :
  let '(root, s0) := createProxy Examples.empty_doc (Raw 0) in
  let s := snd (obj_set root "toString" (VNum 1) s0) in
  let s' := snd (obj_delete root "toString" s) in
  own_lookup s 0 "toString" = Some (VNum 1)
  /\ fst (obj_delete root "toString" s) = Normal true
  /\ own_slot s' 0 "toString" = None
  /\ fst (obj_get root "toString" s') = Normal (VFun "toString")
  /\ map ev_kind (emitted (snd (obj_get root "toString" s'))) = [SET; DEL; GET].
Proof. vm_compute. repeat split; reflexivity. Qed.

(** Deleting a key that the object under the handle does not have: the
    deletion reports success through every proxy in the chain and leaves
    the heap as it was. *)
Lemma obj_delete_own_absent (r : ref) (prop : string) (s : session) :
  own_slot s (base r) prop = None ->
  exists s', obj_delete r prop s = (Normal true, s') /\ heap s' = heap s.
Proof.
  revert s. induction r as [l | id t IH path]; intros s Ho.
  - exists s. simpl in *. by rewrite own_delete_absent.
  - simpl base in Ho. cbn [obj_delete]. unfold delete_trap.
    destruct (obj_get_unfrozen t prop s (own_absent_unfrozen _ _ _ Ho))
      as (v & s1 & Ht & Hh1).
    unfold bind at 1. rewrite Ht. unfold bind at 1.
    assert (Ho1 : own_slot s1 (base t) prop = None)
      by (by rewrite (own_slot_heap s s1)).
    destruct (obj_get_unfrozen t prop s1 (own_absent_unfrozen _ _ _ Ho1))
      as (x & s2 & Hx & Hh2).
    assert (Hv : exists y,
               (if typeof_object v
                then bind (obj_get t prop) (fun raw => childrens_get raw)
                else obj_get t prop) s1 = (Normal y, s2)).
    { destruct (typeof_object v).
      - unfold bind. rewrite Hx. unfold childrens_get, gets. by eexists.
      - rewrite Hx. by eexists. }
    destruct Hv as [y ->].
    unfold bind at 1.
    destruct (IH s2) as (s3 & Hdel & Hh3);
      [rewrite (own_slot_heap s s2); [done | congruence] |].
    rewrite Hdel. unfold bind. rewrite emit_run.
    eexists. split; [done |]. simpl. congruence.
Qed.





(** *** The theorems at sample inputs *)

Import Examples.

(** C1 for an object written through the root proxy of a session in
    which a first object was already written and read back. *)
Lemma write_then_read_back_witness :
  let root := fst (createProxy two_objects (Raw 0)) in
  let s := run [Write root "b" (VObj (Raw 1)); Read root "b"]
               (snd (createProxy two_objects (Raw 0))) in
  storable s root (VObj (Raw 1))
  /\ takes_data (heap s) (base root) "c" = true
  /\ exists s1 s2 res,
       obj_set root "c" (VObj (Raw 1)) s = (Normal true, s1)
       /\ obj_get root "c" s1 = (Normal res, s2)
       /\ read_back (VObj (Raw 1)) res.
Proof.
  intros root s.
  assert (H : storable s root (VObj (Raw 1))).
  { split; [| reflexivity].
    apply childrens_wf_run, childrens_wf_createProxy. }
  assert (H2 : takes_data (heap s) (base root) "c" = true)
    by (vm_compute; reflexivity).
  split; [exact H |]. split; [exact H2 |].
  exact (write_then_read_back root "c" (VObj (Raw 1)) s H H2).
Defined.

(** C1 for a string, at a handle two proxies deep. *)
Example string_round_trip_through_nested_handle :
  let s := snd (createProxy two_objects (Raw 0)) in
  let r := Prox 2 (Prox 1 (Raw 1) ["b"]) ["b"] in
  fst (obj_set r "mode" (VStr "on") s) = Normal true
  /\ fst (obj_get r "mode" (snd (obj_set r "mode" (VStr "on") s)))
     = Normal (VStr "on").
Proof. vm_compute. split; reflexivity. Qed.

(** C1 for an element written beyond the end of an array: the length
    follows. *)
Example element_round_trip_through_array :
  let s := snd (createProxy list_doc (Raw 0)) in
  let list := Prox 1 (Raw 1) ["list"] in
  takes_data (heap s) 1 "5" = true
  /\ fst (obj_set list "5" (VNum 7) s) = Normal true
  /\ fst (obj_get list "5" (snd (obj_set list "5" (VNum 7) s))) = Normal (VNum 7)
  /\ fst (obj_get list "length" (snd (obj_set list "5" (VNum 7) s)))
     = Normal (VNum 6).
Proof. vm_compute. repeat split; reflexivity. Qed.

(** C6 for a nested object that a read has exposed: the event carries the
    proxy that the read returned. *)
Lemma delete_emits_previous_value_witness :
  let root := fst (createProxy nested_doc (Raw 0)) in
  let s := snd (obj_get root "a" (snd (createProxy nested_doc (Raw 0)))) in
  own_slot s 0 "a" = Some (Data (VObj (Raw 1)) true true)
  /\ resolvable s (VObj (Raw 1))
  /\ fst (obj_delete root "a" s) = Normal true
  /\ emitted (snd (obj_delete root "a" s))
     = emitted s ++ [mk_event s DEL ["a"] (VObj (Prox 1 (Raw 1) ["a"]))]
  /\ fst (obj_get root "a" (snd (obj_delete root "a" s))) = Normal VUndef.
Proof.
  intros root s.
  assert (H1 : own_slot s 0 "a" = Some (Data (VObj (Raw 1)) true true))
    by (vm_compute; reflexivity).
  assert (H2 : resolvable s (VObj (Raw 1)))
    by (vm_compute; eexists; reflexivity).
  split; [assumption |]. split; [assumption |].
  destruct (delete_emits_previous_value 0 0 [] "a" (VObj (Raw 1)) true s H1 H2)
    as (Hdel & Hev & _ & _ & Hget & _).
  change root with (Prox 0 (Raw 0) []). rewrite Hdel. cbn [fst snd].
  split; [reflexivity |]. split; [exact Hev |].
  rewrite Hget; [reflexivity |]. vm_compute. reflexivity.
Defined.

(** C6 for the [length] of an array, which cannot be deleted. *)
Example delete_of_length_throws :
  let s := snd (createStorage list_doc (Raw 0)) in
  let list := Prox 1 (Raw 1) ["list"] in
  fst (obj_delete list "length" s) = Throws TypeError
  /\ emitted (snd (obj_delete list "length" s)) = []
  /\ backend_sets (snd (obj_delete list "length" s)) = [].
Proof. vm_compute. repeat split; reflexivity. Qed.


(** C2 on a short run: a write, a read, a deletion of an absent key. *)
Example three_operations_two_backend_sets :
  let '(root, s0) := createStorage empty_doc (Raw 0) in
  let s := run [Write root "n" (VNum 1); Read root "n"; Remove root "zz"] s0 in
  map ev_kind (emitted s) = [SET; GET; DEL]
  /\ backend_sets s = [root; root].
Proof. vm_compute. done. Qed.

(** Through a handle two proxies deep one assignment emits two [SET]
    events, and [backend.set] is called twice. *)
Example nested_handle_double_set :
  let '(root, s0) := createStorage two_objects (Raw 0) in
  let s1 := run [Write root "b" (VObj (Raw 1))] s0 in
  let '(h, s2) := obj_get root "b" s1 in
  match h with
  | Normal (VObj r) =>
      let s3 := run [Write r "x" (VNum 5)] s2 in
      map ev_kind (emitted s3) = [SET; GET; SET; GET; SET]
      /\ length (backend_sets s3) = 3
  | _ => False
  end.
Proof. vm_compute. done. Qed.

(** C2 where a write throws: a write to a frozen document emits nothing
    and persists nothing. *)
Example refused_write_persists_nothing :
  let '(root, s0) := createStorage frozen_doc (Raw 0) in
  let s := run [Write root "n" (VNum 2); Remove root "n"] s0 in
  emitted s = [] /\ backend_sets s = [].
Proof. vm_compute. done. Qed.
End ProxyFacts.

(** ** The sync adapter *)

Module SyncAdapterFacts.
Import Proxy SyncAdapter.

Lemma call_all (cbs : list nat) (s : sync) :
  fold_left call cbs s
  = {| awaited := awaited s; awaitQueue := awaitQueue s;
       called := called s ++ cbs; settled := settled s |}.
Proof.
  revert s. induction cbs as [| cb cbs IH]; intros s; simpl.
  - destruct s; simpl. by rewrite app_nil_r.
  - rewrite IH. simpl. by rewrite <- app_assoc.
Qed.

(** Before the store is there, registrations only grow the queue. *)
Lemma register_while_pending (cbs : list nat) (s : sync) :
  truthy (awaited s) = false ->
  play (map Register cbs) s
  = {| awaited := awaited s; awaitQueue := awaitQueue s ++ cbs;
       called := called s; settled := settled s |}.
Proof.
  revert s. induction cbs as [| cb cbs IH]; intros s Hs; simpl.
  - destruct s; simpl. by rewrite app_nil_r.
  - unfold play in IH. unfold awaitInit at 1. rewrite Hs.
    rewrite IH by done. simpl. by rewrite <- app_assoc.
Qed.

(** Once the store is there, a registration is a call, and a second
    fulfilment does nothing. *)
Lemma play_when_ready (acts : list action) (s : sync) :
  truthy (awaited s) = true -> settled s = true ->
  play acts s
  = {| awaited := awaited s; awaitQueue := awaitQueue s;
       called := called s ++ registered acts; settled := settled s |}.
Proof.
  revert s. induction acts as [| a acts IH]; intros s Ht Hs; simpl.
  - destruct s; simpl. by rewrite app_nil_r.
  - unfold play in IH. destruct a as [cb | v]; simpl.
    + unfold awaitInit. rewrite Ht. rewrite IH by done.
      simpl. by rewrite <- app_assoc.
    + rewrite Hs at 1. by rewrite IH.
Qed.

(** C9. A wrapped store on which the callbacks [pre] were registered
    while it was pending, which is then fulfilled with a storage proxy,
    and on which anything happens afterwards ([post]: more registrations,
    more attempts to fulfil).  Before the fulfilment nothing was called
    and the queue holds [pre] in order; the fulfilment calls the queued
    callbacks once each, in that order; every later registration is
    called at once, in the order of registration, and the queue never
    grows or runs again. *)
Theorem pending_queue_drained_once (pre : list nat) (r : ref)
    (post : list action) :
  let s0 := play (map Register pre) wrapSync in
  let s1 := act s0 (Fulfil (VObj r)) in
  let s2 := play post s1 in
  s2 = play (map Register pre ++ Fulfil (VObj r) :: post) wrapSync
  /\ called s0 = [] /\ awaitQueue s0 = pre
  /\ called s1 = pre /\ awaitQueue s1 = pre
  /\ called s2 = pre ++ registered post /\ awaitQueue s2 = pre
  /\ forall cb, awaitInit cb s2 = call s2 cb.
Proof.
  intros s0 s1 s2.
  assert (H0 : s0 = {| awaited := VUndef; awaitQueue := pre; called := [];
                       settled := false |}).
  { unfold s0. by rewrite register_while_pending. }
  assert (H1 : s1 = {| awaited := VObj r; awaitQueue := pre; called := pre;
                       settled := true |}).
  { unfold s1. rewrite H0. simpl. unfold on_fulfilled. simpl.
    by rewrite call_all. }
  assert (H2 : s2 = {| awaited := VObj r; awaitQueue := pre;
                       called := pre ++ registered post; settled := true |}).
  { unfold s2. rewrite H1. by rewrite play_when_ready. }
  split.
  { unfold s2, s1, s0, play. by rewrite fold_left_app. }
  rewrite H0, H1, H2. repeat split; done.
Qed.

(** The test in [awaitInit] is on the truthiness of the stored value: had
    the store been fulfilled with a falsy value, a later registration
    would be queued and never called. *)
Remark falsy_store_never_calls (cb : nat) :
  let s := play [Fulfil VNull; Register cb] wrapSync in
  called s = [] /\ awaitQueue s = [cb].
Proof. done. Qed.

End SyncAdapterFacts.

(* ===================================================================== *)
(** * Part III: further properties of the code                            *)
(* ===================================================================== *)

(** ** More on the sanitiser *)

Module SanitizeMore.
Import Sanitize SanitizeFacts.

Lemma has_illegal_app (s t : string) :
  has_illegal (s +:+ t) = has_illegal s || has_illegal t.
Proof.
  unfold has_illegal. induction s as [| c s IH]; simpl.
  - done.
  - destruct (illegal c); simpl; [done | exact IH].
Qed.

Lemma replace_illegal_app (s t : string) :
  replace_illegal (s +:+ t) = replace_illegal s +:+ replace_illegal t.
Proof. induction s as [| c s IH]; simpl; [done | by rewrite IH]. Qed.

Lemma segment_legal (name : string) : has_illegal (segment name) = false.
Proof.
  unfold has_illegal. apply negb_false_iff.
  unfold segment. destruct (has_illegal name) eqn:Hi.
  - apply collapse_forall, replace_illegal_legal.
  - unfold has_illegal in Hi. by apply negb_false_iff in Hi.
Qed.

(** X1. Sanitising is idempotent: a segment that [getMMKVPath] produced
    is a name that [getMMKVPath] leaves as it is. *)
Theorem getMMKVPath_idempotent (name : string) :
  getMMKVPath (segment name) 0 = (prefix +:+ segment name, 0)
  /\ mmkvPath (segment name) = mmkvPath name.
Proof.
  assert (H : segment (segment name) = segment name).
  { unfold segment at 1. by rewrite segment_legal. }
  unfold mmkvPath. rewrite !getMMKVPath_at_rest, H. done.
Qed.

(** X2. The sanitiser is not injective: two names that differ only in
    which illegal character stands at some position get the same path, so
    two stores share one file. *)
Theorem illegal_characters_collide (before after : string) (c1 c2 : ascii) :
  illegal c1 = true -> illegal c2 = true ->
  mmkvPath (before +:+ String c1 after) = mmkvPath (before +:+ String c2 after).
Proof.
  intros H1 H2. unfold mmkvPath. rewrite !getMMKVPath_at_rest. simpl.
  f_equal. unfold segment.
  rewrite !has_illegal_app, !replace_illegal_app.
  assert (Hc : forall c, illegal c = true -> has_illegal (String c after) = true).
  { intros c Hc. unfold has_illegal. simpl. by rewrite Hc. }
  rewrite !Hc, !orb_true_r by done. simpl. by rewrite H1, H2.
Qed.

Lemma illegal_characters_collide_witness :
  illegal ":"%char = true /\ illegal "/"%char = true
  /\ mmkvPath ("a" +:+ String ":"%char "b") = mmkvPath ("a" +:+ String "/"%char "b").
Proof.
  split; [reflexivity |]. split; [reflexivity |].
  apply illegal_characters_collide; reflexivity.
Defined.

Lemma collapse_length (s : string) :
  String.length (collapse_hyphens s) <= String.length s.
Proof.
  induction s as [| c s IH]; [done |].
  rewrite collapse_cons.
  destruct (Ascii.eqb c hyphen && starts_with_hyphen s); simpl; lia.
Qed.

Lemma replace_length (s : string) :
  String.length (replace_illegal s) = String.length s.
Proof. induction s as [| c s IH]; simpl; [done | by rewrite IH]. Qed.

Lemma append_length (s t : string) :
  String.length (s +:+ t) = String.length s + String.length t.
Proof. induction s as [| c s IH]; simpl; [done | by rewrite IH]. Qed.

(** X3. The path is never longer than the directory prefix (8 characters)
    and the name together, and it begins with the prefix. *)
Theorem mmkvPath_length (name : string) :
  String.length (mmkvPath name) <= 8 + String.length name
  /\ String.prefix prefix (mmkvPath name) = true.
Proof.
  unfold mmkvPath. rewrite getMMKVPath_at_rest. simpl fst. split.
  - rewrite append_length. change (String.length prefix) with 8.
    apply Nat.add_le_mono_l. unfold segment.
    destruct (has_illegal name); [| done].
    etrans; [apply collapse_length |]. by rewrite replace_length.
  - unfold prefix. by destruct (segment name).
Qed.

End SanitizeMore.

(** ** More on the backends *)

Module BackendMore.
Import Sanitize Backend BackendFacts Purge BackendNotions.

Section WithJSON.
Context `{J : JSON} (N : native).

Local Abbreviation store_path := (Backend.store_path N).
Local Abbreviation legacy_path := (Backend.legacy_path N).

Lemma set_run (b : backend) (data : json) (w : world) :
  coherent N (file b) -> writable N (store_path b) = true ->
  migration_done b ->
  set N b data w
  = (Fulfilled tt,
     {| files := <[store_path b := JSON_stringify data]> (files w);
        mmkv := mmkv w;
        trace := trace w ++ [CWriteFile "documents" (filePathFixer N (file b))
                                        (JSON_stringify data)] |}).
Proof.
  intros Hco Hw Hmig. unfold set, Backend.bind.
  rewrite await_migrate_done by done.
  rewrite writeFile_ok by (by rewrite Hco). by rewrite Hco.
Qed.

(** X4. What [set] stored is what [get] loads: after any number of earlier
    [set]s, a [set] of [data] followed by [get] gives [data], and the [get]
    reads the store file without writing it. *)
Theorem get_after_set (b : backend) (earlier : list json) (data : json)
    (w : world) :
  coherent N (file b) -> writable N (store_path b) = true ->
  migration_done b ->
  JSON_parse (JSON_stringify data) = Some data ->
  let w0 := fold_left (fun w d => snd (set N b d w)) earlier w in
  let w1 := snd (set N b data w0) in
  fst (set N b data w0) = Fulfilled tt
  /\ files w1 !! store_path b = Some (JSON_stringify data)
  /\ get N b w1
     = (Fulfilled data,
        {| files := files w1; mmkv := mmkv w1;
           trace := trace w1 ++ [CFileExists (store_path b);
                                 CReadFile (store_path b)] |}).
Proof.
  intros Hco Hw Hmig Hrt w0 w1. unfold w1.
  rewrite set_run by done. cbn [fst snd].
  split; [done |]. split; [simpl; apply lookup_insert_eq |].
  apply (get_existing N b _ (JSON_stringify data) data); [done | | done].
  simpl. apply lookup_insert_eq.
Qed.

(** The migration of a store that has no store file: what it recovers,
    checks and writes, and what it removes. *)
Lemma migrate_run (store : string) (dflt : json) (w : world) :
  coherent N (mmkvPath store) ->
  files w !! legacy_path store = None ->
  migrate N store dflt w
  = if writable N (legacy_path store) then
      (Fulfilled tt,
       {| files := <[legacy_path store := migration_text N store dflt w]> (files w);
          mmkv := delete store (mmkv w);
          trace := trace w ++ recovery_calls N store dflt w
                           ++ removal_calls store w |})
    else
      (Rejected (EWriteFailed (legacy_path store)),
       {| files := files w; mmkv := mmkv w;
          trace := trace w ++ recovery_calls N store dflt w |}).
Proof.
  intros Hco Hfile.
  unfold migrate, recovery_calls, migration_text, recovered_text, removal_calls.
  fold (legacy_path store). fold (cache_path N store).
  fold (data_loss_message store). fold (unparseable_message store).
  fold (migrated_message store).
  unfold Backend.bind at 1. rewrite fileExists_run.
  rewrite bool_decide_eq_false_2 by (rewrite Hfile; by intros [? ?]).
  unfold Backend.bind at 1. rewrite getItem_run.
  unfold logged. cbn [mmkv files trace].
  set (old := default (JSON_stringify dflt) (mmkv w !! store)).
  (* the overflow file *)
  unfold Backend.bind at 1.
  assert (Hrec :
    (if String.eqb old LARGE_VALUE
     then Backend.bind (fileExists (cache_path N store))
            (fun cached : bool =>
               if cached then readFile (cache_path N store)
               else Backend.bind (console (data_loss_message store))
                                 (fun _ => Backend.ret (JSON_stringify dflt)))
     else Backend.ret old)
      {| files := files w; mmkv := mmkv w;
         trace := (trace w ++ [CFileExists (legacy_path store)])
                  ++ [CGetItem store] |}
    = (Fulfilled (if String.eqb old LARGE_VALUE
                  then default (JSON_stringify dflt)
                               (files w !! cache_path N store)
                  else old),
       {| files := files w; mmkv := mmkv w;
          trace := trace w ++ [CFileExists (legacy_path store); CGetItem store]
                   ++ (if String.eqb old LARGE_VALUE
                       then CFileExists (cache_path N store)
                            :: match files w !! cache_path N store with
                               | Some _ => [CReadFile (cache_path N store)]
                               | None => [CConsole (data_loss_message store)]
                               end
                       else []) |})).
  { destruct (String.eqb old LARGE_VALUE).
    - unfold Backend.bind at 1. rewrite fileExists_run.
      unfold logged. cbn [mmkv files trace].
      destruct (files w !! cache_path N store) as [c |] eqn:Hc.
      + rewrite bool_decide_eq_true_2 by eauto.
        erewrite readFile_run by exact Hc.
        unfold logged. simpl. by rewrite <- !app_assoc.
      + rewrite bool_decide_eq_false_2 by (by intros [? ?]).
        unfold Backend.bind, console, record, Backend.ret. simpl.
        by rewrite <- !app_assoc.
    - unfold Backend.ret. by rewrite app_nil_r, <- !app_assoc. }
  rewrite Hrec. clear Hrec.
  set (rec := if String.eqb old LARGE_VALUE
              then default (JSON_stringify dflt) (files w !! cache_path N store)
              else old).
  (* the check *)
  unfold Backend.bind at 1.
  set (text := match JSON_parse rec with
               | Some _ => rec
               | None => JSON_stringify dflt
               end).
  match goal with
  | |- context [(match JSON_parse rec with
                 | Some _ => Backend.ret rec
                 | None => ?m
                 end) ?w0] =>
      assert (Hchk :
        (match JSON_parse rec with
         | Some _ => Backend.ret rec
         | None => m
         end) w0
        = (Fulfilled text,
           {| files := files w; mmkv := mmkv w;
              trace := trace w0
                       ++ match JSON_parse rec with
                          | Some _ => []
                          | None => [CConsole (unparseable_message store)]
                          end |}))
  end.
  { unfold text. destruct (JSON_parse rec); simpl.
    - unfold Backend.ret. by rewrite app_nil_r.
    - reflexivity. }
  rewrite Hchk. clear Hchk. cbn [trace].
  (* the write and the removal *)
  unfold Backend.bind at 1.
  destruct (writable N (legacy_path store)) eqn:Hw.
  - rewrite writeFile_ok by (by rewrite Hco). rewrite Hco.
    cbn [mmkv files trace].
    unfold Backend.bind at 1. rewrite getItem_run.
    unfold logged. cbn [mmkv files trace].
    destruct (mmkv w !! store) as [item |] eqn:Hitem.
    + unfold Backend.bind at 1. rewrite removeItem_run.
      unfold console, record. simpl. f_equal. f_equal.
      by rewrite <- !app_assoc.
    + unfold Backend.ret. f_equal. f_equal.
      * by rewrite delete_id.
      * by rewrite <- !app_assoc.
  - rewrite writeFile_fails by (by rewrite Hco). rewrite Hco.
    unfold logged. simpl. f_equal. f_equal. by rewrite <- !app_assoc.
Qed.

Lemma migration_text_parses (store : string) (dflt : json) (w : world) :
  JSON_parse (JSON_stringify dflt) = Some dflt ->
  exists d, JSON_parse (migration_text N store dflt w) = Some d.
Proof.
  intros Hrt. unfold migration_text.
  destruct (JSON_parse (recovered_text N store dflt w)) as [d |] eqn:Hp; eauto.
Qed.

(** The load that follows a fulfilled migration. *)
Lemma open_after_migration (store : string) (dflt d : json) (w w1 : world)
    (text : string) :
  migrate N store dflt w = (Fulfilled tt, w1) ->
  files w1 !! legacy_path store = Some text ->
  JSON_parse text = Some d ->
  open_mmkv N store dflt w
  = (Fulfilled d,
     {| files := files w1; mmkv := mmkv w1;
        trace := trace w1 ++ [CFileExists (legacy_path store);
                              CReadFile (legacy_path store)] |}).
Proof.
  intros Hmig Hf Hp. unfold open_mmkv, createMMKVBackend. rewrite Hmig.
  exact (get_existing N
           (createFileBackend (mmkvPath store) dflt (Some (Fulfilled tt)))
           w1 text d I Hf Hp).
Qed.

(** X5. Whatever the legacy store holds for a store without a store file
    (nothing, a document, an unparseable text, the sentinel), the first
    open on a device where the file can be written is fulfilled; the store
    file then holds a text that parses, to the document returned, and the
    legacy store has no entry for the store while its other entries are
    as they were. *)
Theorem first_open_always_succeeds (store : string) (dflt : json) (w : world) :
  coherent N (mmkvPath store) ->
  files w !! legacy_path store = None ->
  writable N (legacy_path store) = true ->
  JSON_parse (JSON_stringify dflt) = Some dflt ->
  exists d w1,
    open_mmkv N store dflt w = (Fulfilled d, w1)
    /\ files w1 !! legacy_path store = Some (migration_text N store dflt w)
    /\ JSON_parse (migration_text N store dflt w) = Some d
    /\ mmkv w1 = delete store (mmkv w).
Proof.
  intros Hco Hfile Hw Hrt.
  destruct (migration_text_parses store dflt w Hrt) as [d Hd].
  pose proof (migrate_run store dflt w Hco Hfile) as Hmig. rewrite Hw in Hmig.
  exists d. eexists. split.
  { eapply open_after_migration; [exact Hmig | | exact Hd].
    simpl. apply lookup_insert_eq. }
  simpl. split; [apply lookup_insert_eq | done].
Qed.

(** X6. A legacy text that does not parse is discarded: the migration
    logs it, writes the text of the default to the store file and removes
    the legacy entry all the same; the open returns the default. *)
Theorem unparseable_legacy_is_discarded (store legacy : string) (dflt : json)
    (w : world) :
  coherent N (mmkvPath store) ->
  files w !! legacy_path store = None ->
  writable N (legacy_path store) = true ->
  JSON_parse (JSON_stringify dflt) = Some dflt ->
  mmkv w !! store = Some legacy ->
  legacy <> LARGE_VALUE ->
  JSON_parse legacy = None ->
  exists w1,
    open_mmkv N store dflt w = (Fulfilled dflt, w1)
    /\ files w1 !! legacy_path store = Some (JSON_stringify dflt)
    /\ mmkv w1 !! store = None
    /\ trace w1
       = trace w
         ++ [CFileExists (legacy_path store); CGetItem store;
             CConsole (unparseable_message store);
             CWriteFile "documents" (filePathFixer N (mmkvPath store))
                        (JSON_stringify dflt);
             CGetItem store; CRemoveItem store;
             CConsole (migrated_message store);
             CFileExists (legacy_path store); CReadFile (legacy_path store)].
Proof.
  intros Hco Hfile Hw Hrt Hitem Hlarge Hbad.
  apply String.eqb_neq in Hlarge.
  assert (Hrec : recovered_text N store dflt w = legacy).
  { unfold recovered_text. rewrite Hitem. simpl. by rewrite Hlarge. }
  assert (Htext : migration_text N store dflt w = JSON_stringify dflt).
  { unfold migration_text. by rewrite Hrec, Hbad. }
  pose proof (migrate_run store dflt w Hco Hfile) as Hmig.
  rewrite Hw, Htext in Hmig.
  eexists. split.
  { eapply open_after_migration; [exact Hmig | | exact Hrt].
    simpl. apply lookup_insert_eq. }
  simpl. split; [apply lookup_insert_eq |].
  split; [apply lookup_delete_eq |].
  unfold recovery_calls, removal_calls.
  rewrite Hrec, Hbad, Htext, Hitem. simpl. rewrite Hlarge.
  by rewrite <- !app_assoc.
Qed.

(** X7. The sentinel for an oversized value: the migration reads the
    overflow file of the store.  The open returns the document of that
    file when it exists and parses, and the default otherwise; when the
    file does not exist the loss is logged.  The sentinel entry is removed
    in every case. *)
Theorem oversized_value_recovery (store : string) (dflt : json) (w : world) :
  coherent N (mmkvPath store) ->
  files w !! legacy_path store = None ->
  writable N (legacy_path store) = true ->
  JSON_parse (JSON_stringify dflt) = Some dflt ->
  mmkv w !! store = Some LARGE_VALUE ->
  exists w1,
    open_mmkv N store dflt w
    = (Fulfilled (default dflt (files w !! cache_path N store ≫= JSON_parse)), w1)
    /\ mmkv w1 !! store = None
    /\ match files w !! cache_path N store with
       | Some _ => CReadFile (cache_path N store) ∈ trace w1
       | None => CConsole (data_loss_message store) ∈ trace w1
       end.
Proof.
  intros Hco Hfile Hw Hrt Hitem.
  assert (Hrec : recovered_text N store dflt w
                 = default (JSON_stringify dflt) (files w !! cache_path N store)).
  { unfold recovered_text. by rewrite Hitem. }
  pose proof (migrate_run store dflt w Hco Hfile) as Hmig. rewrite Hw in Hmig.
  assert (Hp : JSON_parse (migration_text N store dflt w)
               = Some (default dflt (files w !! cache_path N store ≫= JSON_parse))).
  { unfold migration_text. rewrite Hrec.
    destruct (files w !! cache_path N store) as [c |]; simpl; [| by rewrite Hrt].
    destruct (JSON_parse c) eqn:Hc; simpl; [exact Hc | exact Hrt]. }
  eexists. split.
  { eapply open_after_migration; [exact Hmig | | exact Hp].
    simpl. apply lookup_insert_eq. }
  simpl. split; [apply lookup_delete_eq |].
  unfold recovery_calls. rewrite Hitem. simpl.
  destruct (files w !! cache_path N store); set_solver.
Qed.

(** X8. A migration whose write fails leaves a backend that is of no use:
    every later [get] and [set] on it is rejected with the error of the
    write, without any native call, even on a device and in a world where
    the write would now succeed.  The migration is not tried again. *)
Theorem failed_migration_poisons_backend (store : string) (dflt : json)
    (w : world) :
  coherent N (mmkvPath store) ->
  files w !! legacy_path store = None ->
  writable N (legacy_path store) = false ->
  let b := fst (createMMKVBackend N store dflt w) in
  forall (N' : native) (w' : world) (data : json),
    get N' b w' = (Rejected (EWriteFailed (legacy_path store)), w')
    /\ set N' b data w' = (Rejected (EWriteFailed (legacy_path store)), w').
Proof.
  intros Hco Hfile Hw b N' w' data. unfold b, createMMKVBackend.
  rewrite (migrate_run store dflt w Hco Hfile), Hw. by split.
Qed.

(** X9. Once the store file exists the legacy store is out of the
    picture: an open makes no call to it and leaves its entries as they
    are, whatever they hold.  The open returns the document of the file,
    and when the file does not parse it returns the default, even if the
    legacy store still holds a document for the store. *)
Theorem existing_file_shadows_legacy (store content : string) (dflt : json)
    (w : world) :
  coherent N (mmkvPath store) ->
  writable N (legacy_path store) = true ->
  JSON_parse (JSON_stringify dflt) = Some dflt ->
  files w !! legacy_path store = Some content ->
  exists w1,
    open_mmkv N store dflt w
    = (Fulfilled (default dflt (JSON_parse content)), w1)
    /\ mmkv w1 = mmkv w
    /\ exists calls,
         trace w1 = trace w ++ calls
         /\ filter (fun c => touches_legacy c = true) calls = [].
Proof.
  intros Hco Hw Hrt Hfile.
  assert (Hmig : migrate N store dflt w
                 = (Fulfilled tt, logged (CFileExists (legacy_path store)) w)).
  { unfold migrate. fold (legacy_path store).
    unfold Backend.bind. rewrite fileExists_run.
    by rewrite bool_decide_eq_true_2 by eauto. }
  destruct (JSON_parse content) as [d |] eqn:Hp.
  - eexists. split.
    { eapply open_after_migration; [exact Hmig | exact Hfile | exact Hp]. }
    simpl. split; [done |]. eexists. split; [by rewrite <- app_assoc | done].
  - unfold open_mmkv, createMMKVBackend. rewrite Hmig.
    unfold get. simpl file. simpl defaultData. fold (legacy_path store).
    unfold Backend.bind at 1. rewrite await_migrate_done by exact I.
    unfold Backend.bind at 1. rewrite fileExists_run.
    rewrite bool_decide_eq_true_2 by (simpl; eauto).
    unfold Backend.bind at 1. erewrite readFile_run by (simpl; exact Hfile).
    rewrite Hp, write_default_run by done.
    eexists. split; [done |]. simpl. split; [done |].
    eexists. split; [by rewrite <- !app_assoc |]. done.
Qed.

(** What [purgeStorage] does, with the native [removeFile]. *)
Lemma purge_run (store : string) (w : world) :
  removal_coherent N store ->
  purgeStorage N (Some (removeFile N)) store w
  = (Fulfilled tt,
     {| files := delete (legacy_path store) (files w);
        mmkv := if truthy_item (mmkv w !! store)
                then delete store (mmkv w) else mmkv w;
        trace := trace w ++ CGetItem store
                   :: (if truthy_item (mmkv w !! store)
                       then [CRemoveItem store] else [])
                   ++ [CFileExists (legacy_path store)] |}).
Proof.
  intros Hrm. unfold purgeStorage. fold (legacy_path store).
  unfold Backend.bind at 1. rewrite getItem_run.
  unfold logged. cbn [mmkv files trace].
  unfold Backend.bind at 1.
  destruct (truthy_item (mmkv w !! store)).
  - rewrite removeItem_run. cbn [mmkv files trace].
    unfold Backend.bind at 1. rewrite fileExists_run.
    unfold logged. cbn [mmkv files trace].
    destruct (files w !! legacy_path store) as [c |] eqn:Hf.
    + rewrite bool_decide_eq_true_2 by eauto.
      unfold removeFile. rewrite Hrm. simpl. by rewrite <- !app_assoc.
    + rewrite bool_decide_eq_false_2 by (by intros [? ?]).
      unfold Backend.ret. simpl. rewrite (delete_id (files w)) by done.
      by rewrite <- !app_assoc.
  - unfold Backend.ret at 1.
    unfold Backend.bind at 1. rewrite fileExists_run.
    unfold logged. cbn [mmkv files trace].
    destruct (files w !! legacy_path store) as [c |] eqn:Hf.
    + rewrite bool_decide_eq_true_2 by eauto.
      unfold removeFile. rewrite Hrm. simpl. by rewrite <- !app_assoc.
    + rewrite bool_decide_eq_false_2 by (by intros [? ?]).
      unfold Backend.ret. simpl. rewrite (delete_id (files w)) by done.
      by rewrite <- !app_assoc.
Qed.

(** X10. [purgeStorage] is fulfilled; afterwards the store file is gone
    and every other file is as it was; the legacy entry of the store is
    gone unless it was the empty string, which the truthiness test takes
    for no entry and leaves in place; every other legacy entry is as it
    was.  A second purge changes neither the files nor the legacy
    store. *)
Theorem purge_clears_store (store : string) (w : world) :
  removal_coherent N store ->
  let rm := Some (removeFile N) in
  let w1 := snd (purgeStorage N rm store w) in
  let w2 := snd (purgeStorage N rm store w1) in
  fst (purgeStorage N rm store w) = Fulfilled tt
  /\ files w1 = delete (legacy_path store) (files w)
  /\ mmkv w1 = (if decide (mmkv w !! store = Some "")
                then mmkv w else delete store (mmkv w))
  /\ files w2 = files w1 /\ mmkv w2 = mmkv w1.
Proof.
  intros Hrm rm w1 w2. unfold w2, w1, rm.
  rewrite !purge_run by done. cbn [fst snd files mmkv].
  split; [done |]. split; [done |].
  assert (Hm : (if truthy_item (mmkv w !! store)
                then delete store (mmkv w) else mmkv w)
               = if decide (mmkv w !! store = Some "")
                 then mmkv w else delete store (mmkv w)).
  { destruct (decide (mmkv w !! store = Some "")) as [He | He].
    - by rewrite He.
    - destruct (mmkv w !! store) as [item |] eqn:Hi; simpl.
      + destruct (String.eqb_spec item "") as [-> | Hne]; done.
      + by rewrite delete_id. }
  split; [exact Hm |].
  split; [by rewrite delete_delete_eq |].
  rewrite Hm. case_decide as He.
  - by rewrite He.
  - by rewrite lookup_delete_eq.
Qed.

Lemma purge_clears_store_aux (store : string) (w : world) :
  removal_coherent N store ->
  mmkv w !! store <> Some "" ->
  let w1 := snd (purgeStorage N (Some (removeFile N)) store w) in
  files w1 = delete (legacy_path store) (files w)
  /\ mmkv w1 = delete store (mmkv w).
Proof.
  intros Hrm Hne w1. unfold w1. rewrite purge_run by done.
  cbn [snd files mmkv]. split; [done |].
  destruct (mmkv w !! store) as [item |] eqn:Hi; simpl.
  - destruct (String.eqb_spec item "") as [-> | Hn]; [done | done].
  - by rewrite delete_id.
Qed.

(** X11. Where a purge reaches the store file, it resets the store.  On
    a device whose native module has [removeFile], where
    [removeFile("documents", mmkvPath)] removes the very file that the
    store is read from (as on Android; X27 shows a device where it does
    not) and where the store file can be written, for a default that
    [JSON.parse] gives back from its text and whose text is not the
    sentinel of X7: whatever the store file and the legacy entry held
    (the empty string apart), the open that follows a purge returns the
    default. *)
Theorem open_after_purge_gives_default (store : string) (dflt : json)
    (w : world) :
  removal_coherent N store ->
  coherent N (mmkvPath store) ->
  writable N (legacy_path store) = true ->
  JSON_parse (JSON_stringify dflt) = Some dflt ->
  JSON_stringify dflt <> LARGE_VALUE ->
  mmkv w !! store <> Some "" ->
  let w1 := snd (purgeStorage N (Some (removeFile N)) store w) in
  fst (open_mmkv N store dflt w1) = Fulfilled dflt.
Proof.
  intros Hrm Hco Hw Hrt Hnl Hne w1.
  destruct (purge_clears_store_aux store w Hrm Hne) as [Hf Hm].
  fold w1 in Hf, Hm.
  assert (Hfile : files w1 !! legacy_path store = None)
    by (rewrite Hf; apply lookup_delete_eq).
  assert (Hitem : mmkv w1 !! store = None)
    by (rewrite Hm; apply lookup_delete_eq).
  assert (Htext : migration_text N store dflt w1 = JSON_stringify dflt).
  { unfold migration_text, recovered_text. rewrite Hitem. simpl.
    apply String.eqb_neq in Hnl. by rewrite Hnl, Hrt. }
  pose proof (migrate_run store dflt w1 Hco Hfile) as Hmig.
  rewrite Hw, Htext in Hmig.
  erewrite open_after_migration; [done | exact Hmig | | exact Hrt].
  simpl. apply lookup_insert_eq.
Qed.

(** X12. Where the native module has no [removeFile], a purge leaves the
    store file in place, so the open that follows still returns the
    document that was purged. *)
Theorem purge_without_removeFile_keeps_file (store content : string)
    (dflt d : json) (w : world) :
  files w !! legacy_path store = Some content ->
  JSON_parse content = Some d ->
  let w1 := snd (purgeStorage N None store w) in
  fst (purgeStorage N None store w) = Fulfilled tt
  /\ files w1 = files w
  /\ fst (open_mmkv N store dflt w1) = Fulfilled d.
Proof.
  intros Hfile Hp w1.
  assert (Hrun : exists m t,
             purgeStorage N None store w
             = (Fulfilled tt, {| files := files w; mmkv := m; trace := t |})).
  { unfold purgeStorage. fold (legacy_path store).
    unfold Backend.bind at 1. rewrite getItem_run.
    unfold logged. cbn [mmkv files trace].
    unfold Backend.bind at 1.
    destruct (truthy_item (mmkv w !! store)).
    - rewrite removeItem_run. cbn [mmkv files trace].
      unfold Backend.bind at 1. rewrite fileExists_run.
      unfold logged. cbn [mmkv files trace].
      rewrite bool_decide_eq_true_2 by eauto. by eexists _, _.
    - unfold Backend.ret at 1.
      unfold Backend.bind at 1. rewrite fileExists_run.
      unfold logged. cbn [mmkv files trace].
      rewrite bool_decide_eq_true_2 by eauto. by eexists _, _. }
  destruct Hrun as (m & t & Hrun). unfold w1. rewrite Hrun. cbn [fst snd files].
  split; [done |]. split; [done |].
  assert (Hmig : migrate N store dflt {| files := files w; mmkv := m; trace := t |}
                 = (Fulfilled tt,
                    logged (CFileExists (legacy_path store))
                           {| files := files w; mmkv := m; trace := t |})).
  { unfold migrate. fold (legacy_path store).
    unfold Backend.bind. rewrite fileExists_run.
    by rewrite bool_decide_eq_true_2 by (simpl; eauto). }
  by erewrite open_after_migration; [| exact Hmig | exact Hfile | exact Hp].
Qed.

(** X27. Where [removeFile("documents", mmkvPath)] lands on another
    path than the one the store is read from, the purge misses the store
    file.  [purgeStorage] passes [mmkvPath] as it is, while every write
    goes through [filePathFixer]: on iOS without [saveFileToGallery] the
    two differ by the prefix [Documents/].  The purge is fulfilled all
    the same, the store file is still there, and the open that follows
    returns the document that was to be purged. *)
Theorem purge_misses_store_file (store content : string) (dflt d : json)
    (w : world) :
  locate N "documents" (mmkvPath store) <> legacy_path store ->
  files w !! legacy_path store = Some content ->
  JSON_parse content = Some d ->
  let w1 := snd (purgeStorage N (Some (removeFile N)) store w) in
  fst (purgeStorage N (Some (removeFile N)) store w) = Fulfilled tt
  /\ files w1 !! legacy_path store = Some content
  /\ fst (open_mmkv N store dflt w1) = Fulfilled d.
Proof.
  intros Hne Hfile Hp w1.
  assert (Hrun : exists m t,
             purgeStorage N (Some (removeFile N)) store w
             = (Fulfilled tt,
                {| files := delete (locate N "documents" (mmkvPath store))
                                   (files w);
                   mmkv := m; trace := t |})).
  { unfold purgeStorage. fold (legacy_path store).
    unfold Backend.bind at 1. rewrite getItem_run.
    unfold logged. cbn [mmkv files trace].
    unfold Backend.bind at 1.
    destruct (truthy_item (mmkv w !! store)).
    - rewrite removeItem_run. cbn [mmkv files trace].
      unfold Backend.bind at 1. rewrite fileExists_run.
      unfold logged. cbn [mmkv files trace].
      rewrite bool_decide_eq_true_2 by eauto. by eexists _, _.
    - unfold Backend.ret at 1.
      unfold Backend.bind at 1. rewrite fileExists_run.
      unfold logged. cbn [mmkv files trace].
      rewrite bool_decide_eq_true_2 by eauto. by eexists _, _. }
  destruct Hrun as (m & t & Hrun). unfold w1. rewrite Hrun. cbn [fst snd files].
  assert (Hkept : delete (locate N "documents" (mmkvPath store)) (files w)
                    !! legacy_path store = Some content)
    by (by rewrite lookup_delete_ne).
  split; [done |]. split; [exact Hkept |].
  set (w' := {| files := delete (locate N "documents" (mmkvPath store)) (files w);
                mmkv := m; trace := t |}).
  assert (Hmig : migrate N store dflt w'
                 = (Fulfilled tt, logged (CFileExists (legacy_path store)) w')).
  { unfold migrate. fold (legacy_path store).
    unfold Backend.bind. rewrite fileExists_run.
    by rewrite bool_decide_eq_true_2 by (simpl; eauto). }
  by erewrite open_after_migration; [| exact Hmig | exact Hkept | exact Hp].
Qed.

End WithJSON.

Import MiniJSON Examples.

Lemma get_after_set_witness :
  let w0 := fold_left (fun w d => snd (set (J := codec) device settings d w))
                      [doc_a1] empty_world in
  let w1 := snd (set (J := codec) device settings (JObj []) w0) in
  coherent device (file settings)
  /\ writable device (store_path device settings) = true
  /\ migration_done settings
  /\ parse (stringify (JObj [])) = Some (JObj [])
  /\ fst (set (J := codec) device settings (JObj []) w0) = Fulfilled tt
  /\ files w1 !! store_path device settings = Some (stringify (JObj []))
  /\ get (J := codec) device settings w1
     = (Fulfilled (JObj []),
        {| files := files w1; mmkv := mmkv w1;
           trace := trace w1 ++ [CFileExists (store_path device settings);
                                 CReadFile (store_path device settings)] |}).
Proof.
  intros w0 w1.
  assert (H1 : coherent device (file settings)) by reflexivity.
  assert (H2 : writable device (store_path device settings) = true)
    by reflexivity.
  assert (H3 : migration_done settings) by exact I.
  assert (H4 : parse (stringify (JObj [])) = Some (JObj [])) by reflexivity.
  split; [assumption |]. split; [assumption |].
  split; [assumption |]. split; [assumption |].
  exact (get_after_set (J := codec) device settings [doc_a1] (JObj [])
           empty_world H1 H2 H3 H4).
Defined.

Lemma first_open_always_succeeds_witness :
  coherent device (mmkvPath "settings")
  /\ files legacy_world !! legacy_path device "settings" = None
  /\ writable device (legacy_path device "settings") = true
  /\ parse (stringify (JObj [])) = Some (JObj [])
  /\ exists d w1,
       open_mmkv (J := codec) device "settings" (JObj []) legacy_world
       = (Fulfilled d, w1)
       /\ files w1 !! legacy_path device "settings"
          = Some (migration_text (J := codec) device "settings" (JObj [])
                                 legacy_world)
       /\ parse (migration_text (J := codec) device "settings" (JObj [])
                                legacy_world) = Some d
       /\ mmkv w1 = delete "settings" (mmkv legacy_world).
Proof.
  assert (H1 : coherent device (mmkvPath "settings")) by reflexivity.
  assert (H2 : files legacy_world !! legacy_path device "settings" = None)
    by (vm_compute; reflexivity).
  assert (H3 : writable device (legacy_path device "settings") = true)
    by reflexivity.
  assert (H4 : parse (stringify (JObj [])) = Some (JObj [])) by reflexivity.
  split; [assumption |]. split; [assumption |].
  split; [assumption |]. split; [assumption |].
  exact (first_open_always_succeeds (J := codec) device "settings" (JObj [])
           legacy_world H1 H2 H3 H4).
Defined.

Lemma unparseable_legacy_is_discarded_witness :
  let w := {| files := ∅; mmkv := {[ "settings" := truncated ]};
              trace := [] |} in
  coherent device (mmkvPath "settings")
  /\ files w !! legacy_path device "settings" = None
  /\ writable device (legacy_path device "settings") = true
  /\ parse (stringify (JObj [])) = Some (JObj [])
  /\ mmkv w !! "settings" = Some truncated
  /\ truncated <> LARGE_VALUE
  /\ parse truncated = None
  /\ exists w1,
       open_mmkv (J := codec) device "settings" (JObj []) w
       = (Fulfilled (JObj []), w1)
       /\ files w1 !! legacy_path device "settings" = Some (stringify (JObj []))
       /\ mmkv w1 !! "settings" = None
       /\ trace w1
          = trace w
            ++ [CFileExists (legacy_path device "settings"); CGetItem "settings";
                CConsole (unparseable_message "settings");
                CWriteFile "documents" (filePathFixer device (mmkvPath "settings"))
                           (stringify (JObj []));
                CGetItem "settings"; CRemoveItem "settings";
                CConsole (migrated_message "settings");
                CFileExists (legacy_path device "settings");
                CReadFile (legacy_path device "settings")].
Proof.
  intros w.
  assert (H1 : coherent device (mmkvPath "settings")) by reflexivity.
  assert (H2 : files w !! legacy_path device "settings" = None)
    by (vm_compute; reflexivity).
  assert (H3 : writable device (legacy_path device "settings") = true)
    by reflexivity.
  assert (H4 : parse (stringify (JObj [])) = Some (JObj [])) by reflexivity.
  assert (H5 : mmkv w !! "settings" = Some truncated)
    by (vm_compute; reflexivity).
  assert (H6 : truncated <> LARGE_VALUE) by (vm_compute; discriminate).
  assert (H7 : parse truncated = None) by (vm_compute; reflexivity).
  split; [assumption |]. split; [assumption |]. split; [assumption |].
  split; [assumption |]. split; [assumption |]. split; [assumption |].
  split; [assumption |].
  exact (unparseable_legacy_is_discarded (J := codec) device "settings"
           truncated (JObj []) w H1 H2 H3 H4 H5 H6 H7).
Defined.

Lemma oversized_value_recovery_witness :
  let w := {| files := ∅; mmkv := {[ "settings" := LARGE_VALUE ]};
              trace := [] |} in
  coherent device (mmkvPath "settings")
  /\ files w !! legacy_path device "settings" = None
  /\ writable device (legacy_path device "settings") = true
  /\ parse (stringify (JObj [])) = Some (JObj [])
  /\ mmkv w !! "settings" = Some LARGE_VALUE
  /\ exists w1,
       open_mmkv (J := codec) device "settings" (JObj []) w
       = (Fulfilled (default (JObj [])
                       (files w !! cache_path device "settings" ≫= parse)), w1)
       /\ mmkv w1 !! "settings" = None
       /\ match files w !! cache_path device "settings" with
          | Some _ => CReadFile (cache_path device "settings") ∈ trace w1
          | None => CConsole (data_loss_message "settings") ∈ trace w1
          end.
Proof.
  intros w.
  assert (H1 : coherent device (mmkvPath "settings")) by reflexivity.
  assert (H2 : files w !! legacy_path device "settings" = None)
    by (vm_compute; reflexivity).
  assert (H3 : writable device (legacy_path device "settings") = true)
    by reflexivity.
  assert (H4 : parse (stringify (JObj [])) = Some (JObj [])) by reflexivity.
  assert (H5 : mmkv w !! "settings" = Some LARGE_VALUE)
    by (vm_compute; reflexivity).
  split; [assumption |]. split; [assumption |]. split; [assumption |].
  split; [assumption |]. split; [assumption |].
  exact (oversized_value_recovery (J := codec) device "settings" (JObj []) w
           H1 H2 H3 H4 H5).
Defined.

Lemma failed_migration_poisons_backend_witness :
  let b := fst (createMMKVBackend (J := codec) readonly_device "settings"
                  (JObj []) legacy_world) in
  coherent readonly_device (mmkvPath "settings")
  /\ files legacy_world !! legacy_path readonly_device "settings" = None
  /\ writable readonly_device (legacy_path readonly_device "settings") = false
  /\ forall (N' : native) (w' : world) (data : json),
       get (J := codec) N' b w'
       = (Rejected (EWriteFailed (legacy_path readonly_device "settings")), w')
       /\ set (J := codec) N' b data w'
          = (Rejected (EWriteFailed (legacy_path readonly_device "settings")), w').
Proof.
  intros b.
  assert (H1 : coherent readonly_device (mmkvPath "settings")) by reflexivity.
  assert (H2 : files legacy_world !! legacy_path readonly_device "settings"
               = None) by (vm_compute; reflexivity).
  assert (H3 : writable readonly_device
                 (legacy_path readonly_device "settings") = false)
    by reflexivity.
  split; [assumption |]. split; [assumption |]. split; [assumption |].
  exact (failed_migration_poisons_backend (J := codec) readonly_device
           "settings" (JObj []) legacy_world H1 H2 H3).
Defined.

Lemma existing_file_shadows_legacy_witness :
  let w := {| files := files corrupt_world; mmkv := mmkv legacy_world;
              trace := [] |} in
  coherent device (mmkvPath "settings")
  /\ writable device (legacy_path device "settings") = true
  /\ parse (stringify (JObj [])) = Some (JObj [])
  /\ files w !! legacy_path device "settings" = Some truncated
  /\ exists w1,
       open_mmkv (J := codec) device "settings" (JObj []) w
       = (Fulfilled (default (JObj []) (parse truncated)), w1)
       /\ mmkv w1 = mmkv w
       /\ exists calls,
            trace w1 = trace w ++ calls
            /\ filter (fun c => touches_legacy c = true) calls = [].
Proof.
  intros w.
  assert (H1 : coherent device (mmkvPath "settings")) by reflexivity.
  assert (H2 : writable device (legacy_path device "settings") = true)
    by reflexivity.
  assert (H3 : parse (stringify (JObj [])) = Some (JObj [])) by reflexivity.
  assert (H4 : files w !! legacy_path device "settings" = Some truncated)
    by (vm_compute; reflexivity).
  split; [assumption |]. split; [assumption |]. split; [assumption |].
  split; [assumption |].
  exact (existing_file_shadows_legacy (J := codec) device "settings" truncated
           (JObj []) w H1 H2 H3 H4).
Defined.

Lemma purge_clears_store_witness :
  let w := {| files := files corrupt_world; mmkv := mmkv legacy_world;
              trace := [] |} in
  let rm := Some (removeFile device) in
  let w1 := snd (purgeStorage device rm "settings" w) in
  let w2 := snd (purgeStorage device rm "settings" w1) in
  removal_coherent device "settings"
  /\ fst (purgeStorage device rm "settings" w) = Fulfilled tt
  /\ files w1 = delete (legacy_path device "settings") (files w)
  /\ mmkv w1 = (if decide (mmkv w !! "settings" = Some "")
                then mmkv w else delete "settings" (mmkv w))
  /\ files w2 = files w1 /\ mmkv w2 = mmkv w1.
Proof.
  intros w rm w1 w2.
  assert (H1 : removal_coherent device "settings") by reflexivity.
  split; [assumption |].
  exact (purge_clears_store device "settings" w H1).
Defined.

Lemma open_after_purge_gives_default_witness :
  let w := {| files := files corrupt_world; mmkv := mmkv legacy_world;
              trace := [] |} in
  let w1 := snd (purgeStorage device (Some (removeFile device)) "settings" w) in
  removal_coherent device "settings"
  /\ coherent device (mmkvPath "settings")
  /\ writable device (legacy_path device "settings") = true
  /\ parse (stringify (JObj [])) = Some (JObj [])
  /\ stringify (JObj []) <> LARGE_VALUE
  /\ mmkv w !! "settings" <> Some ""
  /\ fst (open_mmkv (J := codec) device "settings" (JObj []) w1)
     = Fulfilled (JObj []).
Proof.
  intros w w1.
  assert (H1 : removal_coherent device "settings") by reflexivity.
  assert (H2 : coherent device (mmkvPath "settings")) by reflexivity.
  assert (H3 : writable device (legacy_path device "settings") = true)
    by reflexivity.
  assert (H4 : parse (stringify (JObj [])) = Some (JObj [])) by reflexivity.
  assert (H5 : stringify (JObj []) <> LARGE_VALUE)
    by (vm_compute; discriminate).
  assert (H6 : mmkv w !! "settings" <> Some "")
    by (vm_compute; discriminate).
  split; [assumption |]. split; [assumption |]. split; [assumption |].
  split; [assumption |]. split; [assumption |]. split; [assumption |].
  exact (open_after_purge_gives_default (J := codec) device "settings"
           (JObj []) w H1 H2 H3 H4 H5 H6).
Defined.

Lemma purge_misses_store_file_witness :
  let w := {| files := {[ legacy_path ios_device "settings" := text_a1 ]};
              mmkv := ∅; trace := [] |} in
  let w1 := snd (purgeStorage ios_device (Some (removeFile ios_device))
                   "settings" w) in
  locate ios_device "documents" (mmkvPath "settings")
    <> legacy_path ios_device "settings"
  /\ files w !! legacy_path ios_device "settings" = Some text_a1
  /\ parse text_a1 = Some doc_a1
  /\ coherent ios_device (mmkvPath "settings")
  /\ fst (purgeStorage ios_device (Some (removeFile ios_device)) "settings" w)
     = Fulfilled tt
  /\ files w1 !! legacy_path ios_device "settings" = Some text_a1
  /\ fst (open_mmkv (J := codec) ios_device "settings" (JObj []) w1)
     = Fulfilled doc_a1.
Proof.
  intros w w1.
  assert (H1 : locate ios_device "documents" (mmkvPath "settings")
               <> legacy_path ios_device "settings")
    by (vm_compute; discriminate).
  assert (H2 : files w !! legacy_path ios_device "settings" = Some text_a1)
    by (vm_compute; reflexivity).
  assert (H3 : parse text_a1 = Some doc_a1) by (vm_compute; reflexivity).
  assert (H4 : coherent ios_device (mmkvPath "settings")) by reflexivity.
  split; [assumption |]. split; [assumption |]. split; [assumption |].
  split; [assumption |].
  exact (purge_misses_store_file (J := codec) ios_device "settings" text_a1
           (JObj []) doc_a1 w H1 H2 H3).
Defined.

Lemma purge_without_removeFile_keeps_file_witness :
  let w := {| files := {[ legacy_path device "settings" := text_a1 ]};
              mmkv := ∅; trace := [] |} in
  let w1 := snd (purgeStorage device None "settings" w) in
  files w !! legacy_path device "settings" = Some text_a1
  /\ parse text_a1 = Some doc_a1
  /\ fst (purgeStorage device None "settings" w) = Fulfilled tt
  /\ files w1 = files w
  /\ fst (open_mmkv (J := codec) device "settings" (JObj []) w1)
     = Fulfilled doc_a1.
Proof.
  intros w w1.
  assert (H1 : files w !! legacy_path device "settings" = Some text_a1)
    by (vm_compute; reflexivity).
  assert (H2 : parse text_a1 = Some doc_a1) by (vm_compute; reflexivity).
  split; [assumption |]. split; [assumption |].
  exact (purge_without_removeFile_keeps_file (J := codec) device "settings"
           text_a1 (JObj []) doc_a1 w H1 H2).
Defined.

End BackendMore.

(** ** More on the proxy *)

(** ** More on the proxy *)

Module ProxyMore.
Import Proxy ProxyFacts ProxyNotions.
Local Open Scope js_scope.

(** X13. [null] cannot be written through a proxy: [typeof null] is
    "object", no child proxy is cached for it, and [new Proxy(null, ...)]
    throws.  The session is left exactly as it was: nothing is stored, no
    event is emitted, nothing is persisted. *)
Theorem write_null_throws (r : ref) (prop : string) (s : session) :
  is_proxy r = true ->
  obj_set r prop VNull s = (Throws TypeError, s).
Proof. by destruct r. Qed.

Lemma write_null_throws_witness :
  let '(root, s) := createStorage Examples.empty_doc (Raw 0) in
  is_proxy root = true
  /\ obj_set root "a" VNull s = (Throws TypeError, s).
Proof. split; [reflexivity |]. by apply write_null_throws. Defined.

(** X14. A read through any handle never changes the document: the heap,
    [proxiedChildrenSet] and the listeners are as before, [childrens] only
    gains entries, and every event it emits is a [GET].  The read returns
    normally, except where the key is an own property of the object under
    the handle that is neither writable nor configurable (a key of a
    frozen object): there [[Get]] of the proxy throws when the trap
    answered the object that the key holds with a proxy. *)
Theorem read_leaves_document (r : ref) (prop : string) (s : session) :
  let s' := snd (obj_get r prop s) in
  ((exists v, fst (obj_get r prop s) = Normal v)
   \/ fst (obj_get r prop s) = Throws TypeError)
  /\ (frozen_value (heap s) (base r) prop = None ->
      exists v, fst (obj_get r prop s) = Normal v)
  /\ heap s' = heap s
  /\ proxiedChildrenSet s' = proxiedChildrenSet s
  /\ childrens s ⊆ childrens s'
  /\ listeners s' = listeners s
  /\ exists evs, emitted s' = emitted s ++ evs
                 /\ Forall (fun ev => ev_kind ev = GET) evs.
Proof.
  intros s'. unfold s'.
  destruct (obj_get_extends r prop s) as (Hh & Hp & Hc).
  pose (P := fun t : session =>
               listeners t = listeners s
               /\ exists evs, emitted t = emitted s ++ evs
                              /\ Forall (fun ev => ev_kind ev = GET) evs).
  assert (HP : P (snd (obj_get r prop s))).
  { apply obj_get_preserves.
    - by intros t Ht.
    - intros path w t (Hl & evs & He & Hg). rewrite emit_run. split; [done |].
      exists (evs ++ [mk_event t GET path w]). simpl.
      split; [by rewrite He, app_assoc |].
      apply Forall_app. split; [done | by constructor].
    - split; [done |]. exists []. by rewrite app_nil_r. }
  destruct HP as (Hl & Hev).
  split.
  { destruct (obj_get_cases r prop s) as (s1 & [[v H] | H]); rewrite H;
      [left; by exists v | by right]. }
  split.
  { intros Hf. destruct (obj_get_unfrozen r prop s Hf) as (v & s1 & H & _).
    rewrite H. by exists v. }
  repeat split; eauto.
Qed.

(** Where [[Get]] throws: the key [a] of a frozen document holds an
    object.  The trap emits its [GET] and makes the child proxy, and the
    read throws. *)
Example read_of_frozen_object_throws :
  let '(root, s) := createProxy Examples.frozen_doc (Raw 0) in
  frozen_value (heap s) 0 "a" = Some (VObj (Raw 1))
  /\ fst (obj_get root "a" s) = Throws TypeError
  /\ map ev_kind (emitted (snd (obj_get root "a" s))) = [GET]
  /\ fst (obj_get root "n" s) = Normal (VNum 1).
Proof. vm_compute. repeat split; reflexivity. Qed.

(** Two keys that read as the same value: once a read of the first has
    returned [v], a read of the second returns [v] in every later session
    that kept the heap, the set and the entries of [childrens]. *)
Lemma obj_get_alias (r : ref) (k1 k2 : string) (s s1 : session) (v : value) :
  target_value s (base r) k1 = target_value s (base r) k2 ->
  frozen_value (heap s) (base r) k2 = None ->
  obj_get r k1 s = (Normal v, s1) ->
  forall s', extends s1 s' ->
  exists s'', obj_get r k2 s' = (Normal v, s'')
              /\ extends s' s'' /\ childrens s'' = childrens s'.
Proof.
  intros Hk Hf. revert s1 v.
  induction r as [l | id t IH path]; intros s1 v H s' Hext.
  - simpl in *. injection H as <- <-. exists s'. split; [| by repeat split].
    unfold own_get, gets, target_value in *. rewrite Hk.
    destruct Hext as (-> & _). done.
  - simpl base in *.
    destruct (obj_get_cases t k1 s) as (sa & [[w Ht] | Ht]);
      [| by rewrite (obj_get_throws _ _ _ _ _ _ _ Ht) in H].
    rewrite (obj_get_run _ _ _ _ _ _ _ Ht) in H.
    assert (Hck : forall sx res, heap sx = heap s ->
                    checked sx (base t) k2 res = Normal res).
    { intros sx res Hx. unfold checked. by rewrite Hx, Hf. }
    pose proof (obj_get_heap t k1 s) as Hha. rewrite Ht in Hha. simpl in Hha.
    destruct (present w) eqn:Hw.
    + destruct (exposed w (path ++ [k1])
                  (after_emit GET (path ++ [k1]) w sa))
        as [[res | e |] sx] eqn:He; try done.
      injection H as Hc1 <-.
      pose proof (checked_normal _ _ _ _ _ Hc1) as ->.
      pose proof (exposed_extends _ _ _ _ _ He) as Hexp.
      assert (Hsa : extends sa s').
      { eapply extends_trans; [apply (extends_emit GET (path ++ [k1]) w) |].
        eapply extends_trans; [exact Hexp | exact Hext]. }
      destruct (IH Hk Hf _ _ Ht s' Hsa) as (sb & Hget & Hsb & Hcb).
      rewrite (obj_get_run _ _ _ _ _ _ _ Hget), Hw.
      set (s2 := after_emit GET (path ++ [k1]) w sa) in *.
      set (s2' := after_emit GET (path ++ [k2]) w sb).
      assert (Hs2' : extends s' s2' /\ childrens s2' = childrens s').
      { split; [| done].
        eapply extends_trans; [exact Hsb | apply extends_emit]. }
      assert (Hh2' : heap s2' = heap s).
      { destruct Hs2' as ((-> & _) & _). destruct Hext as (-> & _).
        destruct Hexp as (-> & _). done. }
      destruct w as [| | b | n | str | o | f]; try done;
        try (simpl in He; injection He as <- <-; simpl; rewrite Hck by done;
             by exists s2').
      unfold exposed in He |- *.
      assert (Hset : proxiedChildrenSet s2' = proxiedChildrenSet s2).
      { destruct Hs2' as ((_ & -> & _) & _). destruct Hext as (_ & -> & _).
        by destruct Hexp as (_ & -> & _). }
      rewrite Hset.
      destruct (bool_decide (o ∈ proxiedChildrenSet s2));
        [injection He as <- <-; rewrite Hck by done; by exists s2' |].
      assert (Hsub : childrens sx ⊆ childrens s2').
      { destruct Hs2' as (_ & ->). by destruct Hext as (_ & _ & ?). }
      destruct (childrens s2 !! o) as [p |] eqn:Hc; injection He as <- <-.
      * rewrite (lookup_weaken _ _ _ _ Hc Hsub). rewrite Hck by done.
        by exists s2'.
      * erewrite (lookup_weaken _ (childrens s2')); [| | exact Hsub].
        -- rewrite Hck by done. by exists s2'.
        -- simpl. apply lookup_insert_eq.
    + injection H as Hc1 <-.
      pose proof (checked_normal _ _ _ _ _ Hc1) as ->.
      destruct (IH Hk Hf _ _ Ht s' Hext) as (sb & Hget & Hsb).
      rewrite (obj_get_run _ _ _ _ _ _ _ Hget), Hw.
      exists sb. split; [| done]. rewrite Hck; [done |].
      destruct Hsb as ((-> & _) & _). destruct Hext as (-> & _). done.
Qed.

(** X15. One object, one proxy: when two keys of the object under a
    handle read as the same value (own or inherited), a read of the one
    followed by a read of the other, through the same handle, returns the
    same value both times; for an object this is the same proxy,
    whichever key it is read through and however often.  Neither key is
    an own property that is neither writable nor configurable (see
    X14). *)
Theorem same_value_same_proxy (r : ref) (k1 k2 : string) (s : session) :
  target_value s (base r) k1 = target_value s (base r) k2 ->
  frozen_value (heap s) (base r) k1 = None ->
  frozen_value (heap s) (base r) k2 = None ->
  exists v s1 s2,
    obj_get r k1 s = (Normal v, s1)
    /\ obj_get r k2 s1 = (Normal v, s2).
Proof.
  intros Hk Hf1 Hf2.
  destruct (obj_get_unfrozen r k1 s Hf1) as (v & s1 & H & _).
  destruct (obj_get_alias r k1 k2 s s1 v Hk Hf2 H s1 (extends_refl s1))
    as (s2 & Hget & _).
  by exists v, s1, s2.
Qed.

Lemma same_value_same_proxy_witness :
  let root := fst (createProxy Examples.aliased_doc (Raw 0)) in
  let s := snd (createProxy Examples.aliased_doc (Raw 0)) in
  target_value s (base root) "a" = target_value s (base root) "c"
  /\ frozen_value (heap s) (base root) "a" = None
  /\ frozen_value (heap s) (base root) "c" = None
  /\ exists v s1 s2,
       obj_get root "a" s = (Normal v, s1)
       /\ obj_get root "c" s1 = (Normal v, s2).
Proof.
  intros root s.
  assert (H : target_value s (base root) "a" = target_value s (base root) "c")
    by (vm_compute; reflexivity).
  assert (H1 : frozen_value (heap s) (base root) "a" = None)
    by (vm_compute; reflexivity).
  assert (H2 : frozen_value (heap s) (base root) "c" = None)
    by (vm_compute; reflexivity).
  split; [exact H |]. split; [exact H1 |]. split; [exact H2 |].
  exact (same_value_same_proxy root "a" "c" s H H1 H2).
Defined.

(** X16. In every session that reads, writes, deletions and
    (un)subscriptions reach from [createStorage], each entry of
    [childrens] maps an object to a proxy whose target is that object. *)
Theorem childrens_table_well_kept (h : gmap nat object)
    (data : ref) (ops : list op) :
  childrens_wf (run ops (snd (createStorage h data))).
Proof.
  apply childrens_wf_run. intros r p. simpl. by rewrite lookup_empty.
Qed.

(** *** What a write and a deletion change *)

Lemma bind_snd {A B} (m : js A) (k : A -> js B) (s : session) :
  snd (bind m k s)
  = match m s with
    | (Normal a, s') => snd (k a s')
    | (_, s') => s'
    end.
Proof. unfold bind. by destruct (m s) as [[a | e |] s']. Qed.

Lemma set_length_others (h : gmap nat object) (l : nat) (o : object)
    (v : value) (l' : nat) :
  l' <> l -> result_heap h (set_length h l o v) !! l' = h !! l'.
Proof.
  intros Hl. unfold set_length.
  destruct (to_length v) as [n | |]; try done.
  destruct (shape_of o) as [| len w |]; try done.
  destruct (len <=? n)%N; simpl; [by rewrite lookup_insert_ne |].
  destruct (truncate n o) as [o' []]; simpl; by rewrite lookup_insert_ne.
Qed.

Lemma store_data_others (h : gmap nat object) (l : nat) (o : object)
    (prop : string) (v : value) (w c : bool) (l' : nat) :
  l' <> l -> result_heap h (store_data h l o prop v w c) !! l' = h !! l'.
Proof.
  intros Hl. unfold store_data. destruct (grown o prop); simpl; [| done].
  by rewrite lookup_insert_ne.
Qed.

Lemma create_data_others (h : gmap nat object) (l : nat) (o : object)
    (prop : string) (v : value) (l' : nat) :
  l' <> l -> result_heap h (create_data h l o prop v) !! l' = h !! l'.
Proof.
  intros Hl. unfold create_data. destruct (extensible o); [| done].
  by apply store_data_others.
Qed.

Lemma set_prototype_others (h : gmap nat object) (l : nat) (o : object)
    (v : value) (l' : nat) :
  l' <> l -> result_heap h (set_prototype h l o v) !! l' = h !! l'.
Proof.
  intros Hl. unfold set_prototype.
  destruct v as [| | b | n | str | [p | id t path] | f]; try done.
  - case_decide; [done |]. destruct (can_change_proto o); simpl; [| done].
    by rewrite lookup_insert_ne.
  - case_decide; [done |]. destruct (can_change_proto o); simpl; [| done].
    destruct (reaches (size h) h p l); simpl; [done |].
    by rewrite lookup_insert_ne.
  - by destruct (can_change_proto o).
  - by destruct (can_change_proto o).
Qed.

(** An assignment on an ordinary object changes no other object of the
    heap, whatever it does to the object itself. *)
Lemma ordinary_set_others (h : gmap nat object) (l : nat) (prop : string)
    (v : value) (l' : nat) :
  l' <> l -> result_heap h (ordinary_set h l prop v) !! l' = h !! l'.
Proof.
  intros Hl. unfold ordinary_set.
  destruct (h !! l) as [o |]; [| done].
  destruct (lookup_property h l prop) as [[holder [x [] c | c]] |];
    try done; try by apply set_prototype_others.
  - destruct (own_property o prop); [| by apply create_data_others].
    destruct (shape_of o); try by apply store_data_others.
    destruct (String.eqb prop "length");
      [by apply set_length_others | by apply store_data_others].
  - by apply create_data_others.
Qed.

Lemma own_set_heap (l : nat) (prop : string) (v : value) (s : session) :
  heap (snd (own_set l prop v s))
  = result_heap (heap s) (ordinary_set (heap s) l prop v).
Proof. unfold own_set. by destruct (ordinary_set (heap s) l prop v). Qed.

(** The heap after a write through any handle: the heap as it was (the
    trap threw before its assignment), or what the assignment of some
    value to the key of the object under the handle left. *)
Lemma obj_set_heap_cases (r : ref) (prop : string) (v : value) (s : session) :
  heap (snd (obj_set r prop v s)) = heap s
  \/ exists x,
       heap (snd (obj_set r prop v s))
       = result_heap (heap s) (ordinary_set (heap s) (base r) prop x).
Proof.
  revert v s. induction r as [l | id t IH path]; intros v s.
  - right. exists v. apply own_set_heap.
  - assert (Hrest : forall (b : bool) sa,
               heap (snd (bind (obj_get t prop) (fun stored =>
                            bind (emit SET (path ++ [prop]) stored)
                                 (fun _ => ret true)) sa)) = heap sa).
    { intros b sa. rewrite bind_snd.
      pose proof (obj_get_heap t prop sa) as Hh.
      destruct (obj_get t prop sa) as [[x | e |] sb]; try done.
      rewrite bind_snd, emit_run. done. }
    assert (Hgo : forall x sa, heap sa = heap s ->
               heap (snd (bind (obj_set t prop x)
                            (fun _ => bind (obj_get t prop) (fun stored =>
                               bind (emit SET (path ++ [prop]) stored)
                                    (fun _ => ret true))) sa)) = heap s
               \/ exists y,
                    heap (snd (bind (obj_set t prop x)
                                 (fun _ => bind (obj_get t prop) (fun stored =>
                                    bind (emit SET (path ++ [prop]) stored)
                                         (fun _ => ret true))) sa))
                    = result_heap (heap s)
                        (ordinary_set (heap s) (base t) prop y)).
    { intros x sa Hsa. rewrite bind_snd.
      specialize (IH x sa). rewrite Hsa in IH.
      destruct (obj_set t prop x sa) as [[b | e |] sb]; try done.
      by rewrite (Hrest b sb). }
    simpl base. cbn [obj_set].
    destruct v as [| | b | n | str | o | f];
      try (unfold set_trap; simpl typeof_object; cbv iota; by apply Hgo).
    + by left.
    + rewrite set_trap_object. cbv zeta.
      destruct (childrens s !! o); by apply Hgo.
Qed.

(** X17. A write through any handle, of any value, whether it returns
    or throws, changes no object other than the one under the handle.
    (The assignments that the embedding does not follow are left aside:
    a proxy or a function assigned to an inherited [__proto__], a
    string, an object or a function assigned to the [length] of an
    array.)  Where the key
    takes a data property, of that object only the property written
    changes (and, if the object is an array, its [length]): every other
    own property is as before, and so are its prototype and whether it
    can be extended. *)
Theorem write_changes_only_that_key (r : ref) (prop : string) (v : value)
    (s : session) :
  let s' := snd (obj_set r prop v s) in
  match fst (obj_set r prop v s) with
  | Outside => True
  | _ => others_kept (base r) s s'
  end
  /\ (takes_data (heap s) (base r) prop = true ->
      same_elsewhere (base r) prop s s').
Proof.
  intros s'.
  destruct (obj_set_heap_cases r prop v s) as [Hh | [x Hh]]; fold s' in Hh.
  { split.
    - assert (Hk : others_kept (base r) s s') by (intros l' _; by rewrite Hh).
      by destruct (fst (obj_set r prop v s)).
    - intros _. unfold same_elsewhere. rewrite Hh. split; [| done].
      intros l' prop' _. by apply own_slot_heap. }
  split.
  { assert (Hk : others_kept (base r) s s').
    { intros l' Hl. rewrite Hh. by apply ordinary_set_others. }
    by destruct (fst (obj_set r prop v s)). }
  intros Htk.
  destruct (ordinary_set_takes _ _ _ x Htk) as (o & o' & c & Hl & Hg & Hset & _).
  rewrite Hset in Hh. simpl in Hh.
  destruct (grown_props _ _ _ Hg) as (Hp & Hpr & He & Hs).
  unfold same_elsewhere. rewrite Hh, lookup_insert_eq, Hl. simpl.
  split; [| by rewrite Hpr, He].
  intros l' prop' Hne. unfold own_slot. rewrite Hh.
  destruct (decide (l' = base r)) as [-> | Hl'];
    [| by rewrite lookup_insert_ne].
  destruct Hne as [? | [Hne Hlen]]; [done |].
  rewrite lookup_insert_eq, Hl. simpl.
  unfold own_property. simpl.
  unfold is_array in Hlen. rewrite Hl in Hlen. simpl in Hlen.
  destruct (shape_of o) as [| len w |].
  - rewrite Hs, Hp. by rewrite lookup_insert_ne.
  - destruct Hs as [n ->]. specialize (Hlen eq_refl).
    apply String.eqb_neq in Hlen. rewrite Hlen, Hp.
    by rewrite lookup_insert_ne.
  - rewrite Hs, Hp. by rewrite lookup_insert_ne.
Qed.

Lemma write_changes_only_that_key_witness :
  let root := fst (createProxy Examples.list_doc (Raw 0)) in
  let s := snd (createProxy Examples.list_doc (Raw 0)) in
  let list := Prox 1 (Raw 1) ["list"] in
  let s' := snd (obj_set list "3" (VNum 9) s) in
  takes_data (heap s) (base list) "3" = true
  /\ fst (obj_set list "3" (VNum 9) s) = Normal true
  /\ others_kept (base list) s s'
  /\ same_elsewhere (base list) "3" s s'.
Proof.
  intros root s list s'.
  assert (H : takes_data (heap s) (base list) "3" = true)
    by (vm_compute; reflexivity).
  assert (E : fst (obj_set list "3" (VNum 9) s) = Normal true)
    by (vm_compute; reflexivity).
  split; [exact H |]. split; [exact E |].
  destruct (write_changes_only_that_key list "3" (VNum 9) s) as [H1 H2].
  rewrite E in H1.
  split; [exact H1 | exact (H2 H)].
Defined.

(** A deletion of a key that the object under the handle has and that can
    be deleted goes through, whatever the handle. *)
Lemma obj_delete_own (r : ref) (prop : string) (s : session) (sl : slot) :
  own_slot s (base r) prop = Some sl -> is_configurable sl = true ->
  exists s',
    obj_delete r prop s = (Normal true, s')
    /\ heap s' = alter (with_props (delete prop)) (base r) (heap s).
Proof.
  intros Ho Hc.
  assert (Hf : forall sa, heap sa = heap s ->
                 frozen_value (heap sa) (base r) prop = None).
  { intros sa ->. unfold own_slot in Ho. unfold frozen_value. rewrite Ho.
    destruct sl as [x [] [] | ?]; done. }
  revert s Ho Hf. induction r as [l | id t IH path]; intros s Ho Hf.
  - simpl in *. rewrite (own_delete_run _ _ _ _ Ho Hc). by eexists.
  - simpl base in *. cbn [obj_delete]. unfold delete_trap.
    destruct (obj_get_unfrozen t prop s (Hf s eq_refl)) as (v & s1 & Ht & Hh1).
    unfold bind at 1. rewrite Ht. unfold bind at 1.
    destruct (obj_get_unfrozen t prop s1 (Hf s1 Hh1)) as (x & s2 & Hx & Hh2).
    assert (Hv : exists y,
               (if typeof_object v
                then bind (obj_get t prop) (fun raw => childrens_get raw)
                else obj_get t prop) s1 = (Normal y, s2)).
    { destruct (typeof_object v).
      - unfold bind. rewrite Hx. unfold childrens_get, gets. by eexists.
      - rewrite Hx. by eexists. }
    destruct Hv as [y ->].
    unfold bind at 1.
    assert (H2 : heap s2 = heap s) by congruence.
    destruct (IH s2) as (s3 & Hdel & Hh3).
    { by rewrite (own_slot_heap s s2). }
    { intros sa Hsa. apply Hf. congruence. }
    rewrite Hdel. unfold bind. rewrite emit_run.
    eexists. split; [done |]. simpl. by rewrite Hh3, H2.
Qed.

Lemma same_but_heap (l : nat) (prop : string) (s s' : session) :
  heap s' = heap s -> same_but l prop s s'.
Proof. intros Hh l' prop' _. by apply own_slot_heap. Qed.

(** X18. A deletion through any handle removes the own property [prop]
    of the object under the handle and reports success, also where the
    object has no such property; where the property cannot be deleted
    (the [length] of an array, a key of a sealed or frozen object) the
    deletion throws and the heap is as before.  In every case every other
    own property of every object is as it was. *)
Theorem delete_removes_only_that_key (r : ref) (prop : string) (s : session) :
  let s' := snd (obj_delete r prop s) in
  same_but (base r) prop s s'
  /\ match own_slot s (base r) prop with
     | Some sl =>
         if is_configurable sl
         then fst (obj_delete r prop s) = Normal true
              /\ own_slot s' (base r) prop = None
         else fst (obj_delete r prop s) = Throws TypeError
              /\ heap s' = heap s
     | None => fst (obj_delete r prop s) = Normal true /\ heap s' = heap s
     end.
Proof.
  intros s'. unfold s'.
  destruct (own_slot s (base r) prop) as [sl |] eqn:Ho.
  - destruct (is_configurable sl) eqn:Hc.
    + destruct (obj_delete_own r prop s sl Ho Hc) as (s1 & Hdel & Hh).
      rewrite Hdel. simpl. split; [| split; [done |]].
      * intros l' prop' Hne. unfold own_slot. rewrite Hh, lookup_alter.
        case_decide as Hl; [| done]. subst l'.
        destruct Hne as [? | Hp]; [done |].
        destruct (heap s !! base r) as [o |]; [| done]. simpl.
        unfold own_property. simpl.
        destruct (shape_of o); by rewrite lookup_delete_ne.
      * rewrite <- (own_slot_deleted (base r) prop s sl Ho Hc).
        by apply own_slot_heap.
    + destruct (obj_delete_refused r prop s sl Ho Hc) as (s1 & Hdel & Hh & _).
      rewrite Hdel. simpl. split; [by apply same_but_heap | done].
  - destruct (obj_delete_own_absent r prop s Ho) as (s1 & Hdel & Hh).
    rewrite Hdel. simpl. split; [by apply same_but_heap | done].
Qed.

(** X18 on a document that holds an array: an element is deleted, the
    [length] is not. *)
Example delete_in_array :
  let s := snd (createProxy Examples.list_doc (Raw 0)) in
  let list := Prox 1 (Raw 1) ["list"] in
  fst (obj_delete list "0" s) = Normal true
  /\ own_slot (snd (obj_delete list "0" s)) 1 "0" = None
  /\ target_value (snd (obj_delete list "0" s)) 1 "length" = VNum 2
  /\ fst (obj_delete list "length" s) = Throws TypeError.
Proof. vm_compute. repeat split; reflexivity. Qed.

(** *** What a write announces *)

(** The [set] trap of a proxy of an ordinary object, once the value to
    store is known, for a key that takes a data property. *)
Lemma direct_set_run (l : nat) (path : list string) (prop : string)
    (x : value) (s : session) :
  takes_data (heap s) l prop = true ->
  exists h c,
    ordinary_set (heap s) l prop x = Ok h
    /\ (h !! l ≫= fun o => own_property o prop) = Some (Data x true c)
    /\ bind (own_set l prop x)
         (fun _ => bind (own_get l prop) (fun stored =>
            bind (emit SET (path ++ [prop]) stored) (fun _ => ret true))) s
       = (Normal true,
          after_emit SET (path ++ [prop]) x (upd_heap (fun _ => h) s)).
Proof.
  intros Htk.
  destruct (ordinary_set_takes _ _ _ x Htk) as (o & o' & c & Hl & Hg & Hset & Hown).
  eexists _, c. split; [exact Hset |].
  split; [by rewrite lookup_insert_eq |].
  unfold bind at 1. rewrite (own_set_run _ _ _ _ _ Hset).
  unfold bind at 1. unfold own_get, gets. simpl heap.
  destruct (stored_is_read (heap s) l _ _ _ _ Hown) as [-> _].
  unfold bind. by rewrite emit_run.
Qed.

(** X19. A write through a proxy of an ordinary object stores and
    announces the same value, where the key takes a data property (see
    C1).  For every value but [null] the write reports success; the key
    then holds the value itself (a primitive, a function) or a child
    proxy of it (an object: the cached one, or a new one with the path of
    the proxy extended by the key); exactly one event is emitted, a [SET]
    with that path and with the value now stored; and each [Persist]
    listener registered for [SET] calls [backend.set] once. *)
Theorem write_announces_stored_value (id l : nat) (path : list string)
    (prop : string) (v : value) (s : session) :
  v <> VNull ->
  takes_data (heap s) l prop = true ->
  let x := stored_for s (path ++ [prop]) v in
  exists s',
    obj_set (Prox id (Raw l) path) prop v s = (Normal true, s')
    /\ own_lookup s' l prop = Some x
    /\ emitted s' = emitted s ++ [mk_event s SET (path ++ [prop]) x]
    /\ backend_sets s' = backend_sets s ++ persist_args (on_SET (listeners s)).
Proof.
  intros Hv Htk x. unfold x. cbn [obj_set].
  assert (Hgo : forall y sa,
             heap sa = heap s ->
             exists s',
               bind (own_set l prop y)
                 (fun _ => bind (own_get l prop) (fun stored =>
                    bind (emit SET (path ++ [prop]) stored)
                         (fun _ => ret true))) sa = (Normal true, s')
               /\ own_lookup s' l prop = Some y
               /\ emitted s' = emitted sa ++ [mk_event sa SET (path ++ [prop]) y]
               /\ backend_sets s'
                  = backend_sets sa ++ persist_args (on_SET (listeners sa))).
  { intros y sa Hsa.
    destruct (direct_set_run l path prop y sa) as (h & c & Hset & Hown & ->);
      [by rewrite Hsa |].
    eexists. split; [done |]. split; [| done].
    unfold own_lookup. simpl. by rewrite Hown. }
  destruct v as [| | b | n | str | o | f]; try done;
    try (unfold set_trap; simpl typeof_object; cbv iota; by apply Hgo).
  rewrite set_trap_object. cbv zeta. simpl stored_for.
  destruct (childrens s !! o) as [p |] eqn:Hc.
  - by apply Hgo.
  - destruct (Hgo (VObj (Prox (fresh s) o (path ++ [prop])))
                (upd_proxied (fun X => {[ o ]} ∪ X)
                             (with_child o (path ++ [prop]) s)) eq_refl)
      as (s' & Heq & H1 & H2 & H3).
    exists s'. split; [exact Heq |]. split; [exact H1 |].
    split; [exact H2 | exact H3].
Qed.

Lemma write_announces_stored_value_witness :
  let s := snd (createStorage Examples.two_objects (Raw 0)) in
  VObj (Raw 1) <> VNull
  /\ takes_data (heap s) 0 "b" = true
  /\ exists s',
       obj_set (Prox 0 (Raw 0) []) "b" (VObj (Raw 1)) s = (Normal true, s')
       /\ own_lookup s' 0 "b" = Some (VObj (Prox 1 (Raw 1) ["b"]))
       /\ emitted s'
          = emitted s ++ [mk_event s SET ["b"] (VObj (Prox 1 (Raw 1) ["b"]))]
       /\ backend_sets s' = backend_sets s ++ [Prox 0 (Raw 0) []].
Proof.
  intros s.
  assert (H1 : VObj (Raw 1) <> VNull) by discriminate.
  assert (H2 : takes_data (heap s) 0 "b" = true) by (vm_compute; reflexivity).
  split; [exact H1 |]. split; [exact H2 |].
  exact (write_announces_stored_value 0 0 [] "b" (VObj (Raw 1)) s H1 H2).
Defined.

(** Where the key does not take a data property the event need not carry
    the value that was written: for a number written at [__proto__] of an
    object literal it carries [Object.prototype]. *)
Example write_at_proto_announces_prototype :
  let s := snd (createStorage Examples.empty_doc (Raw 0)) in
  let root := Prox 0 (Raw 0) [] in
  takes_data (heap s) 0 "__proto__" = false
  /\ fst (obj_set root "__proto__" (VNum 5) s) = Normal true
  /\ heap (snd (obj_set root "__proto__" (VNum 5) s)) = heap s
  /\ map ev_value (emitted (snd (obj_set root "__proto__" (VNum 5) s)))
     = [VObj (Raw 100)].
Proof. vm_compute. repeat split; reflexivity. Qed.

Lemma parent_kept_by_set (r : ref) (prop : string) (v : value) (s : session) :
  parentTarget (snd (obj_set r prop v s)) = parentTarget s.
Proof.
  pose (P := fun t : session => parentTarget t = parentTarget s).
  assert (HP : P (snd (obj_set r prop v s))); [| exact HP].
  apply obj_set_preserves; [| | | | done].
  - by intros t Ht.
  - by intros t f Ht.
  - intros path w t Ht. by rewrite emit_run.
  - intros path w t Ht. by rewrite emit_run.
Qed.

Lemma parent_kept_by_get (r : ref) (prop : string) (s : session) :
  parentTarget (snd (obj_get r prop s)) = parentTarget s.
Proof.
  pose (P := fun t : session => parentTarget t = parentTarget s).
  assert (HP : P (snd (obj_get r prop s))); [| exact HP].
  apply obj_get_preserves; [| | done].
  - by intros t Ht.
  - intros path w t Ht. by rewrite emit_run.
Qed.

(** The last event of a write of a primitive through a proxy is the [SET]
    of that proxy. *)
Lemma set_primitive_last_event (n : nat) (t : ref) (path : list string)
    (prop : string) (v : value) (s : session) :
  takes_data (heap s) (base t) prop = true ->
  typeof_object v = false ->
  exists s',
    obj_set (Prox n t path) prop v s = (Normal true, s')
    /\ last (emitted s') = Some (mk_event s SET (path ++ [prop]) v).
Proof.
  intros Htk Hv.
  destruct (obj_set_primitive t prop v s Htk Hv) as (s1 & Hset & _ & Hread).
  destruct (obj_get_primitive t prop s1 v Hread Hv) as (s2 & Hget & _).
  cbn [obj_set]. unfold set_trap. rewrite Hv.
  unfold bind at 1. unfold bind at 1. rewrite Hset.
  unfold bind at 1. rewrite Hget. unfold bind. rewrite emit_run.
  eexists. split; [done |]. simpl. rewrite last_snoc. f_equal.
  unfold mk_event. f_equal.
  pose proof (parent_kept_by_set t prop v s) as H1. rewrite Hset in H1.
  pose proof (parent_kept_by_get t prop s1) as H2. rewrite Hget in H2.
  simpl in *. congruence.
Qed.

(** X20. Events carry the full route.  Through a proxy at path [p] of an
    ordinary object, a key that can be written and holds an object which
    the session has not met (no cached proxy, not in
    [proxiedChildrenSet]) reads as a new child proxy; a write of a
    primitive through that child, at a key that takes a data property
    (see C1), emits a [SET] whose path is [p] extended by the key of the
    read and by the key of the write, and whose value is the primitive. *)
Theorem nested_write_carries_full_path (id l : nat) (path : list string)
    (k k' : string) (o : ref) (c : bool) (v : value) (s : session) :
  own_slot s l k = Some (Data (VObj o) true c) ->
  childrens s !! o = None ->
  o ∉ proxiedChildrenSet s ->
  typeof_object v = false ->
  takes_data (heap s) (base o) k' = true ->
  exists child s1 s2,
    obj_get (Prox id (Raw l) path) k s = (Normal (VObj child), s1)
    /\ child = Prox (fresh s) o (path ++ [k])
    /\ obj_set child k' v s1 = (Normal true, s2)
    /\ last (emitted s2)
       = Some (mk_event s SET (path ++ [k] ++ [k']) v).
Proof.
  intros Hk Hc Hp Hv Htk.
  assert (Hget : obj_get (Prox id (Raw l) path) k s
                 = (Normal (VObj (Prox (fresh s) o (path ++ [k]))),
                    with_child o (path ++ [k])
                      (after_emit GET (path ++ [k]) (VObj o) s))).
  { rewrite (obj_get_run _ _ _ _ s s (VObj o))
      by (by rewrite raw_get, (own_slot_read _ _ _ _ _ _ Hk)).
    simpl. rewrite bool_decide_eq_false_2 by done. rewrite Hc.
    unfold checked. simpl heap. by rewrite (own_slot_unfrozen _ _ _ _ _ Hk). }
  destruct (set_primitive_last_event (fresh s) o (path ++ [k]) k' v
              (with_child o (path ++ [k])
                 (after_emit GET (path ++ [k]) (VObj o) s)) Htk Hv)
    as (s2 & Hset & Hlast).
  eexists _, _, s2. split; [exact Hget |]. split; [done |].
  split; [exact Hset |]. rewrite Hlast. by rewrite <- app_assoc.
Qed.

Lemma nested_write_carries_full_path_witness :
  let s := snd (createProxy Examples.nested_doc (Raw 0)) in
  own_slot s 0 "a" = Some (Data (VObj (Raw 1)) true true)
  /\ childrens s !! Raw 1 = None
  /\ (Raw 1 ∉ proxiedChildrenSet s)
  /\ typeof_object (VNum 2) = false
  /\ takes_data (heap s) (base (Raw 1)) "x" = true
  /\ exists child s1 s2,
       obj_get (Prox 0 (Raw 0) []) "a" s = (Normal (VObj child), s1)
       /\ child = Prox (fresh s) (Raw 1) ([] ++ ["a"])
       /\ obj_set child "x" (VNum 2) s1 = (Normal true, s2)
       /\ last (emitted s2)
          = Some (mk_event s SET ([] ++ ["a"] ++ ["x"]) (VNum 2)).
Proof.
  intros s.
  assert (H1 : own_slot s 0 "a" = Some (Data (VObj (Raw 1)) true true))
    by (vm_compute; reflexivity).
  assert (H2 : childrens s !! Raw 1 = None) by (vm_compute; reflexivity).
  assert (H3 : Raw 1 ∉ proxiedChildrenSet s) by (simpl; set_solver).
  assert (H4 : typeof_object (VNum 2) = false) by reflexivity.
  assert (H5 : takes_data (heap s) (base (Raw 1)) "x" = true)
    by (vm_compute; reflexivity).
  split; [assumption |]. split; [assumption |]. split; [assumption |].
  split; [assumption |]. split; [assumption |].
  exact (nested_write_carries_full_path 0 0 [] "a" "x" (Raw 1) true (VNum 2) s
           H1 H2 H3 H4 H5).
Defined.

(** *** The reach of the embedding *)

Lemma find_property_eq (fuel : nat) (h : gmap nat object) (l : nat)
    (prop : string) :
  find_property fuel h l prop
  = match h !! l with
    | None => None
    | Some o =>
        match own_property o prop with
        | Some sl => Some (l, sl)
        | None =>
            match proto o, fuel with
            | Some p, S fuel' => find_property fuel' h p prop
            | _, _ => None
            end
        end
    end.
Proof. by destruct fuel. Qed.

Lemma chain_room (h : gmap nat object) (l : nat) (X : gset nat) (o : object) :
  h !! l = Some o -> X ⊆ dom h -> l ∉ X -> size X < size h.
Proof.
  intros Hl HX Hn.
  assert (Hsub : X ∪ {[l]} ⊆ dom h).
  { apply union_subseteq. split; [done |].
    apply singleton_subseteq_l, elem_of_dom. by eexists. }
  apply subseteq_size in Hsub.
  rewrite size_union, size_singleton, size_dom in Hsub by set_solver.
  lia.
Qed.

Lemma find_property_more (rank : nat -> nat) (h : gmap nat object)
    (prop : string) :
  ranked rank h ->
  forall (fuel l : nat) (X : gset nat),
    X ⊆ dom h -> (forall x, x ∈ X -> rank l < rank x) ->
    size h <= fuel + size X ->
    find_property (S fuel) h l prop = find_property fuel h l prop.
Proof.
  intros Hr fuel. induction fuel as [| fuel IH]; intros l X HX Hx Hs;
    rewrite (find_property_eq (S _)), (find_property_eq _ h l);
    destruct (h !! l) as [o |] eqn:Hl; try done;
    destruct (own_property o prop); try done;
    destruct (proto o) as [p |] eqn:Hp; try done.
  - assert (Hn : l ∉ X) by (intros Hin; specialize (Hx l Hin); lia).
    pose proof (chain_room h l X o Hl HX Hn). lia.
  - assert (Hn : l ∉ X) by (intros Hin; specialize (Hx l Hin); lia).
    apply (IH p (X ∪ {[l]})).
    + apply union_subseteq. split; [done |].
      apply singleton_subseteq_l, elem_of_dom. by eexists.
    + pose proof (Hr l o p Hl Hp) as Hlt.
      intros x [Hin | ->%elem_of_singleton]%elem_of_union; [| done].
      specialize (Hx x Hin). lia.
    + rewrite size_union, size_singleton by set_solver. lia.
Qed.

(** The fuel of [lookup_property] is enough: on a heap whose prototype
    chains do not close, more fuel finds the same property, so every
    chain is walked to its end. *)
Lemma lookup_property_fuel (rank : nat -> nat) (h : gmap nat object)
    (l : nat) (prop : string) (fuel : nat) :
  ranked rank h -> size h <= fuel ->
  find_property fuel h l prop = lookup_property h l prop.
Proof.
  intros Hr Hle. unfold lookup_property.
  induction Hle as [| n Hle IH]; [done |].
  rewrite <- IH. apply (find_property_more rank h prop Hr n l ∅).
  - set_solver.
  - set_solver.
  - rewrite size_empty. lia.
Qed.

Lemma reaches_eq (fuel : nat) (h : gmap nat object) (p l : nat) :
  reaches fuel h p l
  = bool_decide (p = l)
    || match h !! p ≫= proto, fuel with
       | Some q, S fuel' => reaches fuel' h q l
       | _, _ => false
       end.
Proof. by destruct fuel. Qed.

Lemma reaches_more (rank : nat -> nat) (h : gmap nat object) (l : nat) :
  ranked rank h ->
  forall (fuel p : nat) (X : gset nat),
    X ⊆ dom h -> (forall x, x ∈ X -> rank p < rank x) ->
    size h <= fuel + size X ->
    reaches (S fuel) h p l = reaches fuel h p l.
Proof.
  intros Hr fuel. induction fuel as [| fuel IH]; intros p X HX Hx Hs;
    rewrite (reaches_eq (S _)), (reaches_eq _ h p); f_equal;
    destruct (h !! p) as [o |] eqn:Hl; try done; simpl;
    destruct (proto o) as [q |] eqn:Hp; try done.
  - assert (Hn : p ∉ X) by (intros Hin; specialize (Hx p Hin); lia).
    pose proof (chain_room h p X o Hl HX Hn). lia.
  - assert (Hn : p ∉ X) by (intros Hin; specialize (Hx p Hin); lia).
    apply (IH q (X ∪ {[p]})).
    + apply union_subseteq. split; [done |].
      apply singleton_subseteq_l, elem_of_dom. by eexists.
    + pose proof (Hr p o q Hl Hp) as Hlt.
      intros x [Hin | ->%elem_of_singleton]%elem_of_union; [| done].
      specialize (Hx x Hin). lia.
    + rewrite size_union, size_singleton by set_solver. lia.
Qed.

(** The same for the test of [[SetPrototypeOf]] that a chain would
    close. *)
Lemma reaches_fuel (rank : nat -> nat) (h : gmap nat object) (p l : nat)
    (fuel : nat) :
  ranked rank h -> size h <= fuel ->
  reaches fuel h p l = reaches (size h) h p l.
Proof.
  intros Hr Hle. induction Hle as [| n Hle IH]; [done |].
  rewrite <- IH. apply (reaches_more rank h l Hr n p ∅).
  - set_solver.
  - set_solver.
  - rewrite size_empty. lia.
Qed.

(** The sample heaps are ranked. *)
Example sample_heaps_ranked :
  let rank := fun l : nat => if decide (l = 100) then 0
                             else if decide (l = 101) then 1 else 2 in
  ranked rank Examples.nested_doc /\ ranked rank Examples.list_doc.
Proof.
  intros rank.
  assert (Hgo : forall h : gmap nat object,
             map_Forall (fun l o => match proto o with
                                    | Some p => (rank p <? rank l)%nat
                                    | None => true
                                    end = true) h ->
             ranked rank h).
  { intros h Hall l o p Hl Hp. specialize (Hall l o Hl). simpl in Hall.
    rewrite Hp in Hall. by apply Nat.ltb_lt in Hall. }
  split; apply Hgo; apply map_Forall_to_list.
  - set (L := map_to_list _). vm_compute in L. subst L.
    repeat constructor.
  - set (L := map_to_list _). vm_compute in L. subst L.
    repeat constructor.
Qed.

(** Reads and deletions are followed throughout.  A write leaves the
    embedding only where an object or a function is assigned to a key
    that resolves to the accessor [__proto__], or a string, an object or
    a function to the [length] of an array. *)
Lemma write_outside_only_at (r : ref) (prop : string) (v : value)
    (s : session) :
  fst (obj_get r prop s) <> Outside
  /\ fst (obj_delete r prop s) <> Outside
  /\ (fst (obj_set r prop v s) = Outside ->
      match v with VObj _ | VFun _ | VStr _ => True | _ => False end
      /\ ((exists holder c,
              lookup_property (heap s) (base r) prop
              = Some (holder, ProtoAccessor c))
          \/ (is_array s (base r) = true /\ prop = "length"))).
Proof.
  split.
  { destruct (obj_get_cases r prop s) as (s1 & [[x ->] | ->]); done. }
  split.
  { pose proof (delete_removes_only_that_key r prop s) as [_ H].
    simpl in H. destruct (own_slot s (base r) prop) as [sl |].
    - destruct (is_configurable sl); destruct H as [-> _]; done.
    - destruct H as [-> _]; done. }
  revert v s. induction r as [l | id t IH path]; intros v s.
  - simpl. unfold own_set, run_result, is_array.
    destruct (ordinary_set (heap s) l prop v) eqn:E; try done. intros _.
    unfold ordinary_set in E.
    destruct (heap s !! l) as [o |] eqn:Hl; [| done].
    assert (Hst : forall w c, store_data (heap s) l o prop v w c <> Out).
    { intros w c. unfold store_data. by destruct (grown o prop). }
    assert (Hcr : create_data (heap s) l o prop v <> Out).
    { unfold create_data. destruct (extensible o); [apply Hst | done]. }
    destruct (lookup_property (heap s) l prop)
      as [[holder [x w c | c]] |] eqn:Hlk; [| | done].
    + destruct w; [| done].
      destruct (own_property o prop); [| done].
      destruct (shape_of o) as [| len lw |] eqn:Hs;
        try (by apply Hst in E).
      destruct (String.eqb prop "length") eqn:Hp; [| by apply Hst in E].
      apply String.eqb_eq in Hp. simpl.
      split; [| right; by rewrite Hs].
      unfold set_length in E.
      destruct v as [| | b | n | str | x' | f]; try done;
        exfalso; revert E; unfold to_length; rewrite ?Hs;
        repeat case_match; done.
    + split; [| left; by eauto].
      unfold set_prototype in E.
      destruct v as [| | b | n | str | [p | ? ? ?] | f]; try done;
        exfalso; revert E; repeat case_match; done.
  - simpl base. cbn [obj_set].
    assert (Hgo : forall x sa,
               heap sa = heap s ->
               fst (bind (obj_set t prop x)
                      (fun _ => bind (obj_get t prop) (fun stored =>
                         bind (emit SET (path ++ [prop]) stored)
                              (fun _ => ret true))) sa) = Outside ->
               match x with VObj _ | VFun _ | VStr _ => True | _ => False end
               /\ ((exists holder c,
                       lookup_property (heap s) (base t) prop
                       = Some (holder, ProtoAccessor c))
                   \/ (is_array s (base t) = true /\ prop = "length"))).
    { intros x sa Hsa. unfold bind at 1.
      specialize (IH x sa).
      destruct (obj_set t prop x sa) as [[b | e |] sb] eqn:E.
      - destruct (obj_get_cases t prop sb) as (s1 & [[y Ht] | Ht]);
          unfold bind; rewrite Ht; [by rewrite emit_run | done].
      - done.
      - intros _. unfold is_array in *. rewrite <- Hsa. by apply IH. }
    destruct v as [| | b | n | str | o | f];
      try (unfold set_trap; simpl typeof_object; cbv iota; by apply Hgo).
    + done.
    + rewrite set_trap_object. cbv zeta. intros H. split; [done |].
      destruct (childrens s !! o); by eapply Hgo in H as [_ H].
Qed.
End ProxyMore.
(** ** [useProxy] *)

Module HookMore.
Import Proxy ProxyFacts ProxyNotions Hook.

Lemma calls_of_app (n : nat) (xs ys : list (nat * event)) :
  omap (fun c => if decide (fst c = n) then Some (snd c) else None) (xs ++ ys)
  = omap (fun c => if decide (fst c = n) then Some (snd c) else None) xs
    ++ omap (fun c => if decide (fst c = n) then Some (snd c) else None) ys.
Proof. apply omap_app. Qed.

Lemma calls_of_notify (n : nat) (ev : event) (obs : list nat) :
  omap (fun c => if decide (fst c = n) then Some (snd c) else None)
       (map (fun m => (m, ev)) obs)
  = replicate (length (filter (fun m => m = n) obs)) ev.
Proof.
  induction obs as [| m obs IH]; [done |].
  rewrite filter_cons.
  change (map (fun m0 => (m0, ev)) (m :: obs))
    with ([(m, ev)] ++ map (fun m0 => (m0, ev)) obs).
  rewrite omap_app, IH. simpl.
  destruct (decide (m = n)) as [-> | Hne]; done.
Qed.

Lemma calls_of_emit (n : nat) (k : kind) (path : list string) (v : value)
    (s : session) :
  calls_of n (after_emit k path v s)
  = calls_of n s ++ replicate (calls_per_event n k s) (mk_event s k path v).
Proof.
  unfold calls_of, calls_per_event. simpl.
  by rewrite calls_of_app, calls_of_notify.
Qed.

Lemma hook_inv_emit (n : nat) (c : kind -> nat) (c0 : list event) (k0 : nat)
    (k : kind) :
  kept_by_emit k (hook_inv n c c0 k0).
Proof.
  intros path v s (Hc & Hk & Hcalls). rewrite emit_run. simpl.
  split; [exact Hc |]. split.
  { simpl. rewrite length_app. lia. }
  rewrite calls_of_emit, Hcalls, Hc. simpl.
  rewrite drop_app_le by done.
  rewrite flat_map_app, <- app_assoc. simpl. by rewrite app_nil_r.
Qed.

Lemma hook_inv_bookkeeping (n : nat) (c : kind -> nat) (c0 : list event)
    (k0 : nat) :
  kept_by_bookkeeping (hook_inv n c c0 k0).
Proof. by intros s Hs. Qed.

Lemma hook_inv_heap (n : nat) (c : kind -> nat) (c0 : list event) (k0 : nat) :
  ignores_heap (hook_inv n c c0 k0).
Proof. by intros s f Hs. Qed.

Lemma observers_app (ls1 ls2 : list listener) :
  observers (ls1 ++ ls2) = observers ls1 ++ observers ls2.
Proof. apply omap_app. Qed.

Lemma observers_on_other (n m : nat) (ls : list listener) :
  m <> n ->
  filter (fun x => x = n) (observers (ls ++ [Observer m]))
  = filter (fun x => x = n) (observers ls).
Proof.
  intros Hne. rewrite observers_app, filter_app.
  change (observers [Observer m]) with [m].
  by rewrite filter_cons, decide_False, filter_nil, app_nil_r by done.
Qed.

Lemma observers_on_self (n : nat) (ls : list listener) :
  n ∉ observers ls ->
  filter (fun x => x = n) (observers (ls ++ [Observer n])) = [n].
Proof.
  intros Hn. rewrite observers_app, filter_app.
  change (observers [Observer n]) with [n].
  rewrite filter_cons, decide_True, filter_nil by done.
  induction (observers ls) as [| x obs IH]; [done |].
  apply not_elem_of_cons in Hn as [Hx Hn].
  rewrite filter_cons, decide_False by done. by apply IH.
Qed.

Lemma observers_off_other (n m : nat) (ls : list listener) :
  m <> n ->
  filter (fun x => x = n) (observers (filter (fun l' => l' <> Observer m) ls))
  = filter (fun x => x = n) (observers ls).
Proof.
  intros Hne. induction ls as [| l ls IH]; [done |].
  rewrite filter_cons. destruct (decide (l <> Observer m)) as [Hl | Hl].
  - destruct l as [p | x]; simpl; [exact IH |].
    rewrite !filter_cons. destruct (decide (x = n)); by rewrite IH.
  - apply dec_stable in Hl. subst l. simpl.
    rewrite filter_cons, decide_False by done. exact IH.
Qed.

Lemma observers_off_self (n : nat) (ls : list listener) :
  filter (fun x => x = n) (observers (filter (fun l' => l' <> Observer n) ls))
  = [].
Proof.
  induction ls as [| l ls IH]; [done |].
  rewrite filter_cons. destruct (decide (l <> Observer n)) as [Hl | Hl];
    [| exact IH].
  destruct l as [p | x]; simpl; [exact IH |].
  rewrite filter_cons, decide_False by congruence. exact IH.
Qed.

Lemma filter_absent (n : nat) (obs : list nat) :
  n ∉ obs -> filter (fun x => x = n) obs = [].
Proof.
  induction obs as [| x obs IH]; [done |].
  intros Hn. apply not_elem_of_cons in Hn as [Hx Hn].
  rewrite filter_cons, decide_False by done. by apply IH.
Qed.

Lemma hook_inv_step (n : nat) (c : kind -> nat) (c0 : list event) (k0 : nat)
    (o : op) (s : session) :
  leaves_listener n o = true ->
  hook_inv n c c0 k0 s -> hook_inv n c c0 k0 (step s o).
Proof.
  intros Hl Hs. destruct o as [r p | r p v | r p | k' m | k' m].
  - apply (obj_get_preserves (hook_inv n c c0 k0));
      auto using hook_inv_bookkeeping, hook_inv_emit.
  - apply (obj_set_preserves (hook_inv n c c0 k0));
      auto using hook_inv_bookkeeping, hook_inv_heap, hook_inv_emit.
  - apply (obj_delete_preserves (hook_inv n c c0 k0));
      auto using hook_inv_bookkeeping, hook_inv_heap, hook_inv_emit.
  - destruct Hs as (Hc & Hk & Hcalls). split; [| done].
    intros k. rewrite <- Hc. simpl in Hl.
    apply negb_true_iff, Nat.eqb_neq in Hl. unfold calls_per_event.
    destruct k, k'; simpl; try done; by rewrite observers_on_other.
  - destruct Hs as (Hc & Hk & Hcalls). split; [| done].
    intros k. rewrite <- Hc. simpl in Hl.
    apply negb_true_iff, Nat.eqb_neq in Hl. unfold calls_per_event.
    destruct k, k'; simpl; try done; by rewrite observers_off_other.
Qed.

Lemma hook_inv_run (n : nat) (c : kind -> nat) (c0 : list event) (k0 : nat)
    (ops : list op) (s : session) :
  forallb (leaves_listener n) ops = true ->
  hook_inv n c c0 k0 s -> hook_inv n c c0 k0 (run ops s).
Proof.
  revert s. induction ops as [| o ops IH]; intros s Hl Hs; [done |].
  simpl in Hl. apply andb_true_iff in Hl as [Ho Hl].
  simpl. apply IH; [done |]. by apply hook_inv_step.
Qed.

Lemma heard_when_mounted (evs : list event) :
  flat_map (fun ev => replicate (mounted_counts (ev_kind ev)) ev) evs
  = filter (fun ev => is_mutation ev = true) evs.
Proof.
  induction evs as [| ev evs IH]; [done |].
  rewrite filter_cons. simpl. rewrite IH. unfold is_mutation.
  destruct (ev_kind ev); simpl; done.
Qed.

Lemma heard_when_unmounted (evs : list event) :
  flat_map (fun ev => replicate (no_counts (ev_kind ev)) ev) evs = [].
Proof. induction evs as [| ev evs IH]; [done | exact IH]. Qed.

(** X21. A mounted component hears every mutation.  After the effect of
    [useProxy] has registered its listener (which was not registered
    before), whatever the clients of the session do next, short of
    (un)registering that very listener, the listener is called exactly
    once for each [SET] and [DEL] event emitted since, in the order of
    the events, and never for a [GET]. *)
Theorem mounted_listener_hears_every_mutation (n : nat) (ops : list op)
    (s : session) :
  unregistered n s ->
  forallb (leaves_listener n) ops = true ->
  let s' := run ops (mount n s) in
  calls_of n s'
  = calls_of n s
    ++ filter (fun ev => is_mutation ev = true)
              (events_since (length (emitted s)) s').
Proof.
  intros (Hg & Hs & Hd) Hl s'.
  assert (H0 : hook_inv n mounted_counts (calls_of n s) (length (emitted s))
                 (mount n s)).
  { split; [| split].
    - intros k. unfold calls_per_event, mount, emitter_on.
      destruct k; simpl.
      + by rewrite filter_absent.
      + by rewrite observers_on_self.
      + by rewrite observers_on_self.
    - done.
    - simpl. by rewrite drop_all, app_nil_r. }
  destruct (hook_inv_run n _ _ _ ops _ Hl H0) as (_ & _ & Hcalls).
  fold s' in Hcalls. rewrite Hcalls. by rewrite heard_when_mounted.
Qed.

Lemma mounted_listener_hears_every_mutation_witness :
  let s := snd (createStorage Examples.nested_doc (Raw 0)) in
  let ops := [Write (Prox 0 (Raw 0) []) "b" (VNum 2);
              Read (Prox 0 (Raw 0) []) "a";
              Remove (Prox 0 (Raw 0) []) "b"] in
  unregistered 7 s
  /\ forallb (leaves_listener 7) ops = true
  /\ calls_of 7 (run ops (mount 7 s))
     = calls_of 7 s
       ++ filter (fun ev => is_mutation ev = true)
                 (events_since (length (emitted s)) (run ops (mount 7 s))).
Proof.
  intros s ops.
  assert (H1 : unregistered 7 s).
  { repeat split; simpl; apply not_elem_of_nil. }
  assert (H2 : forallb (leaves_listener 7) ops = true) by reflexivity.
  split; [assumption |]. split; [assumption |].
  exact (mounted_listener_hears_every_mutation 7 ops s H1 H2).
Defined.

(** X22. The cleanup of the effect silences the listener.  After
    [emitter.off] for [SET] and for [DEL], whatever the clients of the
    session do next, short of registering that listener again, it is
    never called. *)
Theorem unmounted_listener_is_silent (n : nat) (ops : list op) (s : session) :
  n ∉ observers (on_GET (listeners s)) ->
  forallb (leaves_listener n) ops = true ->
  calls_of n (run ops (unmount n s)) = calls_of n s.
Proof.
  intros Hg Hl.
  assert (H0 : hook_inv n no_counts (calls_of n s) (length (emitted s))
                 (unmount n s)).
  { split; [| split].
    - intros k. unfold calls_per_event, unmount, emitter_off.
      destruct k; simpl.
      + by rewrite filter_absent.
      + by rewrite observers_off_self.
      + by rewrite observers_off_self.
    - done.
    - simpl. by rewrite drop_all, app_nil_r. }
  destruct (hook_inv_run n _ _ _ ops _ Hl H0) as (_ & _ & Hcalls).
  rewrite Hcalls. by rewrite heard_when_unmounted, app_nil_r.
Qed.

Lemma unmounted_listener_is_silent_witness :
  let s := mount 7 (snd (createStorage Examples.nested_doc (Raw 0))) in
  let ops := [Write (Prox 0 (Raw 0) []) "b" (VNum 2);
              Remove (Prox 0 (Raw 0) []) "b"] in
  (7 ∉ observers (on_GET (listeners s)))
  /\ forallb (leaves_listener 7) ops = true
  /\ calls_of 7 (run ops (unmount 7 s)) = calls_of 7 s.
Proof.
  intros s ops.
  assert (H1 : 7 ∉ observers (on_GET (listeners s)))
    by (simpl; apply not_elem_of_nil).
  assert (H2 : forallb (leaves_listener 7) ops = true) by reflexivity.
  split; [assumption |]. split; [assumption |].
  exact (unmounted_listener_is_silent 7 ops s H1 H2).
Defined.

Lemma render_fold (storage : value) (evs : list event) (st : Z) :
  st = 0%Z \/ st = (-1)%Z ->
  fold_left (fun st ev => if forces_update storage ev then reducer st else st)
            evs st
  = if Nat.even (length (filter (fun ev => forces_update storage ev = true) evs))
    then st else reducer st.
Proof.
  revert st. induction evs as [| ev evs IH]; intros st Hst; [done |].
  rewrite filter_cons. simpl.
  destruct (forces_update storage ev) eqn:Hf.
  - rewrite decide_True by done. rewrite IH.
    + cbn [length]. rewrite Nat.even_succ, <- Nat.negb_even.
      destruct (Nat.even _); simpl; [done |].
      destruct Hst as [-> | ->]; done.
    + destruct Hst as [-> | ->]; [by right | by left].
  - rewrite decide_False by done. by apply IH.
Qed.

(** X23. The reducer [n => ~n] makes every [forceUpdate] a change of
    state: the state of the component is [0] after an even number of
    forced updates and [-1] after an odd number, so two updates in a row
    never leave it where it was. *)
Theorem render_state_toggles (storage : value) (n : nat) (s : session) :
  render_state storage n s
  = if Nat.even (render_count storage n s) then 0%Z else (-1)%Z.
Proof.
  unfold render_state, render_count. rewrite render_fold by (by left).
  by destruct (Nat.even _).
Qed.

(** X24. What the guard of the listener is for.  A component that
    renders the child proxy [child] of the object held at a key is
    registered for [DEL]; when that key, an own property that can be
    deleted, is deleted through the parent proxy, the listener is called
    with a [DEL] event that carries [child] itself, and [forceUpdate] is
    not called: the component is not rendered again for the removal of
    its own object. *)
Theorem removal_of_watched_object_forces_no_update (n id l : nat)
    (path : list string) (prop : string) (o child : ref) (w : bool)
    (s : session) :
  own_slot s l prop = Some (Data (VObj o) w true) ->
  childrens s !! o = Some child ->
  calls_per_event n DEL s = 1 ->
  let s' := snd (obj_delete (Prox id (Raw l) path) prop s) in
  calls_of n s' = calls_of n s ++ [mk_event s DEL (path ++ [prop]) (VObj child)]
  /\ render_count (VObj child) n s' = render_count (VObj child) n s
  /\ render_state (VObj child) n s' = render_state (VObj child) n s.
Proof.
  intros Hv Hc Hn s'.
  assert (Hs' : s' = after_emit DEL (path ++ [prop]) (VObj child)
                       (after_delete l prop s)).
  { unfold s'. cbn [obj_delete].
    rewrite (delete_trap_run _ _ _ _ s (after_delete l prop s) (VObj o) true).
    - simpl. by rewrite Hc.
    - by rewrite raw_get, (own_slot_read _ _ _ _ _ _ Hv).
    - by eapply own_delete_run. }
  assert (Hcalls : calls_of n s'
                   = calls_of n s ++ [mk_event s DEL (path ++ [prop]) (VObj child)]).
  { rewrite Hs', calls_of_emit.
    change (calls_per_event n DEL (after_delete l prop s))
      with (calls_per_event n DEL s).
    by rewrite Hn. }
  split; [exact Hcalls |].
  assert (Hskip : forces_update (VObj child)
                    (mk_event s DEL (path ++ [prop]) (VObj child)) = false).
  { unfold forces_update. simpl. by rewrite !bool_decide_eq_true_2. }
  split.
  - unfold render_count. rewrite Hcalls, filter_app, length_app.
    rewrite filter_cons, decide_False by (by rewrite Hskip). simpl. lia.
  - unfold render_state. rewrite Hcalls, fold_left_app. simpl.
    by rewrite Hskip.
Qed.

Lemma removal_of_watched_object_forces_no_update_witness :
  let root := Prox 0 (Raw 0) [] in
  let s0 := snd (createStorage Examples.nested_doc (Raw 0)) in
  let s := mount 7 (snd (obj_get root "a" s0)) in
  let child := Prox 1 (Raw 1) ["a"] in
  let s' := snd (obj_delete root "a" s) in
  own_slot s 0 "a" = Some (Data (VObj (Raw 1)) true true)
  /\ childrens s !! Raw 1 = Some child
  /\ calls_per_event 7 DEL s = 1
  /\ calls_of 7 s' = calls_of 7 s ++ [mk_event s DEL ([] ++ ["a"]) (VObj child)]
  /\ render_count (VObj child) 7 s' = render_count (VObj child) 7 s
  /\ render_state (VObj child) 7 s' = render_state (VObj child) 7 s.
Proof.
  intros root s0 s child s'.
  assert (H1 : own_slot s 0 "a" = Some (Data (VObj (Raw 1)) true true))
    by (vm_compute; reflexivity).
  assert (H2 : childrens s !! Raw 1 = Some child) by (vm_compute; reflexivity).
  assert (H3 : calls_per_event 7 DEL s = 1) by (vm_compute; reflexivity).
  split; [assumption |]. split; [assumption |]. split; [assumption |].
  exact (removal_of_watched_object_forces_no_update 7 0 0 [] "a" (Raw 1) child
           true s H1 H2 H3).
Defined.

End HookMore.

(** ** The handlers of [wrapSync], and [awaitStorage] *)

Module SyncMore.
Import Proxy ProxyFacts ProxyNotions ProxyMore SyncAdapter SyncAdapterFacts SyncForward.

Lemma result_heap_size (h : gmap nat object) (l : nat) (o : object) :
  h !! l = Some o -> forall o', size (<[l := o']> h) = size h.
Proof.
  intros Hl o'. rewrite <- (insert_delete_id h l o Hl) at 2.
  rewrite <- (insert_delete_eq h l o').
  rewrite !map_size_insert_None by apply lookup_delete_eq. done.
Qed.

(** An assignment on an ordinary object keeps the objects of the heap,
    their number included. *)
Lemma ordinary_set_size (h : gmap nat object) (l : nat) (prop : string)
    (v : value) :
  size (result_heap h (ordinary_set h l prop v)) = size h.
Proof.
  unfold ordinary_set.
  destruct (h !! l) as [o |] eqn:Hl; [| done].
  assert (Hstore : forall w c,
             size (result_heap h (store_data h l o prop v w c)) = size h).
  { intros w c. unfold store_data. destruct (grown o prop); [| done].
    simpl. by eapply result_heap_size. }
  assert (Hcreate : size (result_heap h (create_data h l o prop v)) = size h).
  { unfold create_data. by destruct (extensible o). }
  assert (Hproto : size (result_heap h (set_prototype h l o v)) = size h).
  { unfold set_prototype.
    destruct v as [| | b | n | str | [q | id t path] | f]; try done.
    - case_decide; [done |]. destruct (can_change_proto o); [| done].
      simpl. by eapply result_heap_size.
    - case_decide; [done |]. destruct (can_change_proto o); [| done].
      simpl. destruct (reaches (size h) h q l); [done |].
      simpl. by eapply result_heap_size.
    - by destruct (can_change_proto o).
    - by destruct (can_change_proto o). }
  destruct (lookup_property h l prop) as [[holder [x [] c | c]] |]; try done.
  destruct (own_property o prop); [| done].
  destruct (shape_of o) eqn:Hs; try done.
  destruct (String.eqb prop "length"); [| done].
  unfold set_length. destruct (to_length v); try done. rewrite Hs.
  destruct (_ <=? _)%N; simpl; [by eapply result_heap_size |].
  destruct (truncate n o) as [o' []]; simpl; by eapply result_heap_size.
Qed.

(** The lookup of a property from an object other than [p] does not see
    what the object at [p] is, where [p] is no object's prototype. *)
Lemma find_property_frame (h h' : gmap nat object) (p : nat) (prop : string) :
  (forall l o, h !! l = Some o -> proto o <> Some p) ->
  (forall l, l <> p -> h' !! l = h !! l) ->
  forall fuel l, l <> p ->
    find_property fuel h' l prop = find_property fuel h l prop.
Proof.
  intros Hp Hh. induction fuel as [| fuel IH]; intros l Hl; simpl;
    rewrite (Hh l Hl); [done |].
  destruct (h !! l) as [o |] eqn:Ho; [| done].
  destruct (own_property o prop); [done |].
  destruct (proto o) as [q |] eqn:Hq; [| done].
  apply IH. intros ->. by apply (Hp l o Ho).
Qed.

(** A read through a handle on another object returns the same and
    leaves the same session, the heap apart. *)
Lemma obj_get_frame (r : ref) (prop : string) (h' : gmap nat object) (p : nat)
    (s : session) :
  base r <> p ->
  (forall l o, heap s !! l = Some o -> proto o <> Some p) ->
  (forall l, l <> p -> h' !! l = heap s !! l) ->
  size h' = size (heap s) ->
  obj_get r prop (upd_heap (fun _ => h') s)
  = (fst (obj_get r prop s), upd_heap (fun _ => h') (snd (obj_get r prop s))).
Proof.
  intros Hb Hp Hh Hsz.
  assert (Hget : ordinary_get h' (base r) prop
                 = ordinary_get (heap s) (base r) prop).
  { unfold ordinary_get, lookup_property, prototype_of.
    rewrite Hsz, (find_property_frame (heap s) h' p prop Hp Hh) by done.
    by rewrite (Hh _ Hb). }
  assert (Hfz : frozen_value h' (base r) prop
                = frozen_value (heap s) (base r) prop).
  { unfold frozen_value. by rewrite (Hh _ Hb). }
  induction r as [l | id t IH path].
  - simpl in *. unfold own_get, gets. simpl. by rewrite Hget.
  - simpl base in *. specialize (IH Hb Hget Hfz).
    pose proof (obj_get_heap t prop s) as Hh1.
    destruct (obj_get_cases t prop s) as (s1 & [[v Ht] | Ht]);
      rewrite Ht in IH, Hh1; simpl in IH, Hh1.
    + rewrite (obj_get_run _ _ _ _ _ _ _ IH), (obj_get_run _ _ _ _ _ _ _ Ht).
      assert (Hck : forall sx sy res, heap sx = h' -> heap sy = heap s ->
                      checked sx (base t) prop res
                      = checked sy (base t) prop res).
      { intros sx sy res Hx Hy. unfold checked. by rewrite Hx, Hy, Hfz. }
      assert (Hpair : forall sx sy res,
                 heap sy = heap s -> sx = upd_heap (fun _ => h') sy ->
                 (checked sx (base t) prop res, sx)
                 = (checked sy (base t) prop res, upd_heap (fun _ => h') sy)).
      { intros sx sy res Hy ->. by rewrite (Hck _ sy). }
      destruct (present v) eqn:Hpv; [| by apply Hpair].
      destruct v as [| | b | n | str | o | f]; try done;
        try (simpl; by apply Hpair).
      unfold exposed. simpl.
      destruct (bool_decide (o ∈ proxiedChildrenSet s1));
        [by apply Hpair |].
      destruct (childrens s1 !! o); by apply Hpair.
    + by rewrite (obj_get_throws _ _ _ _ _ _ _ IH),
                 (obj_get_throws _ _ _ _ _ _ _ Ht).
Qed.

(** X25. A write through the wrapper before the store is there stays on
    the wrapper's own placeholder object, a fresh object that is no
    object's prototype and has no property that is neither writable nor
    configurable (so that the checks of the wrapper against it, which is
    its target, let every read pass).  Whether the write returns or
    throws, it emits no event and calls no [backend.set], and no other
    object of the heap changes; once the store is there, a read of any
    key through the wrapper gives what the store gives, as if the early
    write had not been.  (The assignments that the embedding does not
    follow are left aside: a proxy or a function assigned to
    [__proto__].)  Where the key takes a data property on the placeholder
    (see C1), the write reports success and, while the store is pending,
    the wrapper reads the value back. *)
Theorem early_write_stays_on_placeholder (p : nat) (r : ref) (prop : string)
    (v : value) (s : session) :
  is_proxy r = true ->
  base r <> p ->
  (forall l o, heap s !! l = Some o -> proto o <> Some p) ->
  (forall k, frozen_value (heap s) p k = None) ->
  let s1 := snd (wrapped_set (Raw p) VUndef prop v s) in
  match fst (wrapped_set (Raw p) VUndef prop v s) with
  | Outside => True
  | _ =>
      emitted s1 = emitted s
      /\ backend_sets s1 = backend_sets s
      /\ others_kept p s s1
      /\ (forall prop',
            fst (wrapped_get (Raw p) (VObj r) prop' s1)
            = fst (wrapped_get (Raw p) (VObj r) prop' s))
  end
  /\ (takes_data (heap s) p prop = true ->
       wrapped_set (Raw p) VUndef prop v s = (Normal true, s1)
       /\ wrapped_get (Raw p) VUndef prop s1 = (Normal v, s1)).
Proof.
  intros Hr Hne Hp _ s1.
  enough (Hall : (emitted s1 = emitted s
                  /\ backend_sets s1 = backend_sets s
                  /\ others_kept p s s1
                  /\ (forall prop',
                        fst (wrapped_get (Raw p) (VObj r) prop' s1)
                        = fst (wrapped_get (Raw p) (VObj r) prop' s)))
                 /\ (takes_data (heap s) p prop = true ->
                     wrapped_set (Raw p) VUndef prop v s = (Normal true, s1)
                     /\ wrapped_get (Raw p) VUndef prop s1 = (Normal v, s1))).
  { destruct Hall as [Ha Hb]. split; [| exact Hb].
    by destruct (fst (wrapped_set (Raw p) VUndef prop v s)). }
  assert (Hs1 : s1 = upd_heap (fun _ => result_heap (heap s)
                                 (ordinary_set (heap s) p prop v)) s).
  { unfold s1, wrapped_set, forward_to, bind, ret. cbn [obj_set].
    unfold own_set. destruct (ordinary_set (heap s) p prop v); simpl; try done.
    by rewrite upd_heap_same. }
  split.
  { split; [by rewrite Hs1 |]. split; [by rewrite Hs1 |].
    split.
    { intros l Hl. rewrite Hs1. simpl. by apply ordinary_set_others. }
    intros prop'. destruct r as [| id t path]; [done |].
    unfold wrapped_get, forward_to, bind, ret. rewrite Hs1.
    rewrite (obj_get_frame (Prox id t path) prop' _ p s); try done.
    - intros l Hl. by apply ordinary_set_others.
    - apply ordinary_set_size. }
  intros Htk.
  destruct (ordinary_set_takes _ _ _ v Htk) as (o & o' & c & Hl & Hg & Hset & Hown).
  split.
  - rewrite Hs1. unfold wrapped_set, forward_to, bind, ret. cbn [obj_set].
    rewrite (own_set_run _ _ _ _ _ Hset). by rewrite Hset.
  - unfold wrapped_get, forward_to, bind, ret. rewrite raw_get.
    f_equal. f_equal. rewrite Hs1. unfold target_value. simpl. rewrite Hset.
    simpl. by destruct (stored_is_read (heap s) p _ _ _ _ Hown) as [-> _].
Qed.

Lemma early_write_stays_on_placeholder_witness :
  let h := <[ 9 := Examples.plain ∅ ]> Examples.nested_doc in
  let root := fst (createStorage h (Raw 0)) in
  let s := snd (createStorage h (Raw 0)) in
  let s1 := snd (wrapped_set (Raw 9) VUndef "a" (VNum 5) s) in
  is_proxy root = true
  /\ base root <> 9
  /\ (forall l o, heap s !! l = Some o -> proto o <> Some 9)
  /\ (forall k, frozen_value (heap s) 9 k = None)
  /\ takes_data (heap s) 9 "a" = true
  /\ emitted s1 = emitted s
  /\ backend_sets s1 = backend_sets s
  /\ others_kept 9 s s1
  /\ (forall prop',
        fst (wrapped_get (Raw 9) (VObj root) prop' s1)
        = fst (wrapped_get (Raw 9) (VObj root) prop' s))
  /\ wrapped_set (Raw 9) VUndef "a" (VNum 5) s = (Normal true, s1)
  /\ wrapped_get (Raw 9) VUndef "a" s1 = (Normal (VNum 5), s1).
Proof.
  intros h root s s1.
  assert (H1 : is_proxy root = true) by reflexivity.
  assert (H2 : base root <> 9) by (simpl; lia).
  assert (H3 : forall l o, heap s !! l = Some o -> proto o <> Some 9).
  { intros l o. simpl. unfold h, Examples.nested_doc, Examples.realm.
    rewrite !lookup_insert. repeat case_decide; try done;
      try (intros [= <-]; done).
    rewrite lookup_singleton. case_decide; [| done]. by intros [= <-]. }
  assert (H4 : takes_data (heap s) 9 "a" = true) by (vm_compute; reflexivity).
  assert (H5 : forall k, frozen_value (heap s) 9 k = None).
  { intros k. unfold frozen_value. simpl. unfold h.
    rewrite lookup_insert_eq. simpl. unfold own_property. simpl.
    by rewrite fmap_empty, lookup_empty. }
  split; [assumption |]. split; [assumption |]. split; [assumption |].
  split; [assumption |]. split; [assumption |].
  destruct (early_write_stays_on_placeholder 9 root "a" (VNum 5) s H1 H2 H3 H5)
    as (Ea & E5).
  destruct (E5 H4) as [E6 E7].
  rewrite E6 in Ea. destruct Ea as (E1 & E2 & E3 & E4).
  repeat split; assumption.
Defined.

Lemma times_app (cb : nat) (l1 l2 : list nat) :
  times cb (l1 ++ l2) = times cb l1 + times cb l2.
Proof. unfold times. by rewrite filter_app, length_app. Qed.

Lemma times_other (cb x : nat) : x <> cb -> times cb [x] = 0.
Proof. intros H. unfold times. by rewrite filter_cons, decide_False. Qed.

Lemma times_absent (cb : nat) (l : list nat) : cb ∉ l -> times cb l = 0.
Proof.
  induction l as [| x l IH]; [done |].
  intros Hn. apply not_elem_of_cons in Hn as [Hx Hn].
  unfold times in *. rewrite filter_cons, decide_False by done. by apply IH.
Qed.

Lemma times_elem (cb : nat) (l : list nat) : cb ∈ l <-> times cb l <> 0.
Proof.
  unfold times. induction l as [| x l IH].
  - split; [by intros H%elem_of_nil | done].
  - rewrite filter_cons, elem_of_cons.
    destruct (decide (x = cb)) as [-> | Hne]; simpl.
    + split; [done | by left].
    + rewrite <- IH. split; [by intros [-> | H] | by right].
Qed.

Lemma awaiting_after_awaitInit (res : nat) (s : sync) :
  ready_for_await res s -> awaiting res (awaitInit res s).
Proof.
  intros (Hs & Hc & Hq). unfold awaiting, awaitInit.
  destruct (truthy (awaited s)) eqn:Ht; simpl; rewrite Hs, ?Ht.
  - split; [done |]. rewrite times_app, times_absent by done.
    unfold times. by rewrite filter_cons, decide_True.
  - split; [done |]. rewrite times_app, !times_absent by done.
    unfold times. by rewrite filter_cons, decide_True.
Qed.

Lemma awaiting_act (res i : nat) (a : action) (s : sync) :
  later_action res (At i a) = true ->
  awaiting res s -> awaiting res (act s a).
Proof.
  intros Hl (Hs & Hc). unfold awaiting in *.
  destruct a as [cb | v]; simpl in *.
  - apply negb_true_iff, Nat.eqb_neq in Hl. unfold awaitInit.
    destruct (truthy (awaited s)) eqn:Ht; rewrite Hs in Hc;
      unfold call; cbn [awaited called awaitQueue settled];
      rewrite Hs, ?Ht; (split; [done |]).
    + rewrite times_app, times_other by done. lia.
    + rewrite times_app, times_other by done. split; [tauto | lia].
  - destruct v as [| | b | n | str | r | f]; try done.
    destruct (settled s) eqn:Hset; [by rewrite Hset |].
    unfold on_fulfilled. rewrite call_all. simpl.
    split; [done |]. rewrite times_app. lia.
Qed.

Lemma awaiting_play_all (res : nat) (xs : list store_action) (stores : list sync) :
  forallb (later_action res) xs = true ->
  Forall (awaiting res) stores -> Forall (awaiting res) (play_all xs stores).
Proof.
  revert stores. induction xs as [| x xs IH]; intros stores Hl Hs; [done |].
  simpl in Hl. apply andb_true_iff in Hl as [Hx Hl].
  simpl. apply IH; [done |]. destruct x as [i a]. simpl.
  apply Forall_alter; [done |]. intros s _ Hs'. by apply (awaiting_act res i).
Qed.

(** X26. [awaitStorage] waits for exactly the stores that are not there
    yet.  Each store is pending or fulfilled, and none has seen its
    resolver before.  After [awaitStorage] has handed every store its
    resolver, whatever happens next (stores are fulfilled with their
    storage proxy, other callbacks are registered), every resolver has been
    called, which is when [Promise.all] is fulfilled, exactly when every
    store has been fulfilled; and no resolver is called twice. *)
Theorem awaitStorage_fulfilled_when_all_stores_are (res : nat)
    (stores : list sync) (xs : list store_action) :
  Forall (ready_for_await res) stores ->
  forallb (later_action res) xs = true ->
  let final := play_all xs (awaitStorage res stores) in
  joined res final = forallb settled final
  /\ Forall (fun s => times res (called s) <= 1) final.
Proof.
  intros Hr Hl final.
  assert (Hf : Forall (awaiting res) final).
  { apply awaiting_play_all; [done |]. unfold awaitStorage.
    apply Forall_map. eapply Forall_impl; [exact Hr |].
    intros s Hs. by apply awaiting_after_awaitInit. }
  clearbody final. clear Hr Hl. unfold joined.
  induction Hf as [| s final (Hs & Hc) Hf [IH1 IH2]]; [done |].
  simpl. rewrite IH1. split.
  - f_equal. destruct (settled s).
    + apply bool_decide_eq_true_2, times_elem. lia.
    + apply bool_decide_eq_false_2. rewrite times_elem. lia.
  - constructor; [| done]. destruct (settled s); lia.
Qed.

Lemma awaitStorage_fulfilled_when_all_stores_are_witness :
  let stores := [wrapSync; act wrapSync (Fulfil (VObj (Raw 0)))] in
  let xs := [At 0 (Register 4); At 0 (Fulfil (VObj (Raw 1)))] in
  let final := play_all xs (awaitStorage 1 stores) in
  Forall (ready_for_await 1) stores
  /\ forallb (later_action 1) xs = true
  /\ joined 1 final = forallb settled final
  /\ Forall (fun s => times 1 (called s) <= 1) final.
Proof.
  intros stores xs final.
  assert (H1 : Forall (ready_for_await 1) stores).
  { repeat constructor; simpl; apply not_elem_of_nil. }
  assert (H2 : forallb (later_action 1) xs = true) by reflexivity.
  split; [assumption |]. split; [assumption |].
  exact (awaitStorage_fulfilled_when_all_stores_are 1 stores xs H1 H2).
Defined.

End SyncMore.
